(** * The agora virtual machine and its assembler, embedded in Rocq

    The development follows the Go sources: the operand, bookmark and
    range-coroutine stacks, the execution frame [agoraFuncVM] with its
    dispatch loop [run], and the line-oriented assembler [Compile].

    Go code that mutates a receiver through a pointer is written as a
    function from the old state to a result and the new state; a Go
    panic is a result of its own, so that the state a panic leaves
    behind (which the deferred teardown of [run] still reads and
    changes) stays observable. *)

From stdpp Require Import gmap strings list fin_maps.
From Stdlib Require Import ZArith Lia Ascii.

Local Open Scope Z_scope.

(** ** Results and the state-and-panic monad *)

(** A Go [error] value, as far as the machine tells them apart:
    [gocoro.ErrEndOfCoro] against every other error. *)
Inductive error :=
  | ErrEndOfCoro
  | ErrOther (msg : string).

(** What a Go [panic] carries. *)
Inductive Panic :=
  | RuntimeError (msg : string)                      (* index out of range, nil dereference *)
  | PanicMsg (msg : string)                          (* panic("...") *)
  | TypeError (actual field expected : string)       (* panic(NewTypeError(...)) *)
  | PanicErr (e : error).                            (* panic(e) *)

Inductive Res (A : Type) :=
  | Ok (a : A)
  | Panicked (p : Panic)
  | OutOfFuel.
Arguments Ok {A} a.
Arguments Panicked {A} p.
Arguments OutOfFuel {A}.

(** A computation over a mutable state [S]: the state survives a panic. *)
Definition M (S A : Type) : Type := S -> Res A * S.

Definition ret {S A} (a : A) : M S A := fun s => (Ok a, s).

Definition bind {S A B} (m : M S A) (k : A -> M S B) : M S B :=
  fun s =>
    match m s with
    | (Ok a, s') => k a s'
    | (Panicked p, s') => (Panicked p, s')
    | (OutOfFuel, s') => (OutOfFuel, s')
    end.

Definition panic {S A} (p : Panic) : M S A := fun s => (Panicked p, s).
Definition get {S} : M S S := fun s => (Ok s, s).
Definition put {S} (s : S) : M S unit := fun _ => (Ok tt, s).
Definition modify {S} (f : S -> S) : M S unit := fun s => (Ok tt, f s).

(** Run a computation on a component of the state. *)
Definition zoom {S T A} (proj : S -> T) (upd : T -> S -> S) (m : M T A) : M S A :=
  fun s => let '(r, t) := m (proj s) in (r, upd t s).

Declare Scope vm_scope.
Delimit Scope vm_scope with vm.
Notation "'do' x <- m ; k" := (bind m (fun x => k))
  (at level 10, x pattern, m at level 100, k at level 200) : vm_scope.
Notation "m ;; k" := (bind m (fun _ => k))
  (at level 100, k at level 200, right associativity) : vm_scope.
Local Open Scope vm_scope.

Definition index_panic {S A} : M S A := panic (RuntimeError "index out of range").
Definition nil_panic {S A} : M S A :=
  panic (RuntimeError "invalid memory address or nil pointer dereference").

(** ** Machine integers *)

(** [int] is 64 bits wide; [uint64(x)] and [int(x)] reinterpret the bits. *)
Definition to_uint64 (z : Z) : Z := z mod 2 ^ 64.
Definition to_int (z : Z) : Z := (z + 2 ^ 63) mod 2 ^ 64 - 2 ^ 63.

(** Slice indexing [s[i]]: a panic outside [0, len s). *)
Definition index {A} (l : list A) (i : Z) : option A :=
  if (0 <=? i) && (i <? Z.of_nat (length l)) then l !! Z.to_nat i else None.

(** Slice assignment [s[i] = x], in range. *)
Definition store {A} (l : list A) (i : Z) (x : A) : list A := <[Z.to_nat i := x]> l.

Definition in_range {A} (l : list A) (i : Z) : bool :=
  (0 <=? i) && (i <? Z.of_nat (length l)).

(** ** Value model *)

Definition loc := positive.     (* the address of an Object *)
Definition fid := positive.     (* the address of a function value *)

(** [Number] carries a float64 in Go.  The machine itself never computes
    on it (arithmetic and comparison belong to the injected strategies);
    it only converts slice indexes with [Number(i)], which is exact, so
    the payload is kept as the integer. *)
Inductive Val :=
  | VNil
  | VBool (b : bool)
  | VNumber (n : Z)
  | VString (s : string)
  | VObject (o : loc)
  | VFunc (fn : fid).

Global Instance Val_eq_dec : EqDecision Val.
Proof. solve_decision. Defined.

Definition Val_enc (v : Val) : unit + bool + Z + string + positive + positive :=
  match v with
  | VNil => inl (inl (inl (inl (inl tt))))
  | VBool b => inl (inl (inl (inl (inr b))))
  | VNumber n => inl (inl (inl (inr n)))
  | VString s => inl (inl (inr s))
  | VObject o => inl (inr o)
  | VFunc fn => inr fn
  end.

Definition Val_dec (x : unit + bool + Z + string + positive + positive) : Val :=
  match x with
  | inl (inl (inl (inl (inl _)))) => VNil
  | inl (inl (inl (inl (inr b)))) => VBool b
  | inl (inl (inl (inr n))) => VNumber n
  | inl (inl (inr s)) => VString s
  | inl (inr o) => VObject o
  | inr fn => VFunc fn
  end.

Global Instance Val_countable : Countable Val.
Proof. refine (inj_countable' Val_enc Val_dec _). intros []; reflexivity. Defined.

(** Modelled from the spec: [Type], the helper naming the variant of a
    value for a type-mismatch failure ("naming the actual vs. expected
    type"); the names are those of the variants of the Value Model. *)
Definition Type_ (v : Val) : string :=
  match v with
  | VNil => "nil"
  | VBool _ => "bool"
  | VNumber _ => "number"
  | VString _ => "string"
  | VObject _ => "object"
  | VFunc _ => "func"
  end.

(** Modelled from the spec: [Set1], "return it as the single result". *)
Definition Set1 (v : Val) : list Val := [v].

(** ** Operand stack *)

Record valStack := { st : list Val; sp : Z }.

(** [push]: append at [sp] when the backing slice is full, overwrite the
    slot otherwise, then advance [sp]. *)
Definition vs_push (v : Val) : M valStack unit :=
  fun vs =>
    if sp vs =? Z.of_nat (length (st vs)) then
      (Ok tt, {| st := st vs ++ [v]; sp := sp vs + 1 |})
    else if in_range (st vs) (sp vs) then
      (Ok tt, {| st := store (st vs) (sp vs) v; sp := sp vs + 1 |})
    else (Panicked (RuntimeError "index out of range"), vs).

(** [pop]: retreat [sp], read the slot, overwrite it with [Nil]. *)
Definition vs_pop : M valStack Val :=
  fun vs =>
    let sp' := sp vs - 1 in
    match index (st vs) sp' with
    | Some v => (Ok v, {| st := store (st vs) sp' VNil; sp := sp' |})
    | None => (Panicked (RuntimeError "index out of range"), {| st := st vs; sp := sp' |})
    end.

(** The values a stack holds, bottom first. *)
Definition live (vs : valStack) : list Val := take (Z.to_nat (sp vs)) (st vs).

(** The stack pointer lies within the backing slice. *)
Definition vs_wf (vs : valStack) : Prop := 0 <= sp vs <= Z.of_nat (length (st vs)).

(** Every slot from the stack pointer up holds [Nil]: the backing slice
    keeps no reference to a value that was popped. *)
Definition clean (vs : valStack) : Prop :=
  forall i, sp vs <= i < Z.of_nat (length (st vs)) -> index (st vs) i = Some VNil.

(** A stack in order: the pointer within the slice, nothing stale above it. *)
Definition tidy (vs : valStack) : Prop := vs_wf vs /\ clean vs.

(** ** Bookmark stack *)

Record bkmStack := { bst : list Z; bsp : Z }.

Definition bs_push (i : Z) : M bkmStack unit :=
  fun bs =>
    if bsp bs =? Z.of_nat (length (bst bs)) then
      (Ok tt, {| bst := bst bs ++ [i]; bsp := bsp bs + 1 |})
    else if in_range (bst bs) (bsp bs) then
      (Ok tt, {| bst := store (bst bs) (bsp bs) i; bsp := bsp bs + 1 |})
    else (Panicked (RuntimeError "index out of range"), bs).

(** The pointer of a bookmark stack lies within its slice. *)
Definition bs_wf (bs : bkmStack) : Prop := 0 <= bsp bs <= Z.of_nat (length (bst bs)).

Definition bs_pop : M bkmStack Z :=
  fun bs =>
    let sp' := bsp bs - 1 in
    match index (bst bs) sp' with
    | Some i => (Ok i, {| bst := bst bs; bsp := sp' |})
    | None => (Panicked (RuntimeError "index out of range"), {| bst := bst bs; bsp := sp' |})
    end.

(** ** Bytecode *)

Inductive Opcode :=
  | OP_RET | OP_YLD | OP_PUSH | OP_POP
  | OP_ADD | OP_SUB | OP_MUL | OP_DIV | OP_MOD | OP_NOT | OP_UNM
  | OP_EQ | OP_NEQ | OP_LT | OP_LTE | OP_GT | OP_GTE
  | OP_TEST | OP_JMP
  | OP_NEW | OP_SFLD | OP_GFLD | OP_CFLD | OP_CALL
  | OP_RNGS | OP_RNGP | OP_RNGE
  | OP_BKMS | OP_BKME
  | OP_DUMP
  | OP_unknown (n : Z).          (* any byte the dispatch loop has no case for *)

Inductive Flag :=
  | FLG_K | FLG_V | FLG_N | FLG_T | FLG_F | FLG_A
  | FLG_Jf
  | FLG_other (n : Z).           (* the flags [getVal] has no case for *)

Global Instance Flag_eq_dec : EqDecision Flag.
Proof. solve_decision. Defined.

(** A decoded instruction; [Index] is a uint64. *)
Record Instr := { i_op : Opcode; i_flg : Flag; i_ix : Z }.

Definition Index (i : Instr) : Z := to_uint64 (i_ix i).

(** ** Frames *)

Definition coro := positive.    (* the handle of a range-coroutine *)
Definition vmid := positive.    (* the address of a frame *)
Definition protoid := positive. (* the address of a prototype *)

(** Modelled from the spec: the range-coroutine stack, "a stack of live
    suspended-iterator handles, one per active loop"; the dispatch loop
    reads its fields [st] and [sp], laid out as in the two other stacks. *)
Record rangeStack := { rst : list coro; rsp : Z }.

(** The prototype: constants, local names, code, expected-argument
    count, stack-size hint, and the prototypes of its module
    ([proto.mod.fns]). *)
Record agoraFuncDef := {
  kTable : list Val;
  lTable : list string;
  code : list Instr;
  expArgs : Z;
  stackSz : Z;
  mod_fns : list protoid
}.

(** The frame.  [self] is the address of the frame, what the Go code
    writes when it stores the pointer [f]. *)
Record agoraFuncVM := {
  self : vmid;
  proto : agoraFuncDef;
  debug : bool;
  pc : Z;
  stk : valStack;
  rng : rangeStack;
  bkm : bkmStack;
  vars : gmap string Val;
  this : Val;
  args : Val
}.

Definition set_pc (x : Z) (f : agoraFuncVM) : agoraFuncVM :=
  {| self := self f; proto := proto f; debug := debug f; pc := x; stk := stk f;
     rng := rng f; bkm := bkm f; vars := vars f; this := this f; args := args f |}.
Definition set_stk (x : valStack) (f : agoraFuncVM) : agoraFuncVM :=
  {| self := self f; proto := proto f; debug := debug f; pc := pc f; stk := x;
     rng := rng f; bkm := bkm f; vars := vars f; this := this f; args := args f |}.
Definition set_rng (x : rangeStack) (f : agoraFuncVM) : agoraFuncVM :=
  {| self := self f; proto := proto f; debug := debug f; pc := pc f; stk := stk f;
     rng := x; bkm := bkm f; vars := vars f; this := this f; args := args f |}.
Definition set_bkm (x : bkmStack) (f : agoraFuncVM) : agoraFuncVM :=
  {| self := self f; proto := proto f; debug := debug f; pc := pc f; stk := stk f;
     rng := rng f; bkm := x; vars := vars f; this := this f; args := args f |}.
Definition set_vars (x : gmap string Val) (f : agoraFuncVM) : agoraFuncVM :=
  {| self := self f; proto := proto f; debug := debug f; pc := pc f; stk := stk f;
     rng := rng f; bkm := bkm f; vars := x; this := this f; args := args f |}.
Definition set_args (x : Val) (f : agoraFuncVM) : agoraFuncVM :=
  {| self := self f; proto := proto f; debug := debug f; pc := pc f; stk := stk f;
     rng := rng f; bkm := bkm f; vars := vars f; this := this f; args := x |}.

(** ** The world around a frame *)

(** What lives outside the frame: the field [coroState] of the function
    value [f.val], the Objects (shared by reference, so kept in a heap),
    and the state of the host (other frames, coroutines, globals). *)
Record World (H : Type) := {
  coroState : option vmid;
  heap : gmap loc (gmap Val Val);
  host : H
}.
Arguments coroState {H} w.
Arguments heap {H} w.
Arguments host {H} w.

Definition set_coroState {H} (x : option vmid) (w : World H) : World H :=
  {| coroState := x; heap := heap w; host := host w |}.
Definition set_heap {H} (x : gmap loc (gmap Val Val)) (w : World H) : World H :=
  {| coroState := coroState w; heap := x; host := host w |}.
Definition set_host {H} (x : H) (w : World H) : World H :=
  {| coroState := coroState w; heap := heap w; host := x |}.

(** A Go [interface{}] as [Resume] returns it: a [Val], a slice of
    interfaces (each one a [Val] or not), or something else (the nil
    interface included). *)
Inductive iface :=
  | I_val (v : Val)
  | I_slice (l : list (option Val))
  | I_other.

(** The services a frame calls and whose code lies outside the machine:
    the methods of values, the injected arithmetic and comparer, the
    scope chain of the context, calls, and the coroutine library.  Each
    may change the world but has no access to the stacks of the frame. *)
Class Host (H : Type) := {
  Val_String : Val -> string;
  Val_Bool : Val -> M (World H) bool;
  arith_Add : Val -> Val -> M (World H) Val;
  arith_Sub : Val -> Val -> M (World H) Val;
  arith_Mul : Val -> Val -> M (World H) Val;
  arith_Div : Val -> Val -> M (World H) Val;
  arith_Mod : Val -> Val -> M (World H) Val;
  arith_Unm : Val -> M (World H) Val;
  cmp_Cmp : Val -> Val -> M (World H) Z;
  (* ctx.getVar(nm, f): the value and whether the name was found *)
  ctx_getVar : string -> agoraFuncVM -> World H -> option Val;
  (* ctx.setVar(nm, v, f): the locals of f and the world after the write,
     or nothing when the name was found nowhere *)
  ctx_setVar : string -> Val -> agoraFuncVM -> World H -> option (gmap string Val * World H);
  ctx_dump : Z -> M (World H) unit;
  newAgoraFuncVal : protoid -> agoraFuncVM -> M (World H) Val;
  Func_Call : fid -> list Val -> M (World H) (list Val);
  Object_callMethod : loc -> Val -> list Val -> M (World H) (list Val);
  (* the coroutine a range loop starts over its seed arguments *)
  coro_New : list Val -> M (World H) coro;
  coro_Resume : coro -> M (World H) (iface * option error);
  coro_Release : coro -> H -> H
}.

(** The state [run] works on: the frame, the world, and the local
    variable [clearRange] that the deferred function reads. *)
Record State (H : Type) := {
  vm : agoraFuncVM;
  world : World H;
  clearRange : bool
}.
Arguments vm {H} s.
Arguments world {H} s.
Arguments clearRange {H} s.

Definition set_vm {H} (x : agoraFuncVM) (s : State H) : State H :=
  {| vm := x; world := world s; clearRange := clearRange s |}.
Definition set_world {H} (x : World H) (s : State H) : State H :=
  {| vm := vm s; world := x; clearRange := clearRange s |}.
Definition set_clearRange {H} (x : bool) (s : State H) : State H :=
  {| vm := vm s; world := world s; clearRange := x |}.

(** ** Objects *)

(** Modelled from the spec: [NewObject] and the Object contract
    "get(key), set(key, value)": an Object is a key-to-value mapping
    shared by reference; [Get] gives [Nil] for an absent key. *)
Definition NewObject {H} : M (World H) loc :=
  fun w => let o := fresh (dom (heap w)) in (Ok o, set_heap (<[o := ∅]> (heap w)) w).

Definition Object_Set {H} (o : loc) (k v : Val) : M (World H) unit :=
  fun w => (Ok tt, set_heap (<[o := <[k := v]> (default ∅ (heap w !! o))]> (heap w)) w).

Definition Object_Get {H} (o : loc) (k : Val) : M (World H) Val :=
  fun w => (Ok (default VNil (default ∅ (heap w !! o) !! k)), w).

(** ** The frame's operations *)

Section Machine.
Context {H : Type} `{!Host H}.

Definition on_vm {A} (m : M agoraFuncVM A) : M (State H) A := zoom vm set_vm m.
Definition on_world {A} (m : M (World H) A) : M (State H) A := zoom world set_world m.
Definition on_stk {A} (m : M valStack A) : M (State H) A := on_vm (zoom stk set_stk m).
Definition on_bkm {A} (m : M bkmStack A) : M (State H) A := on_vm (zoom bkm set_bkm m).

Definition push (v : Val) : M (State H) unit := on_stk (vs_push v).
Definition pop : M (State H) Val := on_stk vs_pop.

Definition get_vm : M (State H) agoraFuncVM := fun s => (Ok (vm s), s).

(** [s[i]] as a computation. *)
Definition at_index {S A} (l : list A) (i : Z) : M S A :=
  match index l i with
  | Some x => ret x
  | None => index_panic
  end.

(** *** Range-coroutine stack

    Modelled from the spec: "[push(args...)] starts a new lazy-iteration
    coroutine seeded with [args] and stores its handle", "[pop()]
    releases the most-recently-pushed handle", and [clear] releases
    every handle still live. *)
Definition rs_store (c : coro) : M rangeStack unit :=
  fun rs =>
    if rsp rs =? Z.of_nat (length (rst rs)) then
      (Ok tt, {| rst := rst rs ++ [c]; rsp := rsp rs + 1 |})
    else if in_range (rst rs) (rsp rs) then
      (Ok tt, {| rst := store (rst rs) (rsp rs) c; rsp := rsp rs + 1 |})
    else (Panicked (RuntimeError "index out of range"), rs).

Definition rng_push (args : list Val) : M (State H) unit :=
  do c <- on_world (coro_New args);
  on_vm (zoom rng set_rng (rs_store c)).

Definition rs_take : M rangeStack coro :=
  fun rs =>
    let sp' := rsp rs - 1 in
    match index (rst rs) sp' with
    | Some c => (Ok c, {| rst := rst rs; rsp := sp' |})
    | None => (Panicked (RuntimeError "index out of range"), {| rst := rst rs; rsp := sp' |})
    end.

Definition rng_pop : M (State H) unit :=
  do c <- on_vm (zoom rng set_rng rs_take);
  on_world (modify (fun w => set_host (coro_Release c (host w)) w)).

Fixpoint rng_clear_loop (n : nat) : M (State H) unit :=
  match n with
  | O => ret tt
  | S n' => rng_pop;; rng_clear_loop n'
  end.

(** [clear]: pop while [sp > 0]. *)
Definition rng_clear : M (State H) unit :=
  do f <- get_vm;
  rng_clear_loop (Z.to_nat (rsp (rng f))).

(** The handles a range stack holds, oldest first. *)
Definition live_handles (rs : rangeStack) : list coro := take (Z.to_nat (rsp rs)) (rst rs).

(** *** Operand resolution *)

(** [ctx.getVar(nm, f)], with the panic of the caller when the name is
    found nowhere. *)
Definition getVar (nm : string) : M (State H) Val :=
  fun s =>
    match ctx_getVar nm (vm s) (world s) with
    | Some v => (Ok v, s)
    | None => (Panicked (PanicMsg ("variable not found: " +:+ nm)), s)
    end.

(** [ctx.setVar(nm, v, f)], likewise. *)
Definition setVar (nm : string) (v : Val) : M (State H) unit :=
  fun s =>
    match ctx_setVar nm v (vm s) (world s) with
    | Some (vs, w) => (Ok tt, set_world w (set_vm (set_vars vs (vm s)) s))
    | None => (Panicked (PanicMsg ("unknown variable: " +:+ nm)), s)
    end.

Definition getVal (flg : Flag) (ix : Z) : M (State H) Val :=
  do f <- get_vm;
  match flg with
  | FLG_K => at_index (kTable (proto f)) ix
  | FLG_V =>
      do k <- at_index (kTable (proto f)) ix;
      getVar (Val_String k)
  | FLG_N => ret VNil
  | FLG_T => ret (this f)
  | FLG_F =>
      do p <- at_index (mod_fns (proto f)) ix;
      on_world (newAgoraFuncVal p f)
  | FLG_A => ret (args f)
  | _ => panic (PanicMsg "invalid flag value")
  end.

(** *** Arguments and locals *)

Fixpoint set_args_loop (o : loc) (i : Z) (args : list Val) : M (World H) unit :=
  match args with
  | [] => ret tt
  | v :: rest => Object_Set o (VNumber i) v;; set_args_loop o (i + 1) rest
  end.

(** [createArgsVal]: [Nil] without arguments, else a new Object with
    the arguments under the keys [Number(0)], [Number(1)], ... *)
Definition createArgsVal (args : list Val) : M (World H) Val :=
  match args with
  | [] => ret VNil
  | _ =>
      do o <- NewObject;
      set_args_loop o 0 args;;
      ret (VObject o)
  end.

(** [createLocals]: every name of the local table starts as [Nil]. *)
Definition createLocals : M (State H) unit :=
  on_vm (modify (fun f =>
    set_vars (foldl (fun m s => <[s := VNil]> m) (vars f) (lTable (proto f))) f)).

(** The loop over the expected arguments, [n] iterations from [j]. *)
Fixpoint bind_args (n : nat) (j : Z) (args : list Val) : M (State H) unit :=
  match n with
  | O => ret tt
  | S n' =>
      do f <- get_vm;
      do k <- at_index (kTable (proto f)) j;
      (if j <? Z.of_nat (length args) then
         do a <- at_index args j;
         on_vm (modify (fun f => set_vars (<[Val_String k := a]> (vars f)) f))
       else
         on_vm (modify (fun f => set_vars (<[Val_String k := VNil]> (vars f)) f)));;
      bind_args n' (j + 1) args
  end.

(** The part of [run] before the dispatch loop: a first run when the
    program counter is 0, a resume otherwise. *)
Definition enter (args : list Val) : M (State H) unit :=
  do f <- get_vm;
  if pc f =? 0 then
    createLocals;;
    bind_args (Z.to_nat (expArgs (proto f))) 0 args;;
    do a <- on_world (createArgsVal args);
    on_vm (modify (set_args a))
  else
    let a0 := match args with [] => VNil | a :: _ => a end in
    push a0.

(** *** Loops of the instructions *)

(** [args := make([]Val, ix)], then [args[j-1] = pop()] for [j] from
    [ix] down to 1. *)
Fixpoint pop_args_loop (j : nat) (args : list Val) : M (State H) (list Val) :=
  match j with
  | O => ret args
  | S j' => do v <- pop; pop_args_loop j' (<[j' := v]> args)
  end.

Definition pop_args (ix : Z) : M (State H) (list Val) :=
  if 2 ^ 63 <=? ix then panic (RuntimeError "makeslice: len out of range")
  else pop_args_loop (Z.to_nat ix) (replicate (Z.to_nat ix) VNil).

Fixpoint push_all (vals : list Val) : M (State H) unit :=
  match vals with
  | [] => ret tt
  | v :: rest => push v;; push_all rest
  end.

(** The loop of [OP_NEW]: [ix] times, pop a key, pop a value, set. *)
Fixpoint new_loop (j : nat) (ob : loc) : M (State H) unit :=
  match j with
  | O => ret tt
  | S j' =>
      do key <- pop;
      do val <- pop;
      on_world (Object_Set ob key val);;
      new_loop j' ob
  end.

(** The loop of [OP_RNGP] on a successful resume: for [j] from 0 to
    [ix - 1], push [vals[j].(Val)], or [Nil] past the end of [vals]. *)
Fixpoint rngp_loop (n : nat) (j : Z) (vals : list (option Val)) : M (State H) unit :=
  match n with
  | O => ret tt
  | S n' =>
      (if j <? Z.of_nat (length vals) then
         do x <- at_index vals j;
         match x with
         | Some v => push v
         | None => panic (RuntimeError "interface conversion: interface {} is not runtime.Val")
         end
       else push VNil);;
      rngp_loop n' (j + 1) vals
  end.

(** The loop of [OP_BKME]: with [got = uint64(sp - bkm)], push [Nil]
    while [got < ix], pop while [got > ix].  Every turn brings [got] one
    closer to [ix], so the distance between them bounds the turns. *)
Definition bkme_got (f : agoraFuncVM) (bkm : Z) : Z := to_uint64 (sp (stk f) - bkm).

Fixpoint bkme_loop (n : nat) (bkm ix : Z) : M (State H) unit :=
  do f <- get_vm;
  let got := bkme_got f bkm in
  if got =? ix then ret tt
  else
    match n with
    | O => fun s => (OutOfFuel, s)
    | S n' =>
        (if got <? ix then push VNil else do _ <- pop; ret tt);;
        bkme_loop n' bkm ix
    end.

Definition bkme (bkm ix : Z) : M (State H) unit :=
  do f <- get_vm;
  bkme_loop (Z.to_nat (Z.abs (bkme_got f bkm - ix))) bkm ix.

(** *** One instruction *)

Definition binary (op : Val -> Val -> M (World H) Val) : M (State H) unit :=
  do y <- pop;
  do x <- pop;
  do r <- on_world (op x y);
  push r.

Definition compare (rel : Z -> bool) : M (State H) unit :=
  do y <- pop;
  do x <- pop;
  do c <- on_world (cmp_Cmp x y);
  push (VBool (rel c)).

Definition add_pc (d : Z) : M (State H) unit :=
  on_vm (modify (fun f => set_pc (to_int (pc f + d)) f)).

(** The body of the [switch]; [Some vals] stands for [return vals]. *)
Definition exec (op : Opcode) (flg : Flag) (ix : Z) : M (State H) (option (list Val)) :=
  match op with
  | OP_RET =>
      on_world (modify (set_coroState None));;
      do v <- pop;
      ret (Some (Set1 v))
  | OP_YLD =>
      do f <- get_vm;
      on_world (modify (set_coroState (Some (self f))));;
      modify (set_clearRange false);;
      do v <- pop;
      ret (Some (Set1 v))
  | OP_PUSH =>
      do v <- getVal flg ix;
      push v;; ret None
  | OP_POP =>
      do f <- get_vm;
      do k <- at_index (kTable (proto f)) ix;
      let nm := Val_String k in
      do v <- pop;
      setVar nm v;;
      ret None
  | OP_ADD => binary arith_Add;; ret None
  | OP_SUB => binary arith_Sub;; ret None
  | OP_MUL => binary arith_Mul;; ret None
  | OP_DIV => binary arith_Div;; ret None
  | OP_MOD => binary arith_Mod;; ret None
  | OP_NOT =>
      do x <- pop;
      do b <- on_world (Val_Bool x);
      push (VBool (negb b));; ret None
  | OP_UNM =>
      do x <- pop;
      do r <- on_world (arith_Unm x);
      push r;; ret None
  | OP_EQ => compare (fun c => c =? 0);; ret None
  | OP_NEQ => compare (fun c => negb (c =? 0));; ret None
  | OP_LT => compare (fun c => c <? 0);; ret None
  | OP_LTE => compare (fun c => c <=? 0);; ret None
  | OP_GT => compare (fun c => c >? 0);; ret None
  | OP_GTE => compare (fun c => c >=? 0);; ret None
  | OP_TEST =>
      do x <- pop;
      do b <- on_world (Val_Bool x);
      (if b then ret tt else add_pc (to_int ix));;
      ret None
  | OP_JMP =>
      (if decide (flg = FLG_Jf) then add_pc (to_int ix)
       else add_pc (- to_int (to_int ix + 1)));;
      ret None
  | OP_NEW =>
      do ob <- on_world NewObject;
      new_loop (Z.to_nat ix) ob;;
      push (VObject ob);; ret None
  | OP_SFLD =>
      do vr <- pop;
      do k <- pop;
      do vl <- pop;
      match vr with
      | VObject ob => on_world (Object_Set ob k vl);; ret None
      | _ => panic (TypeError (Type_ vr) "" "object")
      end
  | OP_GFLD =>
      do vr <- pop;
      do k <- pop;
      match vr with
      | VObject ob =>
          do v <- on_world (Object_Get ob k);
          push v;; ret None
      | _ => panic (TypeError (Type_ vr) "" "object")
      end
  | OP_CFLD =>
      do vr <- pop;
      do k <- pop;
      do args <- pop_args ix;
      match vr with
      | VObject ob =>
          do vals <- on_world (Object_callMethod ob k args);
          push_all vals;; ret None
      | _ => panic (TypeError (Type_ vr) "" "object")
      end
  | OP_CALL =>
      do x <- pop;
      match x with
      | VFunc fn =>
          do args <- pop_args ix;
          do vals <- on_world (Func_Call fn args);
          push_all vals;; ret None
      | _ => panic (TypeError (Type_ x) "" "func")
      end
  | OP_RNGS =>
      do args <- pop_args ix;
      rng_push args;; ret None
  | OP_RNGP =>
      do f <- get_vm;
      do coro <- at_index (rst (rng f)) (rsp (rng f) - 1);
      do ve <- on_world (coro_Resume coro);
      let '(v, e) := ve in
      let vals :=
        match v with
        | I_slice sl => sl
        | I_val x => [Some x]
        | I_other => [None]
        end in
      match e with
      | None => rngp_loop (Z.to_nat ix) 0 vals
      | Some ErrEndOfCoro => ret tt
      | Some e => panic (PanicErr e)
      end;;
      push (VBool (match e with None => true | Some _ => false end));;
      ret None
  | OP_RNGE => rng_pop;; ret None
  | OP_BKMS =>
      do f <- get_vm;
      on_bkm (bs_push (sp (stk f)));; ret None
  | OP_BKME =>
      do b <- on_bkm bs_pop;
      bkme b ix;; ret None
  | OP_DUMP =>
      do f <- get_vm;
      (if debug f then on_world (ctx_dump (to_int ix)) else ret tt);;
      ret None
  | OP_unknown _ => panic (PanicMsg "unknown opcode")
  end.

(** One turn of the dispatch loop: fetch, decode, advance the program
    counter, execute.  The counter indexes [code], whose length fits an
    [int], so the increment cannot wrap. *)
Definition step : M (State H) (option (list Val)) :=
  do f <- get_vm;
  do i <- at_index (code (proto f)) (pc f);
  on_vm (modify (set_pc (pc f + 1)));;
  exec (i_op i) (i_flg i) (Index i).

(** The dispatch loop, for at most [fuel] instructions. *)
Fixpoint loop (fuel : nat) : M (State H) (list Val) :=
  match fuel with
  | O => fun s => (OutOfFuel, s)
  | S fuel' =>
      do r <- step;
      match r with
      | Some vals => ret vals
      | None => loop fuel'
      end
  end.

(** [run] up to the deferred function. *)
Definition run_body (fuel : nat) (args : list Val) : M (State H) (list Val) :=
  modify (set_clearRange true);;
  enter args;;
  loop fuel.

(** The deferred function, run when the body returns or panics; a panic
    of its own replaces the outcome of the body. *)
Definition teardown {A} (r : Res A) : M (State H) A :=
  fun s =>
    match r with
    | OutOfFuel => (OutOfFuel, s)
    | _ =>
        if clearRange s then
          match rng_clear s with
          | (Ok _, s') => (r, s')
          | (Panicked p, s') => (Panicked p, s')
          | (OutOfFuel, s') => (OutOfFuel, s')
          end
        else (r, s)
    end.

(** [run]: the frame [f] of the receiver and the world are in the state. *)
Definition run (fuel : nat) (args : list Val) : M (State H) (list Val) :=
  fun s => let '(r, s') := run_body fuel args s in teardown r s'.

(** *** Vocabulary of the statements *)

(** The states differ by the operand stack at most. *)
Definition stk_only (s s' : State H) : Prop :=
  s' = set_vm (set_stk (stk (vm s')) (vm s)) s.

(** The instruction before the program counter, the one just executed
    when the dispatch loop has stopped in RET or YLD, is an [op]. *)
Definition at_op (s : State H) (op : Opcode) : Prop :=
  exists i, index (code (proto (vm s))) (pc (vm s) - 1) = Some i /\ i_op i = op.

(** The pointer of a range stack does not pass the end of its slice. *)
Definition rs_ok (rs : rangeStack) : Prop := rsp rs <= Z.of_nat (length (rst rs)).


(** What no instruction but YLD changes: the flag [clearRange], the
    prototype and the address of the frame; a range stack in order stays
    in order. *)
Definition ctl (s s' : State H) : Prop :=
  clearRange s' = clearRange s /\ proto (vm s') = proto (vm s) /\
  self (vm s') = self (vm s) /\ (rs_ok (rng (vm s)) -> rs_ok (rng (vm s'))).

(** [spec Q m]: [m] respects [ctl], and a value it returns satisfies [Q]. *)
Definition spec {A} (Q : A -> Prop) (m : M (State H) A) : Prop :=
  forall s r s', m s = (r, s') -> ctl s s' /\ (forall a, r = Ok a -> Q a).

(** The value a fresh run binds to the parameter [j]. *)
Definition param_val (args : list Val) (j : Z) : Val :=
  if j <? Z.of_nat (length args) then default VNil (args !! Z.to_nat j) else VNil.

(** The content of the Object [args] of a run called with [args]. *)
Definition args_entry (args : list Val) (k : Val) : option Val :=
  match k with
  | VNumber i => if 0 <=? i then args !! Z.to_nat i else None
  | _ => None
  end.

(** How a turn of the dispatch loop, begun with [clearRange] set, can end. *)
Definition exit_ok (r : Res (list Val)) (s' : State H) : Prop :=
  match r with
  | Ok _ =>
      (at_op s' OP_RET /\ clearRange s' = true /\ coroState (world s') = None) \/
      (at_op s' OP_YLD /\ clearRange s' = false /\
       coroState (world s') = Some (self (vm s')) /\ vs_wf (stk (vm s')) /\ 1 <= pc (vm s'))
  | Panicked _ => clearRange s' = true \/ (at_op s' OP_YLD /\ clearRange s' = false)
  | OutOfFuel => True
  end.


(** The locals after the loop over the expected arguments, [n] turns
    from [j], over the constants [k]. *)
Fixpoint bound_vars (n : nat) (j : Z) (k : list Val) (argv : list Val)
    (m : gmap string Val) : gmap string Val :=
  match n with
  | O => m
  | S n' =>
      match index k j with
      | Some c => bound_vars n' (j + 1) k argv (<[Val_String c := param_val argv j]> m)
      | None => m
      end
  end.

(** The mapping of the Object [args] after the arguments [argv] are set
    under the keys [i], [i + 1], ... *)
Fixpoint args_map (i : Z) (argv : list Val) (m : gmap Val Val) : gmap Val Val :=
  match argv with
  | [] => m
  | v :: rest => args_map (i + 1) rest (<[VNumber i := v]> m)
  end.

(** [keeps m]: when [m] returns, it leaves the operand stack in order
    if it found it so. *)
Definition keeps {A} (m : M (State H) A) : Prop :=
  forall s r s', m s = (r, s') -> tidy (stk (vm s)) ->
                 forall a, r = Ok a -> tidy (stk (vm s')).

(** The strategy method behind each binary arithmetic opcode. *)
Definition arith_of (op : Opcode) : option (Val -> Val -> M (World H) Val) :=
  match op with
  | OP_ADD => Some arith_Add
  | OP_SUB => Some arith_Sub
  | OP_MUL => Some arith_Mul
  | OP_DIV => Some arith_Div
  | OP_MOD => Some arith_Mod
  | _ => None
  end.

(** What each comparison opcode asks of the result [c] of the comparer. *)
Definition rel_holds (op : Opcode) (c : Z) : Prop :=
  match op with
  | OP_EQ => c = 0
  | OP_NEQ => c <> 0
  | OP_LT => c < 0
  | OP_LTE => c <= 0
  | OP_GT => c > 0
  | OP_GTE => c >= 0
  | _ => False
  end.

Definition is_compare (op : Opcode) : bool :=
  match op with
  | OP_EQ | OP_NEQ | OP_LT | OP_LTE | OP_GT | OP_GTE => true
  | _ => false
  end.

(** A value of the [int] type. *)
Definition is_int (z : Z) : Prop := - 2 ^ 63 <= z < 2 ^ 63.

End Machine.

(** ** A small host, to run examples *)

Module Example.

(** The state of the host: the next coroutine handle and the handles
    released so far, latest first. *)
Definition H : Type := positive * list coro.

Definition num2 (f : Z -> Z -> Z) (x y : Val) : M (World H) Val :=
  match x, y with
  | VNumber a, VNumber b => ret (VNumber (f a b))
  | _, _ => panic (TypeError (Type_ x) "" "number")
  end.

(** Variables are the locals of the frame; a function returns the list
    of its arguments; a coroutine is exhausted from the start. *)
Global Instance example_host : Host H := {|
  Val_String v := match v with VString s => s | _ => "" end;
  Val_Bool v := ret (match v with VNil => false | VBool b => b | _ => true end);
  arith_Add := num2 Z.add;
  arith_Sub := num2 Z.sub;
  arith_Mul := num2 Z.mul;
  arith_Div := num2 Z.quot;
  arith_Mod := num2 Z.rem;
  arith_Unm x := num2 Z.sub (VNumber 0) x;
  cmp_Cmp x y :=
    match x, y with
    | VNumber a, VNumber b => ret (a - b)
    | _, _ => ret (if decide (x = y) then 0 else 1)
    end;
  ctx_getVar nm f w := vars f !! nm;
  ctx_setVar nm v f w :=
    match vars f !! nm with
    | Some _ => Some (<[nm := v]> (vars f), w)
    | None => None
    end;
  ctx_dump _ := ret tt;
  newAgoraFuncVal p f := ret (VFunc p);
  Func_Call fn args := ret args;
  Object_callMethod o k args := ret [];
  coro_New args := fun w => (Ok (fst (host w)), set_host (Pos.succ (fst (host w)), snd (host w)) w);
  coro_Resume c := ret (I_other, Some ErrEndOfCoro);
  coro_Release c h := (fst h, c :: snd h)
|}.

Definition world0 : World H := {| coroState := None; heap := ∅; host := (1%positive, []) |}.

Definition proto0 (k : list Val) (l : list string) (c : list Instr) (n : Z) : agoraFuncDef :=
  {| kTable := k; lTable := l; code := c; expArgs := n; stackSz := 2; mod_fns := [] |}.

(** A frame as [newFuncVM] makes it, at address 1. *)
Definition frame0 (p : agoraFuncDef) : agoraFuncVM :=
  {| self := 1%positive; proto := p; debug := false; pc := 0;
     stk := {| st := []; sp := 0 |};
     rng := {| rst := []; rsp := 0 |};
     bkm := {| bst := []; bsp := 0 |};
     vars := ∅; this := VNil; args := VNil |}.

Definition state0 (p : agoraFuncDef) : State H :=
  {| vm := frame0 p; world := world0; clearRange := true |}.

Definition ins (op : Opcode) (flg : Flag) (ix : Z) : Instr :=
  {| i_op := op; i_flg := flg; i_ix := ix |}.

(** A frame at rest on the operand stack [l]. *)
Definition on_stack (l : list Val) (s : State H) : State H :=
  set_vm (set_stk {| st := l; sp := Z.of_nat (length l) |} (vm s)) s.

(** A generator: push [Nil], yield it, then call what the resume gave. *)
Definition gen_prog : agoraFuncDef :=
  proto0 [] []
    [ins OP_PUSH FLG_N 0; ins OP_YLD (FLG_other 0) 0; ins OP_CALL (FLG_other 0) 0] 0.

(** The generator after its first run, suspended in its YLD. *)
Definition suspended : State H := snd (run 5 [] (state0 gen_prog)).

(** A function that returns [Nil]. *)
Definition ret_prog : agoraFuncDef :=
  proto0 [] [] [ins OP_PUSH FLG_N 0; ins OP_RET (FLG_other 0) 0] 0.

(** A function of the two parameters [x] and [y]. *)
Definition two_args : agoraFuncDef :=
  proto0 [VString "x"; VString "y"] ["x"; "y"]
    [ins OP_PUSH FLG_N 0; ins OP_RET (FLG_other 0) 0] 2.

(** A frame with the bookmark 1 and three values on the operand stack. *)
Definition bookmarked : State H :=
  set_vm (set_bkm {| bst := [1]; bsp := 1 |}
            (vm (on_stack [VNumber 1; VNumber 2; VNumber 3] (state0 ret_prog))))
         (on_stack [VNumber 1; VNumber 2; VNumber 3] (state0 ret_prog)).

(** A frame inside a range loop, over the coroutine 5. *)
Definition ranging : State H :=
  set_vm (set_rng {| rst := [5%positive]; rsp := 1 |} (vm (state0 ret_prog)))
         (state0 ret_prog).

(** The same host over coroutines that never end: every resume gives
    the pair (1, 2). *)
Definition pairs_host : Host H := {|
  Val_String := @Val_String H example_host;
  Val_Bool := @Val_Bool H example_host;
  arith_Add := @arith_Add H example_host;
  arith_Sub := @arith_Sub H example_host;
  arith_Mul := @arith_Mul H example_host;
  arith_Div := @arith_Div H example_host;
  arith_Mod := @arith_Mod H example_host;
  arith_Unm := @arith_Unm H example_host;
  cmp_Cmp := @cmp_Cmp H example_host;
  ctx_getVar := @ctx_getVar H example_host;
  ctx_setVar := @ctx_setVar H example_host;
  ctx_dump := @ctx_dump H example_host;
  newAgoraFuncVal := @newAgoraFuncVal H example_host;
  Func_Call := @Func_Call H example_host;
  Object_callMethod := @Object_callMethod H example_host;
  coro_New := @coro_New H example_host;
  coro_Resume c := ret (I_slice [Some (VNumber 1); Some (VNumber 2)], None);
  coro_Release := @coro_Release H example_host
|}.

(** A function of the parameter [x] and the local [t]. *)
Definition one_local : agoraFuncDef :=
  proto0 [VString "x"] ["x"; "t"] [ins OP_PUSH FLG_N 0; ins OP_RET (FLG_other 0) 0] 1.

(** A function that expects an argument and names none. *)
Definition no_names : agoraFuncDef :=
  proto0 [] [] [ins OP_PUSH FLG_N 0; ins OP_RET (FLG_other 0) 0] 1.

(** A forward jump over two instructions, and a backward jump to
    itself. *)
Definition jump_prog : agoraFuncDef :=
  proto0 [] [] [ins OP_JMP FLG_Jf 2] 0.

Definition spin_prog : agoraFuncDef :=
  proto0 [] [] [ins OP_JMP (FLG_other 1) 0] 0.

(** The frame of [two_args] after its prologue, run without arguments. *)
Definition entered : State H := snd (enter [] (state0 two_args)).

End Example.

(** ** The assembler *)

Module Asm.

(** *** Text helpers of the Go library, on ASCII input *)

Definition is_space (c : ascii) : bool :=
  let n := nat_of_ascii c in
  ((9 <=? n) && (n <=? 13))%nat || (n =? 32)%nat.

Fixpoint trim_left (s : string) : string :=
  match s with
  | String c s' => if is_space c then trim_left s' else s
  | EmptyString => EmptyString
  end.

(** [strings.TrimSpace] *)
Definition TrimSpace (s : string) : string :=
  String.rev (trim_left (String.rev (trim_left s))).

(** [strings.Fields]: the maximal runs without white space. *)
Fixpoint fields_go (s : string) (cur : string) : list string :=
  match s with
  | EmptyString => if String.eqb cur "" then [] else [String.rev cur]
  | String c s' =>
      if is_space c then
        (if String.eqb cur "" then fields_go s' "" else String.rev cur :: fields_go s' "")
      else fields_go s' (String c cur)
  end.
Definition Fields (s : string) : list string := fields_go s "".

Definition digit (c : ascii) : option Z :=
  let n := nat_of_ascii c in
  if ((48 <=? n) && (n <=? 57))%nat then Some (Z.of_nat n - 48) else None.

Fixpoint digits (s : string) (acc : Z) : option Z :=
  match s with
  | EmptyString => Some acc
  | String c s' =>
      match digit c with
      | Some d => digits s' (10 * acc + d)
      | None => None
      end
  end.

(** [strconv.ParseInt(s, 10, 64)] with the error dropped: 0 on a syntax
    error, the nearest bound on a range error. *)
Definition ParseInt (s : string) : Z :=
  let '(neg, body) :=
    match s with
    | String "-" s' => (true, s')
    | String "+" s' => (false, s')
    | _ => (false, s)
    end in
  match body with
  | EmptyString => 0
  | _ =>
      match digits body 0 with
      | Some n =>
          let v := if neg then - n else n in
          Z.max (- 2 ^ 63) (Z.min (2 ^ 63 - 1) v)
      | None => 0
      end
  end.

(** [strconv.Atoi], the error dropped. *)
Definition Atoi (s : string) : Z := ParseInt s.

(** *** Data *)

(** The constants the section [k] can hold.  A float keeps the text it
    is read from. *)
Inductive KVal :=
  | KInt (i : Z)
  | KFloat (text : string)
  | KString (s : string)
  | KBool (b : bool)
  | KNil.

(** An instruction as the section [i] gives it: the names of the opcode
    and of the flag (what [NewOpcode] and [NewFlag] receive), and the
    index, converted with [uint64(ix)]. *)
Record AInstr := { a_op : string; a_flg : option string; a_ix : Z }.

Record DebugInfo := { File : string; LineStart : Z; LineEnd : Z }.

Record GoblinFunc := {
  IsNative : bool;
  StackSz : Z;
  ExpArgs : Z;
  ExpVars : Z;
  Name : string;
  Dbg : DebugInfo;
  KTable : list KVal;
  Code : list AInstr
}.

(** A pointer to a prototype: nil, or an address in the store. *)
Definition ptr := option positive.

(** The handlers of the table [m], by their key. *)
Inductive Handler := H_f | H_k | H_i.

(** The table [m], as [Compile] fills it. *)
Definition m (key : string) : option Handler :=
  if String.eqb key "[f]" then Some H_f
  else if String.eqb key "[k]" then Some H_k
  else if String.eqb key "[i]" then Some H_i
  else None.

(** The state of [Compile]: the scanner (the lines not yet scanned and
    the current one), the prototypes allocated so far, and the list
    [Protos] under construction. *)
Record CState := {
  rest : list string;
  text : string;
  objs : gmap positive GoblinFunc;
  Protos : list ptr
}.

Definition set_scan (r : list string) (t : string) (s : CState) : CState :=
  {| rest := r; text := t; objs := objs s; Protos := Protos s |}.
Definition set_objs (o : gmap positive GoblinFunc) (s : CState) : CState :=
  {| rest := rest s; text := text s; objs := o; Protos := Protos s |}.
Definition set_Protos (l : list ptr) (s : CState) : CState :=
  {| rest := rest s; text := text s; objs := objs s; Protos := l |}.

(** [s.Scan()] *)
Definition Scan : M CState bool :=
  fun s =>
    match rest s with
    | [] => (Ok false, s)
    | l :: r => (Ok true, set_scan r l s)
    end.

(** [s.Text()] *)
Definition Text : M CState string := fun s => (Ok (text s), s).

(** Reading [*p]; a nil pointer panics. *)
Definition deref (p : ptr) : M CState GoblinFunc :=
  fun s =>
    match p with
    | Some a =>
        match objs s !! a with
        | Some g => (Ok g, s)
        | None => nil_panic s
        end
    | None => nil_panic s
    end.

(** Writing a field of [*p]; a nil pointer panics. *)
Definition update (p : ptr) (f : GoblinFunc -> GoblinFunc) : M CState unit :=
  do g <- deref p;
  match p with
  | Some a => modify (fun s => set_objs (<[a := f g]> (objs s)) s)
  | None => nil_panic
  end.

Definition set_IsNative (x : bool) (g : GoblinFunc) : GoblinFunc :=
  {| IsNative := x; StackSz := StackSz g; ExpArgs := ExpArgs g; ExpVars := ExpVars g;
     Name := Name g; Dbg := Dbg g; KTable := KTable g; Code := Code g |}.
Definition set_StackSz (x : Z) (g : GoblinFunc) : GoblinFunc :=
  {| IsNative := IsNative g; StackSz := x; ExpArgs := ExpArgs g; ExpVars := ExpVars g;
     Name := Name g; Dbg := Dbg g; KTable := KTable g; Code := Code g |}.
Definition set_ExpArgs (x : Z) (g : GoblinFunc) : GoblinFunc :=
  {| IsNative := IsNative g; StackSz := StackSz g; ExpArgs := x; ExpVars := ExpVars g;
     Name := Name g; Dbg := Dbg g; KTable := KTable g; Code := Code g |}.
Definition set_ExpVars (x : Z) (g : GoblinFunc) : GoblinFunc :=
  {| IsNative := IsNative g; StackSz := StackSz g; ExpArgs := ExpArgs g; ExpVars := x;
     Name := Name g; Dbg := Dbg g; KTable := KTable g; Code := Code g |}.
Definition set_Name (x : string) (g : GoblinFunc) : GoblinFunc :=
  {| IsNative := IsNative g; StackSz := StackSz g; ExpArgs := ExpArgs g; ExpVars := ExpVars g;
     Name := x; Dbg := Dbg g; KTable := KTable g; Code := Code g |}.
Definition set_Dbg (x : DebugInfo) (g : GoblinFunc) : GoblinFunc :=
  {| IsNative := IsNative g; StackSz := StackSz g; ExpArgs := ExpArgs g; ExpVars := ExpVars g;
     Name := Name g; Dbg := x; KTable := KTable g; Code := Code g |}.
Definition add_K (x : KVal) (g : GoblinFunc) : GoblinFunc :=
  {| IsNative := IsNative g; StackSz := StackSz g; ExpArgs := ExpArgs g; ExpVars := ExpVars g;
     Name := Name g; Dbg := Dbg g; KTable := KTable g ++ [x]; Code := Code g |}.
Definition add_Code (x : AInstr) (g : GoblinFunc) : GoblinFunc :=
  {| IsNative := IsNative g; StackSz := StackSz g; ExpArgs := ExpArgs g; ExpVars := ExpVars g;
     Name := Name g; Dbg := Dbg g; KTable := KTable g; Code := Code g ++ [x] |}.

(** [ctx.Protos = append(ctx.Protos, p)] *)
Definition add_proto (p : ptr) : M CState unit :=
  modify (fun s => set_Protos (Protos s ++ [p]) s).

(** One line of the section [k], not a header. *)
Definition k_line (p : ptr) (line : string) : M CState unit :=
  match line with
  | EmptyString => index_panic
  | String c body =>
      if Ascii.eqb c "i" then update p (add_K (KInt (ParseInt body)))
      else if Ascii.eqb c "f" then update p (add_K (KFloat body))
      else if Ascii.eqb c "s" then update p (add_K (KString body))
      else if Ascii.eqb c "b" then
        match body with
        | EmptyString => index_panic
        | String b _ => update p (add_K (KBool (Ascii.eqb b "1")))
        end
      else if Ascii.eqb c "n" then update p (add_K KNil)
      else panic (PanicMsg "invalid constant value type")
  end.

(** One line of the section [i], not a header. *)
Definition i_line (p : ptr) (line : string) : M CState unit :=
  match Fields line with
  | [] => index_panic
  | [op] => update p (add_Code {| a_op := op; a_flg := None; a_ix := 0 |})
  | [op; flg] => index_panic
  | op :: flg :: ix :: _ =>
      update p (add_Code {| a_op := op; a_flg := Some flg;
                            a_ix := to_uint64 (ParseInt ix) |})
  end.

(** The three handlers.  Each turn of a loop scans one line, so the
    number of lines bounds the depth of the calls; [fuel] counts it. *)
Fixpoint f_loop (fuel : nat) (p : ptr) (i : Z) : M CState unit :=
  match fuel with
  | O => fun s => (OutOfFuel, s)
  | S fuel' =>
      do more <- Scan;
      if more then
        do t <- Text;
        do i' <-
          (if i =? 0 then
             if String.eqb t "true" then update p (set_IsNative true);; ret 2
             else update p (set_StackSz (Atoi t));; ret i
           else if i =? 1 then update p (set_ExpArgs (Atoi t));; ret i
           else if i =? 2 then update p (set_ExpVars (Atoi t));; ret i
           else if i =? 3 then
             update p (set_Name t);;
             do g <- deref p;
             ret (if IsNative g then 1000 else i)
           else if i =? 4 then
             do g <- deref p;
             update p (set_Dbg {| File := t; LineStart := LineStart (Dbg g);
                                  LineEnd := LineEnd (Dbg g) |});; ret i
           else if i =? 5 then
             do g <- deref p;
             update p (set_Dbg {| File := File (Dbg g); LineStart := Atoi t;
                                  LineEnd := LineEnd (Dbg g) |});; ret i
           else if i =? 6 then
             do g <- deref p;
             update p (set_Dbg {| File := File (Dbg g); LineStart := LineStart (Dbg g);
                                  LineEnd := Atoi t |});; ret i
           else
             add_proto p;;
             match m t with
             | Some h => invoke fuel' h p;; ret i
             | None => nil_panic          (* calling the nil function m[s.Text()] *)
             end);
        f_loop fuel' p (to_int (i' + 1))
      else
        do g <- deref p;
        if IsNative g then add_proto p else ret tt
  end
with k_loop (fuel : nat) (p : ptr) : M CState unit :=
  match fuel with
  | O => fun s => (OutOfFuel, s)
  | S fuel' =>
      do more <- Scan;
      if more then
        do t <- Text;
        match m (TrimSpace t) with
        | Some h => invoke fuel' h p
        | None => k_line p t;; k_loop fuel' p
        end
      else panic (PanicMsg "missing instructions section [i]")
  end
with i_loop (fuel : nat) (p : ptr) : M CState unit :=
  match fuel with
  | O => fun s => (OutOfFuel, s)
  | S fuel' =>
      do more <- Scan;
      if more then
        do t <- Text;
        let line := TrimSpace t in
        match m line with
        | Some h => invoke fuel' h p
        | None => i_line p line;; i_loop fuel' p
        end
      else ret tt
  end
with invoke (fuel : nat) (h : Handler) (p : ptr) : M CState unit :=
  match fuel with
  | O => fun s => (OutOfFuel, s)
  | S fuel' =>
      match h with
      | H_f => f_loop fuel' None 0       (* var p *GoblinFunc: nil, whatever is passed *)
      | H_k => k_loop fuel' p
      | H_i => i_loop fuel' p
      end
  end.

(** The loop at the end of [Compile]. *)
Fixpoint top_loop (fuel : nat) : M CState unit :=
  match fuel with
  | O => fun s => (OutOfFuel, s)
  | S fuel' =>
      do more <- Scan;
      if more then
        do t <- Text;
        match m (TrimSpace t) with
        | Some h => invoke fuel' h None
        | None => ret tt
        end;;
        top_loop fuel'
      else ret tt
  end.

(** [Compile] on the lines of the reader: the prototypes it returns. *)
Definition Compile (lines : list string) : Res (list GoblinFunc) :=
  let s0 := {| rest := lines; text := ""; objs := ∅; Protos := [] |} in
  match top_loop (2 * length lines + 2) s0 with
  | (Ok _, s) =>
      Ok (omap (fun p : ptr => match p with Some a => objs s !! a | None => None end) (Protos s))
  | (Panicked e, _) => Panicked e
  | (OutOfFuel, _) => OutOfFuel
  end.

End Asm.

(** ** Facts about the operand stack *)

Lemma index_Some {A} (l : list A) i x :
  index l i = Some x <-> 0 <= i < Z.of_nat (length l) /\ l !! Z.to_nat i = Some x.
Proof.
  unfold index. destruct (0 <=? i) eqn:H0; destruct (i <? Z.of_nat (length l)) eqn:H1; simpl;
    try apply Z.leb_le in H0; try apply Z.ltb_lt in H1;
    try apply Z.leb_gt in H0; try apply Z.ltb_ge in H1; split; try tauto; intros; try lia.
  all: try discriminate.
Qed.

Lemma index_in_range {A} (l : list A) i :
  0 <= i < Z.of_nat (length l) -> exists x, index l i = Some x.
Proof.
  intros Hi. destruct (lookup_lt_is_Some_2 l (Z.to_nat i)) as [x Hx]; [lia|].
  exists x. apply index_Some. auto.
Qed.

Lemma vs_push_ok vs v :
  vs_wf vs ->
  exists vs', vs_push v vs = (Ok tt, vs') /\ live vs' = live vs ++ [v] /\
              vs_wf vs' /\ sp vs' = sp vs + 1.
Proof.
  unfold vs_wf, vs_push, live. intros Hwf.
  destruct (sp vs =? Z.of_nat (length (st vs))) eqn:E.
  - apply Z.eqb_eq in E. eexists. split; [reflexivity|]. simpl.
    rewrite length_app. simpl. repeat split; try lia.
    rewrite !take_ge by (rewrite ?length_app; simpl; lia). reflexivity.
  - apply Z.eqb_neq in E. unfold in_range.
    destruct (0 <=? sp vs) eqn:E0; [|apply Z.leb_gt in E0; lia].
    destruct (sp vs <? Z.of_nat (length (st vs))) eqn:E1; [|apply Z.ltb_ge in E1; lia].
    simpl. eexists. split; [reflexivity|]. simpl. unfold store.
    rewrite length_insert. repeat split; try lia.
    replace (Z.to_nat (sp vs + 1)) with (S (Z.to_nat (sp vs))) by lia.
    erewrite take_S_r by (apply list_lookup_insert_eq; lia).
    rewrite take_insert_ge by lia. reflexivity.
Qed.

Lemma vs_pop_ok vs l v :
  vs_wf vs -> live vs = l ++ [v] ->
  exists vs', vs_pop vs = (Ok v, vs') /\ live vs' = l /\ vs_wf vs' /\ sp vs' = sp vs - 1.
Proof.
  unfold vs_wf, vs_pop, live. intros Hwf Hl.
  assert (Hlen : Z.to_nat (sp vs) = S (length l)).
  { apply (f_equal length) in Hl. rewrite length_take, length_app in Hl. simpl in Hl. lia. }
  assert (Hv : st vs !! Z.to_nat (sp vs - 1) = Some v).
  { replace (Z.to_nat (sp vs - 1)) with (length l) by lia.
    rewrite <- (lookup_take_lt (st vs) (Z.to_nat (sp vs))) by lia.
    rewrite Hl. rewrite lookup_app_r by lia. rewrite Nat.sub_diag. reflexivity. }
  assert (Hi : index (st vs) (sp vs - 1) = Some v) by (apply index_Some; split; [lia|exact Hv]).
  rewrite Hi. eexists. split; [reflexivity|]. simpl. unfold store.
  rewrite length_insert. repeat split; try lia.
  rewrite take_insert_ge by lia.
  replace (Z.to_nat (sp vs - 1)) with (length l) by lia.
  rewrite <- (take_app_length l [v]) at 2. rewrite <- Hl, take_take.
  f_equal. lia.
Qed.

Lemma vs_pop_Ok_wf vs v vs' :
  vs_pop vs = (Ok v, vs') -> vs_wf vs' /\ sp vs' = sp vs - 1.
Proof.
  unfold vs_pop, vs_wf. destruct (index (st vs) (sp vs - 1)) eqn:E; [|discriminate].
  intros Heq. inversion Heq; subst. simpl. apply index_Some in E as [E _].
  unfold store. rewrite length_insert. lia.
Qed.

(** C8: on a stack holding at least one value, [pop] moves the stack
    pointer back by one, returns the value that was stored in the slot
    the pointer now designates, and leaves [Nil] in that slot; the
    backing slice keeps its length and every other slot its value. *)
Theorem pop_clears_slot (vs : valStack) :
  1 <= sp vs <= Z.of_nat (length (st vs)) ->
  exists v vs',
    vs_pop vs = (Ok v, vs') /\
    sp vs' = sp vs - 1 /\
    index (st vs) (sp vs - 1) = Some v /\
    index (st vs') (sp vs - 1) = Some VNil /\
    length (st vs') = length (st vs) /\
    (forall i, i <> sp vs - 1 -> index (st vs') i = index (st vs) i) /\
    live vs = live vs' ++ [v].
Proof.
  intros Hsp. destruct (index_in_range (st vs) (sp vs - 1)) as [v Hv]; [lia|].
  exists v, {| st := store (st vs) (sp vs - 1) VNil; sp := sp vs - 1 |}.
  unfold vs_pop. rewrite Hv. simpl.
  apply index_Some in Hv as [Hr Hl].
  repeat split; try lia.
  - apply index_Some. unfold store. rewrite length_insert. split; [lia|].
    apply list_lookup_insert_eq. lia.
  - unfold store. apply length_insert.
  - intros i Hi. unfold index, store. rewrite length_insert.
    destruct ((0 <=? i) && (i <? Z.of_nat (length (st vs)))) eqn:E; [|reflexivity].
    apply andb_true_iff in E as [E0 E1]. apply Z.leb_le in E0.
    apply list_lookup_insert_ne. lia.
  - unfold live, store. simpl.
    replace (Z.to_nat (sp vs)) with (S (Z.to_nat (sp vs - 1))) by lia.
    erewrite take_S_r by exact Hl. f_equal.
    rewrite take_insert_ge by lia. reflexivity.
Qed.


(** ** Facts about the frame's operations *)

Lemma vs_pop_top vs :
  vs_wf vs -> 1 <= sp vs ->
  exists v vs', vs_pop vs = (Ok v, vs') /\ live vs = live vs' ++ [v] /\
                vs_wf vs' /\ sp vs' = sp vs - 1.
Proof.
  unfold vs_wf. intros Hwf H1.
  destruct (index_in_range (st vs) (sp vs - 1)) as [v Hv]; [lia|].
  exists v. unfold vs_pop. rewrite Hv. eexists. split; [reflexivity|].
  apply index_Some in Hv as [Hr Hl]. unfold live, store. simpl.
  rewrite length_insert. repeat split; try lia.
  replace (Z.to_nat (sp vs)) with (S (Z.to_nat (sp vs - 1))) by lia.
  erewrite take_S_r by exact Hl. rewrite take_insert_ge by lia. reflexivity.
Qed.

Section MachineFacts.
Context {H : Type} `{!Host H}.

Lemma stk_only_refl (s : State H) : stk_only s s.
Proof. unfold stk_only. destruct s as [[] ? ?]. reflexivity. Qed.

Lemma stk_only_trans (s1 s2 s3 : State H) : stk_only s1 s2 -> stk_only s2 s3 -> stk_only s1 s3.
Proof. unfold stk_only. intros H12 H23. rewrite H23 at 1. rewrite H12. reflexivity. Qed.

Lemma stk_only_set (s : State H) vs : stk_only s (set_vm (set_stk vs (vm s)) s).
Proof. reflexivity. Qed.

Lemma push_ok (s : State H) v :
  vs_wf (stk (vm s)) ->
  exists s', push v s = (Ok tt, s') /\ stk_only s s' /\
             live (stk (vm s')) = live (stk (vm s)) ++ [v] /\
             vs_wf (stk (vm s')) /\ sp (stk (vm s')) = sp (stk (vm s)) + 1.
Proof.
  intros Hwf. destruct (vs_push_ok _ v Hwf) as (vs' & Hp & Hl & Hw & Hs).
  exists (set_vm (set_stk vs' (vm s)) s).
  unfold push, on_stk, on_vm, zoom. rewrite Hp. simpl. auto using stk_only_set.
Qed.

Lemma pop_ok (s : State H) l v :
  vs_wf (stk (vm s)) -> live (stk (vm s)) = l ++ [v] ->
  exists s', pop s = (Ok v, s') /\ stk_only s s' /\
             live (stk (vm s')) = l /\
             vs_wf (stk (vm s')) /\ sp (stk (vm s')) = sp (stk (vm s)) - 1.
Proof.
  intros Hwf Hl. destruct (vs_pop_ok _ l v Hwf Hl) as (vs' & Hp & Hl' & Hw & Hs).
  exists (set_vm (set_stk vs' (vm s)) s).
  unfold pop, on_stk, on_vm, zoom. rewrite Hp. simpl. auto using stk_only_set.
Qed.

Lemma pop_top (s : State H) :
  vs_wf (stk (vm s)) -> 1 <= sp (stk (vm s)) ->
  exists v s', pop s = (Ok v, s') /\ stk_only s s' /\
               live (stk (vm s)) = live (stk (vm s')) ++ [v] /\
               vs_wf (stk (vm s')) /\ sp (stk (vm s')) = sp (stk (vm s)) - 1.
Proof.
  intros Hwf H1. destruct (vs_pop_top _ Hwf H1) as (v & vs' & Hp & Hl' & Hw & Hs).
  exists v, (set_vm (set_stk vs' (vm s)) s).
  unfold pop, on_stk, on_vm, zoom. rewrite Hp. simpl. auto using stk_only_set.
Qed.

(** *** The loop of BKME *)

Lemma to_uint64_small z : 0 <= z < 2 ^ 64 -> to_uint64 z = z.
Proof. intros. unfold to_uint64. apply Z.mod_small. lia. Qed.

Lemma bkme_loop_push n : forall (s : State H) b ix,
  vs_wf (stk (vm s)) -> 0 <= sp (stk (vm s)) - b ->
  sp (stk (vm s)) - b + Z.of_nat n = ix -> ix < 2 ^ 64 ->
  exists s', bkme_loop n b ix s = (Ok tt, s') /\ stk_only s s' /\
             live (stk (vm s')) = live (stk (vm s)) ++ replicate n VNil /\
             vs_wf (stk (vm s')) /\ sp (stk (vm s')) = b + ix.
Proof.
  induction n as [|n IH]; intros s b ix Hwf Hb Hix Hlt.
  - exists s. simpl. unfold bind, get_vm, bkme_got.
    rewrite to_uint64_small by lia.
    replace (sp (stk (vm s)) - b =? ix) with true by (symmetry; apply Z.eqb_eq; lia).
    rewrite app_nil_r. split; [reflexivity|]. split; [apply stk_only_refl|].
    split; [reflexivity|]. split; [exact Hwf|lia].
  - simpl. unfold bind at 1, get_vm at 1, bkme_got.
    rewrite to_uint64_small by lia.
    replace (sp (stk (vm s)) - b =? ix) with false by (symmetry; apply Z.eqb_neq; lia).
    replace (sp (stk (vm s)) - b <? ix) with true by (symmetry; apply Z.ltb_lt; lia).
    destruct (push_ok s VNil Hwf) as (s1 & Hp & Ho & Hl & Hw & Hs).
    unfold bind at 1. rewrite Hp.
    destruct (IH s1 b ix) as (s' & Hr & Ho' & Hl' & Hw' & Hs'); try lia; auto.
    exists s'. split; [exact Hr|]. split; [eauto using stk_only_trans|].
    rewrite Hl', Hl. rewrite <- app_assoc. auto.
Qed.

Lemma bkme_loop_pop n : forall (s : State H) b ix,
  vs_wf (stk (vm s)) -> 0 <= b -> 0 <= ix ->
  sp (stk (vm s)) - b - Z.of_nat n = ix -> sp (stk (vm s)) - b < 2 ^ 64 ->
  exists s', bkme_loop n b ix s = (Ok tt, s') /\ stk_only s s' /\
             live (stk (vm s')) = take (Z.to_nat (b + ix)) (live (stk (vm s))) /\
             vs_wf (stk (vm s')) /\ sp (stk (vm s')) = b + ix.
Proof.
  induction n as [|n IH]; intros s b ix Hwf Hb Hix Heq Hlt.
  - exists s. simpl. unfold bind, get_vm, bkme_got.
    rewrite to_uint64_small by lia.
    replace (sp (stk (vm s)) - b =? ix) with true by (symmetry; apply Z.eqb_eq; lia).
    split; [reflexivity|]. split; [apply stk_only_refl|].
    split; [|split; [exact Hwf|lia]].
    unfold live. rewrite take_take. f_equal. lia.
  - simpl. unfold bind at 1, get_vm at 1, bkme_got.
    rewrite to_uint64_small by lia.
    replace (sp (stk (vm s)) - b =? ix) with false by (symmetry; apply Z.eqb_neq; lia).
    replace (sp (stk (vm s)) - b <? ix) with false by (symmetry; apply Z.ltb_ge; lia).
    destruct (pop_top s Hwf) as (v & s1 & Hp & Ho & Hl & Hw & Hs); [lia|].
    unfold bind at 1. unfold bind at 1. rewrite Hp. unfold ret at 1.
    destruct (IH s1 b ix) as (s' & Hr & Ho' & Hl' & Hw' & Hs'); try lia; auto.
    exists s'. split; [exact Hr|]. split; [eauto using stk_only_trans|].
    rewrite Hl', Hl. split; [|auto].
    rewrite take_app_le; [reflexivity|].
    unfold live. rewrite length_take. unfold vs_wf in Hw. lia.
Qed.

(** C3: with the bookmark [b] on top of the bookmark stack and the
    operand stack at a depth of at least [b], BKME leaves the operand
    stack at exactly [b + ix] values: the values already there, cut at
    [b + ix] when there were more and followed by [Nil]s when there were
    fewer.  Nothing else of the frame changes but the bookmark popped. *)
Theorem bkme_exact flg ix (s : State H) b :
  0 <= ix < 2 ^ 64 ->
  index (bst (bkm (vm s))) (bsp (bkm (vm s)) - 1) = Some b ->
  0 <= b <= sp (stk (vm s)) ->
  vs_wf (stk (vm s)) ->
  sp (stk (vm s)) < 2 ^ 63 ->
  exists s',
    exec OP_BKME flg ix s = (Ok None, s') /\
    sp (stk (vm s')) = b + ix /\
    live (stk (vm s')) =
      take (Z.to_nat (b + ix))
           (live (stk (vm s)) ++ replicate (Z.to_nat (b + ix - sp (stk (vm s)))) VNil) /\
    vs_wf (stk (vm s')) /\
    bsp (bkm (vm s')) = bsp (bkm (vm s)) - 1 /\
    world s' = world s /\ vars (vm s') = vars (vm s) /\ pc (vm s') = pc (vm s) /\
    rng (vm s') = rng (vm s).
Proof.
  intros Hix Htop Hb Hwf Hint.
  set (s1 := set_vm (set_bkm {| bst := bst (bkm (vm s)); bsp := bsp (bkm (vm s)) - 1 |}
                             (vm s)) s).
  assert (Hpop : on_bkm bs_pop s = (Ok b, s1)).
  { unfold on_bkm, on_vm, zoom, bs_pop. simpl. rewrite Htop. reflexivity. }
  assert (Hlen : length (live (stk (vm s))) = Z.to_nat (sp (stk (vm s)))).
  { unfold live. rewrite length_take. unfold vs_wf in Hwf. lia. }
  unfold exec. unfold bind at 1. rewrite Hpop.
  unfold bind at 1. unfold bkme. unfold bind at 1, get_vm at 1.
  unfold bkme_got. change (stk (vm s1)) with (stk (vm s)).
  rewrite to_uint64_small by lia.
  destruct (Z_le_gt_dec (sp (stk (vm s)) - b) ix) as [Hle|Hgt].
  - destruct (bkme_loop_push (Z.to_nat (Z.abs (sp (stk (vm s)) - b - ix))) s1 b ix)
      as (s' & Hr & Ho & Hl & Hw & Hs); simpl; try lia; auto.
    rewrite Hr. exists s'. split; [reflexivity|]. split; [exact Hs|].
    split.
    + rewrite Hl. simpl.
      replace (Z.to_nat (Z.abs (sp (stk (vm s)) - b - ix)))
        with (Z.to_nat (b + ix - sp (stk (vm s)))) by lia.
      rewrite take_ge; [reflexivity|].
      rewrite length_app, length_replicate, Hlen. lia.
    + split; [exact Hw|]. rewrite Ho. simpl. repeat split.
  - destruct (bkme_loop_pop (Z.to_nat (Z.abs (sp (stk (vm s)) - b - ix))) s1 b ix)
      as (s' & Hr & Ho & Hl & Hw & Hs); simpl; try lia; auto.
    rewrite Hr. exists s'. split; [reflexivity|]. split; [exact Hs|].
    split.
    + rewrite Hl. simpl.
      replace (Z.to_nat (b + ix - sp (stk (vm s)))) with O by lia.
      simpl. rewrite app_nil_r. reflexivity.
    + split; [exact Hw|]. rewrite Ho. simpl. repeat split.
Qed.

End MachineFacts.


(** ** What the instructions leave alone *)

Section Control.
Context {H : Type} `{!Host H}.

Lemma ctl_refl (s : State H) : ctl s s.
Proof. unfold ctl. auto. Qed.

Lemma ctl_trans (s1 s2 s3 : State H) : ctl s1 s2 -> ctl s2 s3 -> ctl s1 s3.
Proof. unfold ctl. intros (?&?&?&?) (?&?&?&?). repeat split; try congruence. auto. Qed.

Lemma spec_ret {A} (Q : A -> Prop) a : Q a -> spec (H:=H) Q (ret a).
Proof.
  intros HQ s r s' Heq. inversion Heq; subst. split; [apply ctl_refl|].
  intros ? [= <-]. exact HQ.
Qed.

Lemma spec_panic {A} (Q : A -> Prop) p : spec (H:=H) Q (panic p).
Proof.
  intros s r s' Heq. inversion Heq; subst. split; [apply ctl_refl|]. discriminate.
Qed.

Lemma spec_fuel {A} (Q : A -> Prop) : spec (H:=H) Q (fun s => (OutOfFuel, s)).
Proof.
  intros s r s' Heq. inversion Heq; subst. split; [apply ctl_refl|]. discriminate.
Qed.

Lemma spec_bind {A B} (Q : B -> Prop) (m : M (State H) A) (k : A -> M (State H) B) :
  spec (fun _ => True) m -> (forall a, spec Q (k a)) -> spec Q (bind m k).
Proof.
  intros Hm Hk s r s' Heq. unfold bind in Heq.
  destruct (m s) as [[a|p|] s1] eqn:Em.
  - destruct (Hm _ _ _ Em) as [Hc _]. destruct (Hk a _ _ _ Heq) as [Hc' HQ].
    split; [eauto using ctl_trans|exact HQ].
  - inversion Heq; subst. destruct (Hm _ _ _ Em) as [Hc _]. split; [exact Hc|discriminate].
  - inversion Heq; subst. destruct (Hm _ _ _ Em) as [Hc _]. split; [exact Hc|discriminate].
Qed.

Lemma spec_True {A} (Q : A -> Prop) (m : M (State H) A) :
  spec Q m -> spec (fun _ => True) m.
Proof. intros Hm s r s' Heq. destruct (Hm _ _ _ Heq). split; auto. Qed.

Lemma spec_get_vm : spec (H:=H) (fun _ => True) get_vm.
Proof. intros s r s' Heq. inversion Heq; subst. split; [apply ctl_refl|auto]. Qed.

Lemma spec_at_index {A} (l : list A) i : spec (H:=H) (fun _ => True) (at_index l i).
Proof.
  unfold at_index. destruct (index l i); [apply spec_ret; exact I|apply spec_panic].
Qed.

Lemma spec_on_stk {A} (m : M valStack A) : spec (H:=H) (fun _ => True) (on_stk m).
Proof.
  intros s r s' Heq. unfold on_stk, on_vm, zoom in Heq.
  destruct (m (stk (vm s))) as [r0 t]. inversion Heq; subst.
  split; [|auto]. unfold ctl. simpl. auto.
Qed.

Lemma spec_on_bkm {A} (m : M bkmStack A) : spec (H:=H) (fun _ => True) (on_bkm m).
Proof.
  intros s r s' Heq. unfold on_bkm, on_vm, zoom in Heq.
  destruct (m (bkm (vm s))) as [r0 t]. inversion Heq; subst.
  split; [|auto]. unfold ctl. simpl. auto.
Qed.

Lemma spec_on_world {A} (m : M (World H) A) : spec (fun _ => True) (on_world m).
Proof.
  intros s r s' Heq. unfold on_world, zoom in Heq.
  destruct (m (world s)) as [r0 t]. inversion Heq; subst.
  split; [|auto]. unfold ctl. simpl. auto.
Qed.

Lemma spec_on_vm_modify (f : agoraFuncVM -> agoraFuncVM) :
  (forall v, proto (f v) = proto v /\ self (f v) = self v /\ rng (f v) = rng v) ->
  spec (H:=H) (fun _ => True) (on_vm (modify f)).
Proof.
  intros Hf s r s' Heq. unfold on_vm, zoom, modify in Heq. inversion Heq; subst.
  destruct (Hf (vm s)) as (?&?&Hr). split; [|auto]. unfold ctl. simpl.
  rewrite Hr. auto.
Qed.

Lemma spec_push v : spec (H:=H) (fun _ => True) (push v).
Proof. apply spec_on_stk. Qed.

Lemma spec_pop : spec (H:=H) (fun _ => True) pop.
Proof. apply spec_on_stk. Qed.

Lemma spec_add_pc d : spec (H:=H) (fun _ => True) (add_pc d).
Proof. apply spec_on_vm_modify. intros v. simpl. auto. Qed.

Lemma spec_getVar nm : spec (H:=H) (fun _ => True) (getVar nm).
Proof.
  intros s r s' Heq. unfold getVar in Heq.
  destruct (ctx_getVar nm (vm s) (world s)); inversion Heq; subst;
    (split; [apply ctl_refl|auto]).
Qed.

Lemma spec_setVar nm v : spec (H:=H) (fun _ => True) (setVar nm v).
Proof.
  intros s r s' Heq. unfold setVar in Heq.
  destruct (ctx_setVar nm v (vm s) (world s)) as [[vs w]|]; inversion Heq; subst.
  - split; [|auto]. unfold ctl. simpl. auto.
  - split; [apply ctl_refl|auto].
Qed.

Lemma rs_store_ok c rs r rs' : rs_store c rs = (r, rs') -> rs_ok rs -> rs_ok rs'.
Proof.
  unfold rs_store, rs_ok.
  destruct (rsp rs =? Z.of_nat (length (rst rs))) eqn:E.
  - intros [= <- <-] _. simpl. rewrite length_app. simpl. apply Z.eqb_eq in E. lia.
  - unfold in_range. destruct (0 <=? rsp rs) eqn:E0; simpl;
      [destruct (rsp rs <? Z.of_nat (length (rst rs))) eqn:E1|]; intros [= <- <-] Hok; auto.
    simpl. unfold store. rewrite length_insert. apply Z.ltb_lt in E1. lia.
Qed.

Lemma spec_rng_push args : spec (H:=H) (fun _ => True) (rng_push args).
Proof.
  unfold rng_push. apply spec_bind; [apply spec_on_world|]. intros c.
  intros s r s' Heq. unfold on_vm, zoom in Heq.
  destruct (rs_store c (rng (vm s))) as [r0 t] eqn:E. inversion Heq; subst.
  split; [|auto]. unfold ctl. simpl. repeat split. eauto using rs_store_ok.
Qed.

Lemma spec_on_rng {A} (m : M rangeStack A) :
  (forall rs r rs', m rs = (r, rs') -> rs_ok rs -> rs_ok rs') ->
  spec (H:=H) (fun _ => True) (on_vm (zoom rng set_rng m)).
Proof.
  intros Hm s r s' Heq. unfold on_vm, zoom in Heq.
  destruct (m (rng (vm s))) as [r0 t] eqn:E. inversion Heq; subst.
  split; [|auto]. unfold ctl. simpl. repeat split. eauto.
Qed.

Lemma rs_take_ok rs r rs' : rs_take rs = (r, rs') -> rs_ok rs -> rs_ok rs'.
Proof.
  unfold rs_take, rs_ok.
  destruct (index (rst rs) (rsp rs - 1)); intros [= <- <-]; simpl; lia.
Qed.

Lemma spec_rng_pop : spec (H:=H) (fun _ => True) rng_pop.
Proof.
  unfold rng_pop. apply spec_bind; [apply spec_on_rng, rs_take_ok|].
  intros c. apply spec_on_world.
Qed.

(** One step of a proof of [spec]: through a bind, a branch or a leaf. *)
Ltac spec_step :=
  match goal with
  | |- spec _ (bind _ _) => apply spec_bind; [|intros]
  | |- spec _ (ret _) => apply spec_ret; first [exact I | reflexivity]
  | |- spec _ (panic _) => apply spec_panic
  | |- spec _ index_panic => apply spec_panic
  | |- spec _ nil_panic => apply spec_panic
  | |- spec _ get_vm => apply spec_get_vm
  | |- spec _ (at_index _ _) => apply spec_at_index
  | |- spec _ (push _) => apply spec_push
  | |- spec _ pop => apply spec_pop
  | |- spec _ (on_world _) => apply spec_on_world
  | |- spec _ (on_bkm _) => apply spec_on_bkm
  | |- spec _ (on_stk _) => apply spec_on_stk
  | |- spec _ (add_pc _) => apply spec_add_pc
  | |- spec _ (getVar _) => apply spec_getVar
  | |- spec _ (setVar _ _) => apply spec_setVar
  | |- spec _ (rng_push _) => apply spec_rng_push
  | |- spec _ rng_pop => apply spec_rng_pop
  | |- spec _ (fun s => (OutOfFuel, s)) => apply spec_fuel
  | |- spec _ (match ?x with _ => _ end) => destruct x
  end.

Lemma spec_pop_args_loop j : forall args, spec (H:=H) (fun _ => True) (pop_args_loop j args).
Proof. induction j; intros; simpl; repeat spec_step. apply IHj. Qed.

Lemma spec_pop_args ix : spec (H:=H) (fun _ => True) (pop_args ix).
Proof. unfold pop_args. repeat spec_step. apply spec_pop_args_loop. Qed.

Lemma spec_push_all vals : spec (H:=H) (fun _ => True) (push_all vals).
Proof. induction vals; simpl; repeat spec_step. exact IHvals. Qed.

Lemma spec_new_loop j ob : spec (H:=H) (fun _ => True) (new_loop j ob).
Proof. induction j; simpl; repeat spec_step. exact IHj. Qed.

Lemma spec_rngp_loop n : forall j vals, spec (H:=H) (fun _ => True) (rngp_loop n j vals).
Proof. induction n; intros; simpl; repeat spec_step; apply IHn. Qed.

Lemma spec_bkme_loop n b ix : spec (H:=H) (fun _ => True) (bkme_loop n b ix).
Proof.
  induction n; simpl; repeat spec_step; try exact IHn.
Qed.

Lemma spec_bkme b ix : spec (H:=H) (fun _ => True) (bkme b ix).
Proof. unfold bkme. repeat spec_step. apply spec_bkme_loop. Qed.

Lemma spec_getVal flg ix : spec (H:=H) (fun _ => True) (getVal flg ix).
Proof. unfold getVal. repeat spec_step. Qed.

Lemma spec_binary op : spec (H:=H) (fun _ => True) (binary op).
Proof. unfold binary. repeat spec_step. Qed.

Lemma spec_compare rel : spec (H:=H) (fun _ => True) (compare rel).
Proof. unfold compare. repeat spec_step. Qed.

(** Every instruction but RET and YLD respects [ctl] and lets the
    dispatch loop go on. *)
Lemma spec_exec op flg ix :
  op <> OP_RET -> op <> OP_YLD -> spec (H:=H) (fun r => r = None) (exec op flg ix).
Proof.
  intros Hret Hyld. destruct op; try congruence; unfold exec;
    repeat first [ spec_step
                 | apply spec_getVal | apply spec_binary | apply spec_compare
                 | apply spec_pop_args | apply spec_push_all | apply spec_new_loop
                 | apply spec_rngp_loop | apply spec_bkme ].
Qed.

Lemma spec_createLocals : spec (H:=H) (fun _ => True) createLocals.
Proof. apply spec_on_vm_modify. intros v. simpl. auto. Qed.

Lemma spec_bind_args n : forall j args, spec (H:=H) (fun _ => True) (bind_args n j args).
Proof.
  induction n; intros; simpl; repeat spec_step; try apply IHn;
    apply spec_on_vm_modify; intros v; simpl; auto.
Qed.

Lemma spec_enter args : spec (H:=H) (fun _ => True) (enter args).
Proof.
  unfold enter. repeat spec_step; try apply spec_createLocals; try apply spec_bind_args.
  apply spec_on_vm_modify. intros v. simpl. auto.
Qed.

(** *** RET and YLD *)

Lemma exec_RET flg ix (s : State H) r s' :
  exec OP_RET flg ix s = (r, s') ->
  ctl s s' /\ pc (vm s') = pc (vm s) /\ coroState (world s') = None /\
  (forall x, r = Ok x -> exists v, x = Some (Set1 v)).
Proof.
  unfold exec, bind, on_world, zoom, modify, pop, on_stk, on_vm, zoom, ret. simpl.
  destruct (vs_pop (stk (vm s))) as [[v|p|] t]; intros [= <- <-]; simpl;
    (split; [unfold ctl; simpl; auto|]); repeat split; try discriminate.
  intros x [= <-]. eauto.
Qed.

Lemma exec_YLD flg ix (s : State H) r s' :
  exec OP_YLD flg ix s = (r, s') ->
  proto (vm s') = proto (vm s) /\ self (vm s') = self (vm s) /\
  rng (vm s') = rng (vm s) /\ pc (vm s') = pc (vm s) /\
  clearRange s' = false /\ coroState (world s') = Some (self (vm s)) /\
  (forall x, r = Ok x -> (exists v, x = Some (Set1 v)) /\ vs_wf (stk (vm s'))).
Proof.
  unfold exec, bind, get_vm, on_world, zoom, modify, pop, on_stk, on_vm, zoom, ret. simpl.
  destruct (vs_pop (stk (vm s))) as [[v|p|] t] eqn:E; intros [= <- <-]; simpl;
    repeat split; try discriminate.
  - inversion H0; subst. eauto.
  - apply vs_pop_Ok_wf in E. apply E.
  - apply vs_pop_Ok_wf in E. apply E.
Qed.

Lemma step_cases (s : State H) r s' :
  step s = (r, s') -> clearRange s = true ->
  proto (vm s') = proto (vm s) /\ self (vm s') = self (vm s) /\
  (rs_ok (rng (vm s)) -> rs_ok (rng (vm s'))) /\
  match r with
  | Ok None => clearRange s' = true
  | Ok (Some vs) => exit_ok (Ok vs) s'
  | Panicked p => exit_ok (Panicked p) s'
  | OutOfFuel => True
  end.
Proof.
  intros Hstep Hcr. unfold step in Hstep. unfold bind at 1, get_vm at 1 in Hstep.
  unfold bind at 1, at_index in Hstep.
  destruct (index (code (proto (vm s))) (pc (vm s))) as [i|] eqn:Ei.
  2:{ inversion Hstep; subst. simpl. auto. }
  unfold ret at 1 in Hstep. unfold bind at 1 in Hstep.
  unfold on_vm at 1, zoom, modify in Hstep.
  set (s1 := set_vm (set_pc (pc (vm s) + 1) (vm s)) s) in Hstep.
  assert (Hat : forall s2 : State H, proto (vm s2) = proto (vm s) -> pc (vm s2) = pc (vm s1) ->
                       at_op s2 (i_op i)).
  { intros s2 Hp Hpc. exists i. rewrite Hp, Hpc. simpl.
    replace (pc (vm s) + 1 - 1) with (pc (vm s)) by lia. auto. }
  assert (Hop : i_op i = OP_RET \/ i_op i = OP_YLD \/ (i_op i <> OP_RET /\ i_op i <> OP_YLD)).
  { destruct (i_op i); auto; right; right; split; discriminate. }
  destruct Hop as [Hop|[Hop|[Hn1 Hn2]]].
  - rewrite Hop in *. apply exec_RET in Hstep as ((Hc & Hp & Hs & Hr) & Hpc & Hco & Hx).
    simpl in *. repeat split; auto.
    destruct r as [[vs|]| |]; simpl; auto.
    + left. repeat split; auto. congruence.
    + congruence.
    + left. congruence.
  - rewrite Hop in *. apply exec_YLD in Hstep as (Hp & Hs & Hr & Hpc & Hc & Hco & Hx).
    subst s1. simpl in *. repeat split; auto; [congruence|].
    apply index_Some in Ei as [Ei _].
    destruct r as [[vs|]| |]; simpl; auto.
    + right. destruct (Hx _ eq_refl) as [_ Hw].
      split; [auto|]. split; [auto|]. split; [congruence|]. split; [exact Hw|lia].
    + destruct (Hx _ eq_refl) as [[v Hv] _]. discriminate.
  - destruct (spec_exec _ (i_flg i) (Index i) Hn1 Hn2 _ _ _ Hstep) as [(Hc & Hp & Hs & Hr) Hx].
    simpl in *. repeat split; auto.
    destruct r as [[vs|]| |]; simpl; auto; try congruence.
    + discriminate (Hx _ eq_refl).
    + left. congruence.
Qed.

Lemma loop_cases fuel : forall (s : State H) r s',
  loop fuel s = (r, s') -> clearRange s = true ->
  proto (vm s') = proto (vm s) /\ self (vm s') = self (vm s) /\
  (rs_ok (rng (vm s)) -> rs_ok (rng (vm s'))) /\ exit_ok r s'.
Proof.
  induction fuel as [|fuel IH]; intros s r s' Hl Hcr; simpl in Hl.
  - inversion Hl; subst. simpl. auto.
  - unfold bind in Hl. destruct (step s) as [[[vs|]|p|] s1] eqn:Es.
    + inversion Hl; subst. apply step_cases in Es; auto.
    + apply step_cases in Es as (Hp & Hs & Hr & Hc); auto.
      destruct (IH _ _ _ Hl Hc) as (Hp' & Hs' & Hr' & Hx).
      repeat split; auto; congruence.
    + inversion Hl; subst. apply step_cases in Es; auto.
    + inversion Hl; subst. apply step_cases in Es as (?&?&?&_); auto.
      repeat split; auto.
Qed.

Lemma run_body_cases fuel args (s : State H) r s' :
  run_body fuel args s = (r, s') ->
  proto (vm s') = proto (vm s) /\ self (vm s') = self (vm s) /\
  (rs_ok (rng (vm s)) -> rs_ok (rng (vm s'))) /\ exit_ok r s'.
Proof.
  unfold run_body. unfold bind at 1, modify at 1. unfold bind at 1.
  destruct (enter args (set_clearRange true s)) as [[[]|p|] s1] eqn:Ee;
    destruct (spec_enter _ _ _ _ Ee) as [(Hc & Hp & Hs & Hr) _]; simpl in *.
  - intros Hl. apply loop_cases in Hl as (?&?&?&?); auto.
    repeat split; auto; congruence.
  - intros [= <- <-]. simpl. auto.
  - intros [= <- <-]. simpl. auto.
Qed.

(** *** The deferred release *)

Lemma rng_pop_ok (s : State H) c :
  index (rst (rng (vm s))) (rsp (rng (vm s)) - 1) = Some c ->
  rng_pop s =
    (Ok tt,
     set_world (set_host (coro_Release c (host (world s))) (world s))
       (set_vm (set_rng {| rst := rst (rng (vm s)); rsp := rsp (rng (vm s)) - 1 |} (vm s)) s)).
Proof.
  intros Hc. unfold rng_pop, bind, on_vm, on_world, zoom, rs_take, modify. simpl.
  rewrite Hc. reflexivity.
Qed.



End Control.


(** ** Return, suspension and resume *)

Section Frames.
Context {H : Type} `{!Host H}.

Lemma at_op_fun (s : State H) op op' : at_op s op -> at_op s op' -> op = op'.
Proof. intros (i & Hi & <-) (i' & Hi' & <-). congruence. Qed.

Lemma at_op_same (s s' : State H) op :
  proto (vm s') = proto (vm s) -> pc (vm s') = pc (vm s) -> at_op s op -> at_op s' op.
Proof. unfold at_op. intros -> ->. auto. Qed.

Lemma rng_clear_loop_frame n : forall (s : State H) r s',
  rng_clear_loop n s = (r, s') ->
  pc (vm s') = pc (vm s) /\ proto (vm s') = proto (vm s) /\
  clearRange s' = clearRange s /\ coroState (world s') = coroState (world s).
Proof.
  induction n as [|n IH]; intros s r s'; simpl.
  - intros [= <- <-]. auto.
  - unfold bind at 1. unfold rng_pop, bind, on_vm, on_world, zoom, rs_take, modify.
    destruct (index (rst (rng (vm s))) (rsp (rng (vm s)) - 1)); simpl.
    + intros Hr. apply IH in Hr. simpl in Hr. exact Hr.
    + intros [= <- <-]. simpl. auto.
Qed.

Lemma teardown_frame {A} (r : Res A) (s1 : State H) r' s' :
  teardown r s1 = (r', s') ->
  pc (vm s') = pc (vm s1) /\ proto (vm s') = proto (vm s1) /\
  clearRange s' = clearRange s1 /\ coroState (world s') = coroState (world s1) /\
  (clearRange s1 = false -> r' = r /\ s' = s1).
Proof.
  unfold teardown. intros Ht.
  assert (Hcase : (r' = r /\ s' = s1) \/
                  (clearRange s1 = true /\ exists r0, rng_clear s1 = (r0, s'))).
  { destruct r; destruct (clearRange s1); try (left; inversion Ht; auto; fail);
      right; (split; [reflexivity|]);
      destruct (rng_clear s1) as [[[]|p0|] s2]; inversion Ht; subst; eauto. }
  destruct Hcase as [[-> ->]|[Hc [r0 Hr]]]; [auto 6|].
  unfold rng_clear, bind, get_vm in Hr. apply rng_clear_loop_frame in Hr.
  destruct Hr as (?&?&?&?). repeat split; auto; congruence.
Qed.

(** C10: resuming a suspended frame (program counter above 0) with
    several arguments runs exactly as resuming it with the first one
    alone, and resuming it with none runs as resuming it with [Nil]:
    the part of [run] before the dispatch loop pushes that one value on
    the operand stack and nothing else. *)
Theorem resume_first_arg fuel (s : State H) a more :
  pc (vm s) > 0 ->
  run fuel (a :: more) s = run fuel [a] s /\
  run fuel [] s = run fuel [VNil] s /\
  enter (a :: more) s = push a s /\
  enter [] s = push VNil s /\
  (vs_wf (stk (vm s)) ->
   exists s', enter (a :: more) s = (Ok tt, s') /\ stk_only s s' /\
              live (stk (vm s')) = live (stk (vm s)) ++ [a]).
Proof.
  intros Hpc.
  assert (He : forall (args : list Val) (t : State H), pc (vm t) = pc (vm s) ->
             enter args t = push (match args with [] => VNil | x :: _ => x end) t).
  { intros args t Ht. unfold enter, bind, get_vm. rewrite Ht.
    replace (pc (vm s) =? 0) with false by (symmetry; apply Z.eqb_neq; lia). reflexivity. }
  assert (Hr : forall args args' : list Val,
             match args with [] => VNil | x :: _ => x end =
             match args' with [] => VNil | x :: _ => x end ->
             run fuel args s = run fuel args' s).
  { intros args args' Hh. unfold run, run_body, bind, modify.
    rewrite (He args), (He args') by reflexivity. rewrite Hh. reflexivity. }
  split; [apply Hr; reflexivity|]. split; [apply Hr; reflexivity|].
  split; [apply He; reflexivity|]. split; [apply He; reflexivity|].
  intros Hwf. rewrite He by reflexivity.
  destruct (push_ok s a Hwf) as (s' & Hp & Ho & Hl & _). eauto.
Qed.

(** C1: when a run has ended in YLD, the frame it leaves is suspended
    after that YLD with a well-formed operand stack; resuming it with a
    value [v] pushes [v] on that stack and starts the dispatch loop at
    the instruction after the YLD, with the program counter, the locals
    and the rest of the frame as the suspension left them. *)
Theorem yield_resume fuel args (s : State H) vs s' :
  run fuel args s = (Ok vs, s') -> at_op s' OP_YLD ->
  forall v more w fuel',
    let s2 := {| vm := vm s'; world := w; clearRange := true |} in
    exists s3,
      enter (v :: more) s2 = (Ok tt, s3) /\
      stk_only s2 s3 /\
      live (stk (vm s3)) = live (stk (vm s')) ++ [v] /\
      pc (vm s3) = pc (vm s') /\ vars (vm s3) = vars (vm s') /\
      at_op s3 OP_YLD /\
      run_body fuel' (v :: more) s2 = loop fuel' s3.
Proof.
  intros Hrun Hat v more w fuel' s2.
  unfold run in Hrun. destruct (run_body fuel args s) as [r s1] eqn:Eb.
  apply run_body_cases in Eb as (_ & _ & _ & Hx).
  destruct (teardown_frame _ _ _ _ Hrun) as (Hpc & Hp & Hc & Hco & Hno).
  assert (Hy : vs_wf (stk (vm s')) /\ 1 <= pc (vm s')).
  { destruct (clearRange s1) eqn:Ec.
    - exfalso. destruct r as [vs0|p|]; simpl in Hx.
      + destruct Hx as [(Hret & _)|(_ & Hf & _)]; [|congruence].
        assert (Hret' : at_op s' OP_RET) by (eapply at_op_same; eauto).
        discriminate (at_op_fun _ _ _ Hret' Hat).
      + unfold teardown in Hrun. rewrite Ec in Hrun.
        destruct (rng_clear s1) as [[[]|?|] ?]; discriminate.
      + discriminate.
    - destruct (Hno eq_refl) as [Hr Hs]. subst r s'. simpl in Hx.
      destruct Hx as [(_ & Hf & _)|(_ & _ & _ & Hw & Hge)]; [congruence|auto]. }
  destruct Hy as [Hwf Hge].
  assert (He : enter (v :: more) s2 = push v s2).
  { unfold enter, bind, get_vm. simpl.
    replace (pc (vm s') =? 0) with false by (symmetry; apply Z.eqb_neq; lia). reflexivity. }
  destruct (push_ok s2 v Hwf) as (s3 & Hpush & Ho & Hl & _).
  exists s3. rewrite He. split; [exact Hpush|]. split; [exact Ho|]. split; [exact Hl|].
  assert (Hpc3 : pc (vm s3) = pc (vm s')) by (rewrite Ho; reflexivity).
  assert (Hp3 : proto (vm s3) = proto (vm s')) by (rewrite Ho; reflexivity).
  split; [exact Hpc3|]. split; [rewrite Ho; reflexivity|].
  split; [eapply at_op_same; eauto|].
  unfold run_body. unfold bind at 1, modify. unfold bind at 1.
  change (set_clearRange true s2) with s2. rewrite He, Hpush. reflexivity.
Qed.


End Frames.


(** ** Single instructions *)

Section Instructions.
Context {H : Type} `{!Host H}.

Lemma push_all_ok vals : forall (s : State H),
  vs_wf (stk (vm s)) ->
  exists s', push_all vals s = (Ok tt, s') /\ stk_only s s' /\
             live (stk (vm s')) = live (stk (vm s)) ++ vals /\ vs_wf (stk (vm s')).
Proof.
  induction vals as [|v vals IH]; intros s Hwf; simpl.
  - exists s. rewrite app_nil_r. auto using stk_only_refl.
  - destruct (push_ok s v Hwf) as (s1 & Hp & Ho & Hl & Hw & _).
    destruct (IH s1 Hw) as (s' & Hp' & Ho' & Hl' & Hw').
    exists s'. unfold bind. rewrite Hp. split; [exact Hp'|].
    split; [eauto using stk_only_trans|]. rewrite Hl', Hl, <- app_assoc. auto.
Qed.

(** C4: when RNGP resumes the coroutine on top of the range stack and
    the resume reports [ErrEndOfCoro], the instruction pushes the one
    value [false] whatever [ix] is; when the resume reports any other
    error, the instruction panics with that error and pushes nothing. *)
Theorem rngp_exhausted flg ix (s : State H) c :
  index (rst (rng (vm s))) (rsp (rng (vm s)) - 1) = Some c ->
  vs_wf (stk (vm s)) ->
  (forall v w',
     coro_Resume c (world s) = (Ok (v, Some ErrEndOfCoro), w') ->
     exists s',
       exec OP_RNGP flg ix s = (Ok None, s') /\
       live (stk (vm s')) = live (stk (vm s)) ++ [VBool false] /\
       sp (stk (vm s')) = sp (stk (vm s)) + 1 /\
       stk_only (set_world w' s) s') /\
  (forall v msg w',
     coro_Resume c (world s) = (Ok (v, Some (ErrOther msg)), w') ->
     exec OP_RNGP flg ix s = (Panicked (PanicErr (ErrOther msg)), set_world w' s)).
Proof.
  intros Hc Hwf. split.
  - intros v w' Hres.
    destruct (push_ok (set_world w' s) (VBool false) Hwf) as (s' & Hp & Ho & Hl & _ & Hs).
    exists s'. unfold exec, bind, get_vm, at_index. rewrite Hc.
    unfold ret, on_world, zoom. rewrite Hres. rewrite Hp. auto.
  - intros v msg w' Hres.
    unfold exec, bind, get_vm, at_index. rewrite Hc.
    unfold ret, on_world, zoom. rewrite Hres. reflexivity.
Qed.

Lemma Object_Set_ok (s : State H) o k v :
  on_world (Object_Set o k v) s =
    (Ok tt, set_world (set_heap (<[o := <[k := v]> (default ∅ (heap (world s) !! o))]>
                                   (heap (world s))) (world s)) s).
Proof. reflexivity. Qed.

(** C5, as the code has it: NEW with [ix = 2] on a stack that ends
    (bottom to top) in [v1, k1, v2, k2] pops the four values in pairs,
    the key and then its value, and pushes in their place a new Object
    holding [k2 := v2] set first and [k1 := v1] set second; what lies
    below (an Object, in the example) stays where it is. *)
Theorem new_pairs flg (s : State H) base k1 v1 k2 v2 :
  vs_wf (stk (vm s)) ->
  live (stk (vm s)) = base ++ [v1; k1; v2; k2] ->
  exists s' o,
    exec OP_NEW flg 2 s = (Ok None, s') /\
    (o ∉ dom (heap (world s))) /\
    live (stk (vm s')) = base ++ [VObject o] /\
    heap (world s') = <[o := <[k1 := v1]> (<[k2 := v2]> ∅)]> (heap (world s)).
Proof.
  intros Hwf Hl.
  set (o := fresh (dom (heap (world s)))).
  set (s0 := set_world (set_heap (<[o := ∅]> (heap (world s))) (world s)) s).
  assert (Hnew : on_world NewObject s = (Ok o, s0)) by reflexivity.
  destruct (pop_ok s0 (base ++ [v1; k1; v2]) k2 Hwf) as (s1 & Hp1 & Ho1 & Hl1 & Hw1 & _).
  { simpl. rewrite Hl, <- app_assoc. reflexivity. }
  destruct (pop_ok s1 (base ++ [v1; k1]) v2 Hw1) as (s2 & Hp2 & Ho2 & Hl2 & Hw2 & _).
  { rewrite Hl1, <- app_assoc. reflexivity. }
  pose proof (Object_Set_ok s2 o k2 v2) as Hset1.
  set (s3 := set_world _ s2) in Hset1.
  destruct (pop_ok s3 (base ++ [v1]) k1 Hw2) as (s4 & Hp4 & Ho4 & Hl4 & Hw4 & _).
  { simpl. rewrite Hl2, <- app_assoc. reflexivity. }
  destruct (pop_ok s4 base v1 Hw4) as (s5 & Hp5 & Ho5 & Hl5 & Hw5 & _).
  { rewrite Hl4. reflexivity. }
  pose proof (Object_Set_ok s5 o k1 v1) as Hset2.
  set (s6 := set_world _ s5) in Hset2.
  destruct (push_ok s6 (VObject o) Hw5) as (s7 & Hp7 & Ho7 & Hl7 & _).
  exists s7, o. split; [|split; [|split]].
  - unfold exec. unfold bind at 1. rewrite Hnew.
    change (Z.to_nat 2) with 2%nat. unfold new_loop.
    unfold bind. rewrite Hp1, Hp2, Hset1, Hp4, Hp5, Hset2. unfold ret at 1.
    rewrite Hp7. reflexivity.
  - apply is_fresh.
  - rewrite Hl7. simpl. rewrite Hl5. reflexivity.
  - rewrite Ho7. simpl. rewrite Ho5, Ho4. simpl. rewrite Ho2, Ho1. simpl.
    rewrite lookup_insert_eq. simpl. rewrite lookup_insert_eq. simpl.
    rewrite !insert_insert_eq. reflexivity.
Qed.

(** C6, as the code has it: CALL with [ix = 2] on a stack that ends
    (bottom to top) in [a1, a2, fn], with [fn] a function value on top,
    calls [fn] with the arguments [a1, a2] in that order and pushes the
    values it returns, in their order, in place of the three. *)
Theorem call_args_order flg (s : State H) base a1 a2 fn vals w' :
  vs_wf (stk (vm s)) ->
  live (stk (vm s)) = base ++ [a1; a2; VFunc fn] ->
  Func_Call fn [a1; a2] (world s) = (Ok vals, w') ->
  exists s',
    exec OP_CALL flg 2 s = (Ok None, s') /\
    live (stk (vm s')) = base ++ vals /\
    world s' = w'.
Proof.
  intros Hwf Hl Hcall.
  destruct (pop_ok s (base ++ [a1; a2]) (VFunc fn) Hwf) as (s1 & Hp1 & Ho1 & Hl1 & Hw1 & _).
  { rewrite Hl, <- app_assoc. reflexivity. }
  destruct (pop_ok s1 (base ++ [a1]) a2 Hw1) as (s2 & Hp2 & Ho2 & Hl2 & Hw2 & _).
  { rewrite Hl1, <- app_assoc. reflexivity. }
  destruct (pop_ok s2 base a1 Hw2) as (s3 & Hp3 & Ho3 & Hl3 & Hw3 & _).
  { rewrite Hl2. reflexivity. }
  assert (Hw : world s3 = world s).
  { rewrite Ho3. simpl. rewrite Ho2. simpl. rewrite Ho1. reflexivity. }
  assert (Hc : on_world (Func_Call fn [a1; a2]) s3 = (Ok vals, set_world w' s3)).
  { unfold on_world, zoom. rewrite Hw, Hcall. reflexivity. }
  destruct (push_all_ok vals (set_world w' s3) Hw3) as (s4 & Hp4 & Ho4 & Hl4 & _).
  exists s4. split; [|split].
  - unfold exec. unfold bind at 1. rewrite Hp1.
    unfold pop_args. change (2 ^ 63 <=? 2) with false. change (Z.to_nat 2) with 2%nat.
    unfold pop_args_loop, replicate. unfold bind. rewrite Hp2, Hp3. simpl.
    unfold ret at 1. rewrite Hc, Hp4. reflexivity.
  - rewrite Hl4. simpl. rewrite Hl3. reflexivity.
  - rewrite Ho4. reflexivity.
Qed.

End Instructions.


(** ** A first run: parameters and [args] *)

Section FreshRun.
Context {H : Type} `{!Host H}.

Lemma bind_args_ok n : forall j argv (s : State H),
  0 <= j -> j + Z.of_nat n <= Z.of_nat (length (kTable (proto (vm s)))) ->
  bind_args n j argv s =
    (Ok tt, set_vm (set_vars (bound_vars n j (kTable (proto (vm s))) argv (vars (vm s)))
                             (vm s)) s).
Proof.
  induction n as [|n IH]; intros j argv s Hj Hn; simpl.
  - unfold ret. destruct s as [[] ? ?]. reflexivity.
  - destruct (index_in_range (kTable (proto (vm s))) j) as [c Hc]; [lia|].
    unfold bind at 1, get_vm at 1. unfold bind at 1, at_index. rewrite Hc. unfold ret at 1.
    unfold bind at 1. unfold param_val.
    destruct (j <? Z.of_nat (length argv)) eqn:Ej.
    + apply Z.ltb_lt in Ej.
      destruct (index_in_range argv j) as [a Ha]; [lia|].
      unfold bind at 1. rewrite Ha. unfold ret at 1.
      apply index_Some in Ha as [_ Ha]. rewrite Ha. simpl.
      unfold on_vm, zoom, modify. rewrite IH by (simpl; lia). reflexivity.
    + unfold on_vm, zoom, modify. rewrite IH by (simpl; lia). reflexivity.
Qed.

Lemma bound_vars_other n : forall j k argv m x,
  (forall j' c, j <= j' < j + Z.of_nat n -> index k j' = Some c -> Val_String c <> x) ->
  bound_vars n j k argv m !! x = m !! x.
Proof.
  induction n as [|n IH]; intros j k argv m x Hx; simpl; [reflexivity|].
  destruct (index k j) as [c|] eqn:Ec; [|reflexivity].
  rewrite IH by (intros j' c' Hj'; apply Hx; lia).
  apply lookup_insert_ne. apply (Hx j); [lia|exact Ec].
Qed.

Lemma bound_vars_last n : forall j k argv m j' c,
  j <= j' < j + Z.of_nat n ->
  index k j' = Some c ->
  (forall j'' c'', j' < j'' < j + Z.of_nat n -> index k j'' = Some c'' ->
                   Val_String c'' <> Val_String c) ->
  (forall i, j <= i < j' -> is_Some (index k i)) ->
  bound_vars n j k argv m !! Val_String c = Some (param_val argv j').
Proof.
  induction n as [|n IH]; intros j k argv m j' c Hj Hc Hlast Hdef; [lia|]. simpl.
  destruct (Z.eq_dec j' j) as [->|Hne].
  - rewrite Hc. rewrite bound_vars_other by (intros j'' c'' ?; apply Hlast; lia).
    apply lookup_insert_eq.
  - destruct (Hdef j) as [c0 Hc0]; [lia|]. rewrite Hc0.
    apply IH; auto; try lia.
    + intros j'' c'' ?. apply Hlast. lia.
    + intros i ?. apply Hdef. lia.
Qed.

Lemma bound_vars_nil_stays n : forall j k argv m x,
  Z.of_nat (length argv) <= j ->
  m !! x = Some VNil -> bound_vars n j k argv m !! x = Some VNil.
Proof.
  induction n as [|n IH]; intros j k argv m x Hj Hm; simpl; [exact Hm|].
  destruct (index k j) as [c|]; [|exact Hm].
  apply IH; [lia|]. unfold param_val.
  replace (j <? Z.of_nat (length argv)) with false by (symmetry; apply Z.ltb_ge; lia).
  destruct (decide (Val_String c = x)) as [->|Hne].
  - apply lookup_insert_eq.
  - rewrite lookup_insert_ne by exact Hne. exact Hm.
Qed.

Lemma bound_vars_missing n : forall j k argv m j' c,
  j <= j' < j + Z.of_nat n ->
  Z.of_nat (length argv) <= j' ->
  index k j' = Some c ->
  (forall i, j <= i < j' -> is_Some (index k i)) ->
  bound_vars n j k argv m !! Val_String c = Some VNil.
Proof.
  induction n as [|n IH]; intros j k argv m j' c Hj Hlen Hc Hdef; [lia|]. simpl.
  destruct (Z.eq_dec j' j) as [->|Hne].
  - rewrite Hc. apply bound_vars_nil_stays; [lia|].
    unfold param_val.
    replace (j <? Z.of_nat (length argv)) with false by (symmetry; apply Z.ltb_ge; lia).
    apply lookup_insert_eq.
  - destruct (Hdef j) as [c0 Hc0]; [lia|]. rewrite Hc0.
    apply (IH _ _ _ _ j'); auto; try lia.
    intros i ?. apply Hdef. lia.
Qed.

Lemma set_args_loop_ok argv : forall o i (w : World H) m,
  heap w !! o = Some m ->
  set_args_loop o i argv w = (Ok tt, set_heap (<[o := args_map i argv m]> (heap w)) w).
Proof.
  induction argv as [|v rest IH]; intros o i w m Hm; simpl.
  - unfold ret. rewrite insert_id by exact Hm. destruct w. reflexivity.
  - unfold bind, Object_Set. rewrite Hm. simpl.
    erewrite IH by (simpl; apply lookup_insert_eq). simpl.
    rewrite insert_insert_eq. reflexivity.
Qed.

Lemma args_map_lookup argv : forall i m k,
  args_map i argv m !! k =
    match k with
    | VNumber z =>
        if (i <=? z) && (z <? i + Z.of_nat (length argv)) then argv !! Z.to_nat (z - i)
        else m !! k
    | _ => m !! k
    end.
Proof.
  induction argv as [|v rest IH]; intros i m k; simpl.
  - destruct k; auto.
    match goal with |- _ = (if ?b then _ else _) => destruct b eqn:E end; auto.
    apply andb_true_iff in E as [E1 E2]. apply Z.leb_le in E1. apply Z.ltb_lt in E2. lia.
  - rewrite IH. destruct k as [| |z| | |]; try (apply lookup_insert_ne; discriminate).
    destruct (Z.eq_dec z i) as [->|Hne].
    + replace (i + 1 <=? i) with false by (symmetry; apply Z.leb_gt; lia).
      replace (i <=? i) with true by (symmetry; apply Z.leb_le; lia).
      replace (i <? i + Z.of_nat (S (length rest))) with true
        by (symmetry; apply Z.ltb_lt; lia).
      simpl. rewrite Z.sub_diag. simpl. apply lookup_insert_eq.
    + rewrite lookup_insert_ne by congruence.
      destruct (i + 1 <=? z) eqn:E1; destruct (i <=? z) eqn:E2;
        try apply Z.leb_le in E1; try apply Z.leb_le in E2;
        try apply Z.leb_gt in E1; try apply Z.leb_gt in E2; try lia; simpl; auto.
      replace (z <? i + Z.of_nat (S (length rest))) with (z <? i + 1 + Z.of_nat (length rest))
        by (f_equal; lia).
      destruct (z <? i + 1 + Z.of_nat (length rest)); auto.
      replace (Z.to_nat (z - i)) with (S (Z.to_nat (z - (i + 1)))) by lia. reflexivity.
Qed.

Lemma args_map_entry argv k : args_map 0 argv ∅ !! k = args_entry argv k.
Proof.
  rewrite args_map_lookup. unfold args_entry. destruct k; auto.
  rewrite Z.sub_0_r, Z.add_0_l.
  destruct (0 <=? n) eqn:E0; simpl; [|apply lookup_empty].
  destruct (n <? Z.of_nat (length argv)) eqn:E1; [reflexivity|].
  apply Z.ltb_ge in E1. apply Z.leb_le in E0.
  rewrite lookup_empty. symmetry. apply lookup_ge_None. lia.
Qed.

Lemma createArgsVal_cons a0 rest (w : World H) :
  createArgsVal (a0 :: rest) w =
    (Ok (VObject (fresh (dom (heap w)))),
     set_heap (<[fresh (dom (heap w)) := args_map 0 (a0 :: rest) ∅]> (heap w)) w).
Proof.
  unfold createArgsVal, bind, NewObject.
  erewrite set_args_loop_ok by (simpl; apply lookup_insert_eq).
  unfold ret, set_heap. simpl. rewrite insert_insert_eq. reflexivity.
Qed.

(** C7: a first run (program counter 0) binds every expected parameter
    past the arguments passed to [Nil], and every one an argument was
    passed for to that argument, the parameters having names of their
    own; [args] is [Nil] when nothing was passed, and else a new Object
    whose keys are the numbers from 0 to [N - 1], each holding the
    argument of that position. *)
Theorem fresh_binding (s : State H) argv :
  pc (vm s) = 0 ->
  expArgs (proto (vm s)) <= Z.of_nat (length (kTable (proto (vm s)))) ->
  exists s',
    enter argv s = (Ok tt, s') /\
    (forall j c,
       Z.of_nat (length argv) <= j < expArgs (proto (vm s)) ->
       index (kTable (proto (vm s))) j = Some c ->
       vars (vm s') !! Val_String c = Some VNil) /\
    (forall j c a,
       0 <= j < expArgs (proto (vm s)) ->
       index (kTable (proto (vm s))) j = Some c ->
       argv !! Z.to_nat j = Some a ->
       (forall j' c', j < j' < expArgs (proto (vm s)) ->
                      index (kTable (proto (vm s))) j' = Some c' ->
                      Val_String c' <> Val_String c) ->
       vars (vm s') !! Val_String c = Some a) /\
    match argv with
    | [] => args (vm s') = VNil /\ heap (world s') = heap (world s)
    | _ =>
        exists o m,
          args (vm s') = VObject o /\ (o ∉ dom (heap (world s))) /\
          heap (world s') !! o = Some m /\
          forall k, m !! k = args_entry argv k
    end.
Proof.
  intros Hpc Hexp.
  set (l0 := foldl (fun m x => <[x := VNil]> m) (vars (vm s)) (lTable (proto (vm s)))).
  set (s1 := set_vm (set_vars l0 (vm s)) s).
  set (n := Z.to_nat (expArgs (proto (vm s)))).
  set (V := bound_vars n 0 (kTable (proto (vm s))) argv l0).
  set (s2 := set_vm (set_vars V (vm s1)) s1).
  assert (Hloc : createLocals s = (Ok tt, s1)) by reflexivity.
  assert (Hbind : bind_args n 0 argv s1 = (Ok tt, s2)).
  { apply bind_args_ok; [lia|]. subst s1 n. simpl. lia. }
  assert (Hdef : forall i, 0 <= i < expArgs (proto (vm s)) -> is_Some (index (kTable (proto (vm s))) i)).
  { intros i Hi. destruct (index_in_range (kTable (proto (vm s))) i) as [x Hx]; [lia|]. eauto. }
  assert (Hmiss : forall j c, Z.of_nat (length argv) <= j < expArgs (proto (vm s)) ->
                    index (kTable (proto (vm s))) j = Some c -> V !! Val_String c = Some VNil).
  { intros j c Hj Hc. apply (bound_vars_missing n 0 _ _ _ j); auto; try lia.
    intros i Hi. apply Hdef. lia. }
  assert (Hsup : forall j c a, 0 <= j < expArgs (proto (vm s)) ->
                    index (kTable (proto (vm s))) j = Some c -> argv !! Z.to_nat j = Some a ->
                    (forall j' c', j < j' < expArgs (proto (vm s)) ->
                       index (kTable (proto (vm s))) j' = Some c' ->
                       Val_String c' <> Val_String c) ->
                    V !! Val_String c = Some a).
  { intros j c a Hj Hc Ha Hlast.
    unfold V. rewrite (bound_vars_last n 0 _ _ _ j c); auto; try (subst n; lia).
    - unfold param_val. apply lookup_lt_Some in Ha as Hlt.
      replace (j <? Z.of_nat (length argv)) with true by (symmetry; apply Z.ltb_lt; lia).
      rewrite Ha. reflexivity.
    - intros j'' c'' Hj''. apply Hlast. subst n. lia.
    - intros i Hi. apply Hdef. lia. }
  assert (Henter : forall a w,
            createArgsVal argv (world s2) = (Ok a, w) ->
            enter argv s = (Ok tt, set_vm (set_args a (vm s2)) (set_world w s2))).
  { intros a w Hcreate. unfold enter. unfold bind at 1, get_vm at 1. rewrite Hpc.
    simpl (0 =? 0). cbv iota. unfold bind at 1. rewrite Hloc. unfold bind at 1.
    fold n. rewrite Hbind. unfold bind at 1. unfold on_world at 1, zoom.
    rewrite Hcreate. reflexivity. }
  destruct argv as [|a0 rest].
  - eexists. split; [apply Henter; reflexivity|]. simpl. auto.
  - eexists. split; [apply Henter; apply createArgsVal_cons|].
    split; [exact Hmiss|]. split; [exact Hsup|].
    exists (fresh (dom (heap (world s)))), (args_map 0 (a0 :: rest) ∅).
    split; [reflexivity|]. split; [apply is_fresh|].
    split; [apply lookup_insert_eq|]. apply args_map_entry.
Qed.

End FreshRun.


(** ** The assembler *)

Section AsmFacts.
Import Asm.

Lemma Scan_Protos s r s' : Scan s = (r, s') -> Protos s' = Protos s.
Proof. unfold Scan. destruct (rest s); intros [= <- <-]; reflexivity. Qed.

Lemma deref_Protos p s r s' : deref p s = (r, s') -> s' = s.
Proof.
  unfold deref, nil_panic, panic. destruct p as [a|]; [destruct (objs s !! a)|];
    intros [= <- <-]; reflexivity.
Qed.

Lemma update_Protos p f s r s' : update p f s = (r, s') -> Protos s' = Protos s.
Proof.
  unfold update, bind. destruct (deref p s) as [[g| |] s1] eqn:E;
    apply deref_Protos in E; subst s1.
  - destruct p; unfold modify, nil_panic, panic; intros [= <- <-]; reflexivity.
  - intros [= <- <-]. reflexivity.
  - intros [= <- <-]. reflexivity.
Qed.

Lemma k_line_Protos p t s r s' : k_line p t s = (r, s') -> Protos s' = Protos s.
Proof.
  unfold k_line, index_panic, panic. destruct t as [|c body]; [intros [= <- <-]; reflexivity|].
  repeat match goal with
         | |- context [if ?b then _ else _] => destruct b
         | |- context [match ?x with EmptyString => _ | String _ _ => _ end] => destruct x
         end; try apply update_Protos; intros [= <- <-]; reflexivity.
Qed.

Lemma i_line_Protos p t s r s' : i_line p t s = (r, s') -> Protos s' = Protos s.
Proof.
  unfold i_line, index_panic, panic. destruct (Fields t) as [|op [|flg [|ix l]]];
    try apply update_Protos; intros [= <- <-]; reflexivity.
Qed.

(** The handler of [f] works on its own nil pointer: it never returns. *)
Lemma f_loop_nil fuel s r s' : f_loop fuel None 0 s = (r, s') -> forall x, r <> Ok x.
Proof.
  destruct fuel as [|fuel]; simpl; [intros [= <- <-]; discriminate|].
  unfold bind at 1. unfold Scan. destruct (rest s) as [|l rs].
  - unfold bind, deref, nil_panic, panic. intros [= <- <-]. discriminate.
  - unfold bind at 1, Text at 1. simpl.
    unfold bind at 1. destruct (String.eqb l "true");
      unfold bind, update, bind, deref, nil_panic, panic; intros [= <- <-]; discriminate.
Qed.

Lemma loops_Protos fuel :
  (forall h p s x s', invoke fuel h p s = (Ok x, s') -> Protos s' = Protos s) /\
  (forall p s x s', k_loop fuel p s = (Ok x, s') -> Protos s' = Protos s) /\
  (forall p s x s', i_loop fuel p s = (Ok x, s') -> Protos s' = Protos s).
Proof.
  induction fuel as [|fuel (IHv & IHk & IHi)].
  - repeat split; intros; discriminate.
  - split; [|split].
    + intros h p s x s'. simpl. destruct h; [|apply IHk|apply IHi].
      intros Hf. exfalso. exact (f_loop_nil _ _ _ _ Hf x eq_refl).
    + intros p s x s'. simpl. unfold bind at 1.
      destruct (Scan s) as [[[]| |] s1] eqn:Es; try discriminate.
      apply Scan_Protos in Es. unfold bind at 1, Text at 1.
      destruct (m (TrimSpace (text s1))) as [h|].
      * intros Hv. apply IHv in Hv. congruence.
      * unfold bind. destruct (k_line p (text s1) s1) as [[[]| |] s2] eqn:El; try discriminate.
        apply k_line_Protos in El. intros Hk. apply IHk in Hk. congruence.
    + intros p s x s'. simpl. unfold bind at 1.
      destruct (Scan s) as [[[]| |] s1] eqn:Es; try discriminate.
      * apply Scan_Protos in Es. unfold bind at 1, Text at 1.
        destruct (m (TrimSpace (text s1))) as [h|].
        -- intros Hv. apply IHv in Hv. congruence.
        -- unfold bind. destruct (i_line p (TrimSpace (text s1)) s1) as [[[]| |] s2] eqn:El;
             try discriminate.
           apply i_line_Protos in El. intros Hk. apply IHi in Hk. congruence.
      * apply Scan_Protos in Es. intros [= <- <-]. exact Es.
Qed.

Lemma top_loop_Protos fuel : forall s x s',
  top_loop fuel s = (Ok x, s') -> Protos s' = Protos s.
Proof.
  induction fuel as [|fuel IH]; intros s x s'; simpl; [discriminate|].
  unfold bind at 1. destruct (Scan s) as [[[]| |] s1] eqn:Es; try discriminate.
  - apply Scan_Protos in Es. unfold bind at 1, Text at 1. unfold bind at 1.
    destruct (m (TrimSpace (text s1))) as [h|].
    + destruct (invoke fuel h None s1) as [[[]| |] s2] eqn:Ev; try discriminate.
      apply (proj1 (loops_Protos fuel)) in Ev. intros Ht. apply IH in Ht. congruence.
    + unfold ret at 1. intros Ht. apply IH in Ht. congruence.
  - apply Scan_Protos in Es. intros [= <- <-]. exact Es.
Qed.

(** Whatever the text, [Compile] returns no prototype: it panics or
    comes back with an empty list. *)
Lemma Compile_no_prototype lines ps : Compile lines = Ok ps -> ps = [].
Proof.
  unfold Compile.
  destruct (top_loop _ _) as [[[]| |] s] eqn:Et; try discriminate.
  apply top_loop_Protos in Et. simpl in Et. rewrite Et. intros [= <-]. reflexivity.
Qed.

(** The table [m] has no handler for the section [v]. *)
Lemma no_handler_for_v : m "[v]" = None.
Proof. reflexivity. Qed.

End AsmFacts.

(** C9, on the code: given a function with its sections [f], [k] and
    [i], [Compile] stops on a nil pointer dereference at the first line
    of the header, and rebuilds no prototype. *)
Theorem Compile_panics_on_header :
  Asm.Compile
    ["[f]"; "4"; "0"; "1"; "main"; "a.goblin"; "1"; "3";
     "[k]"; "i5";
     "[i]"; "PUSH K 0"; "RET"] =
  Panicked (RuntimeError "invalid memory address or nil pointer dereference").
Proof. vm_compute. reflexivity. Qed.


(** ** The theorems at work *)

Lemma pop_clears_slot_witness :
  exists v vs',
    vs_pop {| st := [VNumber 1; VString "a"; VNil]; sp := 2 |} = (Ok v, vs') /\
    v = VString "a" /\ st vs' = [VNumber 1; VNil; VNil] /\ sp vs' = 1.
Proof.
  destruct (pop_clears_slot {| st := [VNumber 1; VString "a"; VNil]; sp := 2 |})
    as (v & vs' & Hp & _); [simpl; lia|].
  exists v, vs'. split; [exact Hp|].
  vm_compute in Hp. inversion Hp. subst. repeat split.
Defined.

Lemma yield_resume_witness :
  exists s3,
    enter [VNumber 7]
      {| vm := vm Example.suspended; world := Example.world0; clearRange := true |} =
      (Ok tt, s3) /\
    live (stk (vm s3)) = [VNumber 7] /\ pc (vm s3) = 2 /\ at_op s3 OP_YLD.
Proof.
  assert (Hrun : run 5 [] (Example.state0 Example.gen_prog) = (Ok [VNil], Example.suspended))
    by (vm_compute; reflexivity).
  assert (Hat : at_op Example.suspended OP_YLD)
    by (exists (Example.ins OP_YLD (FLG_other 0) 0); split; reflexivity).
  destruct (yield_resume 5 [] _ _ _ Hrun Hat (VNumber 7) [] Example.world0 5%nat)
    as (s3 & He & _ & Hl & Hpc & _ & Hop & _).
  exists s3. split; [exact He|]. split; [exact Hl|]. split; [exact Hpc|exact Hop].
Defined.


Lemma bkme_exact_witness :
  exists s',
    exec OP_BKME (FLG_other 0) 1 Example.bookmarked = (Ok None, s') /\
    sp (stk (vm s')) = 2 /\ live (stk (vm s')) = [VNumber 1; VNumber 2].
Proof.
  destruct (bkme_exact (FLG_other 0) 1 Example.bookmarked 1)
    as (s' & He & Hsp & Hl & _); try (simpl; lia); try reflexivity.
  { unfold vs_wf. simpl. lia. }
  exists s'. split; [exact He|]. split; [exact Hsp|exact Hl].
Defined.

Lemma rngp_exhausted_witness :
  exists s',
    exec OP_RNGP (FLG_other 0) 3 Example.ranging = (Ok None, s') /\
    live (stk (vm s')) = [VBool false].
Proof.
  destruct (rngp_exhausted (FLG_other 0) 3 Example.ranging 5%positive) as [Hend _].
  - reflexivity.
  - unfold vs_wf. simpl. lia.
  - destruct (Hend I_other Example.world0 eq_refl) as (s' & He & Hl & _).
    exists s'. split; [exact He|exact Hl].
Defined.

Lemma new_pairs_witness :
  exists s' o,
    exec OP_NEW (FLG_other 0) 2
      (Example.on_stack [VObject 9%positive; VNumber 1; VString "a"; VNumber 2; VString "b"]
         (Example.state0 Example.ret_prog)) = (Ok None, s') /\
    live (stk (vm s')) = [VObject 9%positive; VObject o] /\
    heap (world s') !! o =
      Some (<[VString "a" := VNumber 1]> (<[VString "b" := VNumber 2]> ∅)).
Proof.
  destruct (new_pairs (FLG_other 0)
              (Example.on_stack
                 [VObject 9%positive; VNumber 1; VString "a"; VNumber 2; VString "b"]
                 (Example.state0 Example.ret_prog))
              [VObject 9%positive] (VString "a") (VNumber 1) (VString "b") (VNumber 2))
    as (s' & o & He & _ & Hl & Hh).
  - unfold vs_wf. simpl. lia.
  - reflexivity.
  - exists s', o. split; [exact He|]. split; [exact Hl|].
    rewrite Hh. apply lookup_insert_eq.
Defined.

Lemma call_args_order_witness :
  exists s',
    exec OP_CALL (FLG_other 0) 2
      (Example.on_stack [VNumber 1; VNumber 2; VFunc 5%positive]
         (Example.state0 Example.ret_prog)) = (Ok None, s') /\
    live (stk (vm s')) = [VNumber 1; VNumber 2].
Proof.
  destruct (call_args_order (FLG_other 0)
              (Example.on_stack [VNumber 1; VNumber 2; VFunc 5%positive]
                 (Example.state0 Example.ret_prog))
              [] (VNumber 1) (VNumber 2) 5%positive [VNumber 1; VNumber 2] Example.world0)
    as (s' & He & Hl & _).
  - unfold vs_wf. simpl. lia.
  - reflexivity.
  - reflexivity.
  - exists s'. split; [exact He|exact Hl].
Defined.

Lemma fresh_binding_witness :
  exists s' o m,
    enter [VNumber 10] (Example.state0 Example.two_args) = (Ok tt, s') /\
    vars (vm s') !! "x" = Some (VNumber 10) /\
    vars (vm s') !! "y" = Some VNil /\
    args (vm s') = VObject o /\ heap (world s') !! o = Some m /\
    m !! VNumber 0 = Some (VNumber 10) /\ m !! VNumber 1 = None.
Proof.
  destruct (fresh_binding (Example.state0 Example.two_args) [VNumber 10])
    as (s' & He & Hmiss & Hsup & (o & m & Ha & _ & Hh & Hm)).
  - reflexivity.
  - simpl. lia.
  - exists s', o, m. split; [exact He|]. split; [|split].
    + apply (Hsup 0 (VString "x") (VNumber 10)); [simpl; lia|reflexivity|reflexivity|].
      intros j' c' Hj' Hc'. simpl in Hj'. assert (j' = 1) by lia. subst j'.
      vm_compute in Hc'. injection Hc' as <-. discriminate.
    + apply (Hmiss 1 (VString "y")); [simpl; lia|reflexivity].
    + split; [exact Ha|]. split; [exact Hh|]. split; rewrite Hm; reflexivity.
Defined.

Lemma resume_first_arg_witness :
  run 5 [VNumber 7; VNumber 8; VNumber 9] Example.suspended =
  run 5 [VNumber 7] Example.suspended /\
  run 5 [] Example.suspended = run 5 [VNil] Example.suspended.
Proof.
  destruct (resume_first_arg 5 Example.suspended (VNumber 7) [VNumber 8; VNumber 9])
    as (H1 & H2 & _).
  - vm_compute. reflexivity.
  - split; [exact H1|exact H2].
Defined.

(** ** Where the code departs from the claims *)


(** C5 as stated fails: on the stack [Object, "a", 1, "b", 2] NEW takes
    2 and 1 for the keys, and the Object it pushes has no key "a". *)
Lemma new_keys_from_top :
  ~ (exists s' o m,
       exec OP_NEW (FLG_other 0) 2
         (Example.on_stack
            [VObject 9%positive; VString "a"; VNumber 1; VString "b"; VNumber 2]
            (Example.state0 Example.ret_prog)) = (Ok None, s') /\
       last (live (stk (vm s'))) = Some (VObject o) /\
       heap (world s') !! o = Some m /\
       m !! VString "a" = Some (VNumber 1) /\ m !! VString "b" = Some (VNumber 2)).
Proof.
  intros (s' & o & m & He & Hl & Hh & Ha & _).
  vm_compute in He. injection He as <-.
  vm_compute in Hl. injection Hl as <-.
  vm_compute in Hh. injection Hh as <-.
  vm_compute in Ha. discriminate.
Qed.

(** C6 as stated fails: on the stack [fn, 1, 2] CALL takes the 2 on top
    for the callee and stops on a type mismatch. *)
Lemma call_callee_on_top :
  fst (exec OP_CALL (FLG_other 0) 2
         (Example.on_stack [VFunc 5%positive; VNumber 1; VNumber 2]
            (Example.state0 Example.ret_prog))) =
    Panicked (TypeError "number" "" "func") /\
  ~ (exists s',
       exec OP_CALL (FLG_other 0) 2
         (Example.on_stack [VFunc 5%positive; VNumber 1; VNumber 2]
            (Example.state0 Example.ret_prog)) = (Ok None, s')).
Proof.
  split; [vm_compute; reflexivity|].
  intros (s' & He). vm_compute in He. discriminate.
Qed.


(** ** More on the stacks *)

Lemma index_insert_eq {A} (l : list A) i x :
  0 <= i < Z.of_nat (length l) -> index (store l i x) i = Some x.
Proof.
  intros Hi. apply index_Some. unfold store. rewrite length_insert. split; [lia|].
  apply list_lookup_insert_eq. lia.
Qed.

Lemma index_insert_ne {A} (l : list A) i j x :
  0 <= i -> i <> j -> index (store l i x) j = index l j.
Proof.
  intros Hi Hne. unfold index, store. rewrite length_insert.
  destruct ((0 <=? j) && (j <? Z.of_nat (length l))) eqn:E; [|reflexivity].
  apply andb_true_iff in E as [E0 _]. apply Z.leb_le in E0.
  apply list_lookup_insert_ne. lia.
Qed.

Lemma index_app_l {A} (l k : list A) i :
  i < Z.of_nat (length l) -> index (l ++ k) i = index l i.
Proof.
  intros Hi. unfold index. rewrite length_app.
  destruct (0 <=? i) eqn:E0; simpl; [|reflexivity]. apply Z.leb_le in E0.
  replace (i <? Z.of_nat (length l + length k)) with true by (symmetry; apply Z.ltb_lt; lia).
  replace (i <? Z.of_nat (length l)) with true by (symmetry; apply Z.ltb_lt; lia).
  apply lookup_app_l. lia.
Qed.

Lemma vs_push_tidy v vs r vs' : tidy vs -> vs_push v vs = (r, vs') -> tidy vs'.
Proof.
  unfold tidy, vs_wf, clean, vs_push. intros [Hwf Hc].
  destruct (sp vs =? Z.of_nat (length (st vs))) eqn:E.
  - apply Z.eqb_eq in E. intros [= <- <-]. simpl. rewrite length_app. simpl.
    split; [lia|]. intros i Hi. lia.
  - apply Z.eqb_neq in E. unfold in_range.
    destruct (0 <=? sp vs) eqn:E0; [|apply Z.leb_gt in E0; lia].
    destruct (sp vs <? Z.of_nat (length (st vs))) eqn:E1; [|apply Z.ltb_ge in E1; lia].
    simpl. intros [= <- <-]. simpl. unfold store at 1 2. rewrite length_insert.
    split; [lia|]. intros i Hi. rewrite index_insert_ne by lia. apply Hc. lia.
Qed.

Lemma vs_pop_tidy vs v vs' : clean vs -> vs_pop vs = (Ok v, vs') -> tidy vs'.
Proof.
  unfold tidy, vs_wf, clean, vs_pop. intros Hc.
  destruct (index (st vs) (sp vs - 1)) as [x|] eqn:E; [|discriminate].
  intros [= <- <-]. simpl. apply index_Some in E as [Hr _].
  unfold store at 1 2. rewrite length_insert. split; [lia|].
  intros i Hi. destruct (Z.eq_dec i (sp vs - 1)) as [->|Hne].
  - apply index_insert_eq. lia.
  - rewrite index_insert_ne by lia. apply Hc. lia.
Qed.

(** X1: on a stack in order, a push followed by a pop gives the pushed
    value back and leaves the stack as it was: the same pointer, the
    same values, and nothing stale in the backing slice. *)
Theorem push_pop_roundtrip vs v :
  tidy vs ->
  exists vs1 vs2,
    vs_push v vs = (Ok tt, vs1) /\ vs_pop vs1 = (Ok v, vs2) /\
    sp vs2 = sp vs /\ live vs2 = live vs /\ tidy vs2.
Proof.
  intros [Hwf Hc].
  destruct (vs_push_ok vs v Hwf) as (vs1 & Hp & Hl & Hw & Hs).
  destruct (vs_pop_ok vs1 (live vs) v Hw Hl) as (vs2 & Hq & Hl2 & Hw2 & Hs2).
  exists vs1, vs2. split; [exact Hp|]. split; [exact Hq|]. split; [lia|].
  split; [exact Hl2|]. eapply vs_pop_tidy; [|exact Hq].
  exact (proj2 (vs_push_tidy _ _ _ _ (conj Hwf Hc) Hp)).
Qed.

(** X2: a pop on an empty stack panics on the index, after the pointer
    was moved below zero; from then on every push panics as well. *)
Theorem pop_empty_panics vs :
  sp vs <= 0 ->
  vs_pop vs = (Panicked (RuntimeError "index out of range"),
               {| st := st vs; sp := sp vs - 1 |}) /\
  forall v, vs_push v {| st := st vs; sp := sp vs - 1 |} =
            (Panicked (RuntimeError "index out of range"),
             {| st := st vs; sp := sp vs - 1 |}).
Proof.
  intros Hsp. split.
  - unfold vs_pop, index.
    replace (0 <=? sp vs - 1) with false by (symmetry; apply Z.leb_gt; lia). reflexivity.
  - intros v. unfold vs_push, in_range. simpl.
    replace (sp vs - 1 =? Z.of_nat (length (st vs))) with false
      by (symmetry; apply Z.eqb_neq; lia).
    replace (0 <=? sp vs - 1) with false by (symmetry; apply Z.leb_gt; lia). reflexivity.
Qed.

(** X3: push and pop keep a stack in order: the pointer stays within the
    backing slice and every slot from the pointer up holds [Nil], so a
    popped value is never kept alive by the slice; a push grows the
    slice only when the pointer is at its end. *)
Theorem stack_stays_tidy vs :
  tidy vs ->
  (forall v r vs', vs_push v vs = (r, vs') ->
     r = Ok tt /\ tidy vs' /\
     length (st vs') = if sp vs =? Z.of_nat (length (st vs))
                       then S (length (st vs)) else length (st vs)) /\
  (forall v vs', vs_pop vs = (Ok v, vs') ->
     tidy vs' /\ length (st vs') = length (st vs)).
Proof.
  intros Ht. split.
  - intros v r vs' Hp. split; [|split].
    + destruct Ht as [Hwf _]. destruct (vs_push_ok vs v Hwf) as (vs1 & Hp1 & _). congruence.
    + eapply vs_push_tidy; eauto.
    + unfold vs_push in Hp. destruct (sp vs =? Z.of_nat (length (st vs))).
      * inversion Hp; subst. simpl. rewrite length_app. simpl. lia.
      * destruct (in_range (st vs) (sp vs)); inversion Hp; subst; simpl; auto.
        unfold store. apply length_insert.
  - intros v vs' Hp. split; [eapply vs_pop_tidy; [apply Ht|exact Hp]|].
    unfold vs_pop in Hp. destruct (index (st vs) (sp vs - 1)); [|discriminate].
    inversion Hp; subst. simpl. unfold store. apply length_insert.
Qed.

(** X4: on a bookmark stack in order, a push followed by a pop gives the
    depth back and restores the pointer; the popped slot keeps the
    depth (the bookmark stack clears nothing). *)
Theorem bkm_push_pop bs i :
  bs_wf bs ->
  exists bs1 bs2,
    bs_push i bs = (Ok tt, bs1) /\ bs_pop bs1 = (Ok i, bs2) /\
    bsp bs2 = bsp bs /\ bs_wf bs2 /\
    take (Z.to_nat (bsp bs)) (bst bs2) = take (Z.to_nat (bsp bs)) (bst bs) /\
    index (bst bs2) (bsp bs) = Some i.
Proof.
  unfold bs_wf, bs_push, bs_pop. intros Hwf.
  destruct (bsp bs =? Z.of_nat (length (bst bs))) eqn:E.
  - apply Z.eqb_eq in E. eexists. eexists. split; [reflexivity|]. simpl.
    replace (bsp bs + 1 - 1) with (bsp bs) by lia.
    assert (Hi : index (bst bs ++ [i]) (bsp bs) = Some i).
    { apply index_Some. rewrite length_app. simpl. split; [lia|].
      rewrite lookup_app_r by lia. replace (Z.to_nat (bsp bs) - length (bst bs))%nat with O by lia.
      reflexivity. }
    rewrite Hi. split; [reflexivity|]. simpl. rewrite length_app. simpl.
    split; [reflexivity|]. split; [lia|]. split; [|exact Hi].
    rewrite take_app_le by lia. reflexivity.
  - apply Z.eqb_neq in E. unfold in_range.
    destruct (0 <=? bsp bs) eqn:E0; [|apply Z.leb_gt in E0; lia].
    destruct (bsp bs <? Z.of_nat (length (bst bs))) eqn:E1; [|apply Z.ltb_ge in E1; lia].
    simpl. eexists. eexists. split; [reflexivity|]. simpl.
    replace (bsp bs + 1 - 1) with (bsp bs) by lia.
    rewrite index_insert_eq by lia. split; [reflexivity|]. simpl.
    unfold store. rewrite length_insert. split; [reflexivity|]. split; [lia|].
    split; [apply take_insert_ge; lia|]. apply index_insert_eq. lia.
Qed.


(** ** The operand stack through a run *)

Section StackInvariant.
Context {H : Type} `{!Host H}.

Lemma keeps_ret {A} (a : A) : keeps (H:=H) (ret a).
Proof. intros s r s' [= <- <-] Ht _ _. exact Ht. Qed.

Lemma keeps_panic {A} p : keeps (H:=H) (A:=A) (panic p).
Proof. intros s r s' [= <- <-] _ a. discriminate. Qed.

Lemma keeps_fuel {A} : keeps (H:=H) (A:=A) (fun s => (OutOfFuel, s)).
Proof. intros s r s' [= <- <-] _ a. discriminate. Qed.

Lemma keeps_bind {A B} (m : M (State H) A) (k : A -> M (State H) B) :
  keeps m -> (forall a, keeps (k a)) -> keeps (bind m k).
Proof.
  intros Hm Hk s r s' Heq Ht b Hr. unfold bind in Heq.
  destruct (m s) as [[a|p|] s1] eqn:Em.
  - eapply Hk; [exact Heq|eapply Hm; eauto|exact Hr].
  - inversion Heq; subst. discriminate.
  - inversion Heq; subst. discriminate.
Qed.

(** A computation that leaves the operand stack alone. *)
Lemma keeps_same {A} (m : M (State H) A) :
  (forall s r s', m s = (r, s') -> stk (vm s') = stk (vm s)) -> keeps m.
Proof. intros Hm s r s' Heq Ht a _. rewrite (Hm _ _ _ Heq). exact Ht. Qed.

Lemma keeps_get_vm : keeps (H:=H) get_vm.
Proof. apply keeps_same. intros s r s' [= <- <-]. reflexivity. Qed.

Lemma keeps_at_index {A} (l : list A) i : keeps (H:=H) (at_index l i).
Proof. unfold at_index. destruct (index l i); [apply keeps_ret|apply keeps_panic]. Qed.

Lemma keeps_push v : keeps (H:=H) (push v).
Proof.
  intros s r s' Heq Ht a _. unfold push, on_stk, on_vm, zoom in Heq.
  destruct (vs_push v (stk (vm s))) as [r0 t] eqn:E. inversion Heq; subst. simpl.
  eapply vs_push_tidy; eauto.
Qed.

Lemma keeps_pop : keeps (H:=H) pop.
Proof.
  intros s r s' Heq Ht a Hr. unfold pop, on_stk, on_vm, zoom in Heq.
  destruct (vs_pop (stk (vm s))) as [r0 t] eqn:E. inversion Heq; subst. simpl.
  eapply vs_pop_tidy; [apply Ht|exact E].
Qed.

Lemma keeps_on_world {A} (m : M (World H) A) : keeps (on_world m).
Proof.
  apply keeps_same. intros s r s' Heq. unfold on_world, zoom in Heq.
  destruct (m (world s)). inversion Heq; subst. reflexivity.
Qed.

Lemma keeps_on_bkm {A} (m : M bkmStack A) : keeps (H:=H) (on_bkm m).
Proof.
  apply keeps_same. intros s r s' Heq. unfold on_bkm, on_vm, zoom in Heq.
  destruct (m (bkm (vm s))). inversion Heq; subst. reflexivity.
Qed.

Lemma keeps_on_rng {A} (m : M rangeStack A) : keeps (H:=H) (on_vm (zoom rng set_rng m)).
Proof.
  apply keeps_same. intros s r s' Heq. unfold on_vm, zoom in Heq.
  destruct (m (rng (vm s))). inversion Heq; subst. reflexivity.
Qed.

Lemma keeps_on_vm_modify (f : agoraFuncVM -> agoraFuncVM) :
  (forall v, stk (f v) = stk v) -> keeps (H:=H) (on_vm (modify f)).
Proof.
  intros Hf. apply keeps_same. intros s r s' Heq. unfold on_vm, zoom, modify in Heq.
  inversion Heq; subst. simpl. apply Hf.
Qed.

Lemma keeps_modify_state (f : State H -> State H) :
  (forall s, stk (vm (f s)) = stk (vm s)) -> keeps (modify f).
Proof. intros Hf. apply keeps_same. intros s r s' [= <- <-]. apply Hf. Qed.

Lemma keeps_getVar nm : keeps (H:=H) (getVar nm).
Proof.
  apply keeps_same. intros s r s' Heq. unfold getVar in Heq.
  destruct (ctx_getVar nm (vm s) (world s)); inversion Heq; subst; reflexivity.
Qed.

Lemma keeps_setVar nm v : keeps (H:=H) (setVar nm v).
Proof.
  apply keeps_same. intros s r s' Heq. unfold setVar in Heq.
  destruct (ctx_setVar nm v (vm s) (world s)) as [[vs w]|]; inversion Heq; subst; reflexivity.
Qed.

Ltac keeps_step :=
  match goal with
  | |- keeps (bind _ _) => apply keeps_bind; [|intros]
  | |- keeps (ret _) => apply keeps_ret
  | |- keeps (panic _) => apply keeps_panic
  | |- keeps index_panic => apply keeps_panic
  | |- keeps nil_panic => apply keeps_panic
  | |- keeps get_vm => apply keeps_get_vm
  | |- keeps (at_index _ _) => apply keeps_at_index
  | |- keeps (push _) => apply keeps_push
  | |- keeps pop => apply keeps_pop
  | |- keeps (on_world _) => apply keeps_on_world
  | |- keeps (on_bkm _) => apply keeps_on_bkm
  | |- keeps (on_vm (zoom rng set_rng _)) => apply keeps_on_rng
  | |- keeps (on_vm (modify _)) => apply keeps_on_vm_modify; intros; reflexivity
  | |- keeps (add_pc _) => apply keeps_on_vm_modify; intros; reflexivity
  | |- keeps createLocals => apply keeps_on_vm_modify; intros; reflexivity
  | |- keeps (modify _) => apply keeps_modify_state; intros; reflexivity
  | |- keeps (getVar _) => apply keeps_getVar
  | |- keeps (setVar _ _) => apply keeps_setVar
  | |- keeps (fun s => (OutOfFuel, s)) => apply keeps_fuel
  | |- keeps (match ?x with _ => _ end) => destruct x
  end.

Lemma keeps_pop_args_loop j : forall a, keeps (H:=H) (pop_args_loop j a).
Proof. induction j; intros; simpl; repeat keeps_step. apply IHj. Qed.

Lemma keeps_pop_args ix : keeps (H:=H) (pop_args ix).
Proof. unfold pop_args. repeat keeps_step. apply keeps_pop_args_loop. Qed.

Lemma keeps_push_all vals : keeps (H:=H) (push_all vals).
Proof. induction vals; simpl; repeat keeps_step. exact IHvals. Qed.

Lemma keeps_new_loop j ob : keeps (H:=H) (new_loop j ob).
Proof. induction j; simpl; repeat keeps_step. exact IHj. Qed.

Lemma keeps_rngp_loop n : forall j vals, keeps (H:=H) (rngp_loop n j vals).
Proof. induction n; intros; simpl; repeat keeps_step; apply IHn. Qed.

Lemma keeps_bkme_loop n b ix : keeps (H:=H) (bkme_loop n b ix).
Proof. induction n; simpl; repeat keeps_step; try exact IHn. Qed.

Lemma keeps_rng_pop : keeps (H:=H) rng_pop.
Proof. unfold rng_pop. repeat keeps_step. Qed.

Lemma keeps_rng_clear_loop n : keeps (H:=H) (rng_clear_loop n).
Proof. induction n; simpl; repeat keeps_step; [apply keeps_rng_pop|exact IHn]. Qed.

Lemma keeps_exec op flg ix : keeps (H:=H) (exec op flg ix).
Proof.
  destruct op; unfold exec, binary, compare, getVal, bkme, rng_push, rs_store;
    repeat first [ keeps_step
                 | apply keeps_pop_args | apply keeps_push_all | apply keeps_new_loop
                 | apply keeps_rngp_loop | apply keeps_bkme_loop | apply keeps_rng_pop ].
Qed.

Lemma keeps_bind_args n : forall j argv, keeps (H:=H) (bind_args n j argv).
Proof. induction n; intros; simpl; repeat keeps_step; apply IHn. Qed.

Lemma keeps_enter argv : keeps (H:=H) (enter argv).
Proof. unfold enter. repeat keeps_step. apply keeps_bind_args. Qed.

Lemma keeps_step_ : keeps (H:=H) step.
Proof. unfold step. repeat keeps_step. apply keeps_exec. Qed.

Lemma keeps_loop fuel : keeps (H:=H) (loop fuel).
Proof. induction fuel; simpl; repeat keeps_step; [apply keeps_step_|exact IHfuel]. Qed.

(** X5: a run that returns, by RET or by YLD, leaves the operand stack
    in order if it found it so, whatever the code, the arguments and the
    host did: the pointer within the backing slice and no popped value
    left in a slot above it. *)
Theorem run_keeps_stack_tidy fuel argv (s : State H) vals s' :
  tidy (stk (vm s)) ->
  run fuel argv s = (Ok vals, s') ->
  tidy (stk (vm s')).
Proof.
  intros Ht Hrun. unfold run in Hrun.
  destruct (run_body fuel argv s) as [r s1] eqn:Eb.
  assert (Hb : forall a, r = Ok a -> tidy (stk (vm s1))).
  { assert (Hk : keeps (H:=H) (run_body fuel argv)).
    { unfold run_body. repeat keeps_step; [apply keeps_enter|apply keeps_loop]. }
    exact (Hk _ _ _ Eb Ht). }
  unfold teardown in Hrun. destruct r as [a|p|]; [|destruct (clearRange s1)|discriminate].
  - destruct (clearRange s1).
    + destruct (rng_clear s1) as [[[]|p|] s2] eqn:Ec; inversion Hrun; subst.
      assert (Hk : keeps (H:=H) rng_clear).
      { unfold rng_clear. repeat keeps_step. apply keeps_rng_clear_loop. }
      exact (Hk _ _ _ Ec (Hb _ eq_refl) _ eq_refl).
    + inversion Hrun; subst. exact (Hb _ eq_refl).
  - destruct (rng_clear s1) as [[[]|?|] ?]; discriminate.
  - discriminate.
Qed.

End StackInvariant.


(** ** How a run returns *)

Lemma bind_Ok {S A B} (m : M S A) (k : A -> M S B) s b s' :
  bind m k s = (Ok b, s') -> exists a s1, m s = (Ok a, s1) /\ k a s1 = (Ok b, s').
Proof.
  unfold bind. destruct (m s) as [[a|p|] s1]; try discriminate. eauto.
Qed.

Section Returns.
Context {H : Type} `{!Host H}.

Lemma step_returns (s : State H) vals s' :
  step s = (Ok (Some vals), s') ->
  (exists v, vals = [v]) /\ (at_op s' OP_RET \/ at_op s' OP_YLD).
Proof.
  intros Hstep. unfold step in Hstep.
  apply bind_Ok in Hstep as (f & s0 & Hf & Hstep). inversion Hf; subst f s0.
  apply bind_Ok in Hstep as (i & s0 & Hi & Hstep).
  unfold at_index in Hi. destruct (index (code (proto (vm s))) (pc (vm s))) as [i0|] eqn:Ei;
    [|discriminate]. inversion Hi; subst i0 s0.
  apply bind_Ok in Hstep as ([] & s1 & Hm & Hstep).
  unfold on_vm, zoom, modify in Hm. inversion Hm; subst s1. clear Hm Hi Hf.
  assert (Hat : forall s2 : State H, proto (vm s2) = proto (vm s) ->
                  pc (vm s2) = pc (vm s) + 1 -> at_op s2 (i_op i)).
  { intros s2 Hp Hpc. exists i. rewrite Hp, Hpc.
    replace (pc (vm s) + 1 - 1) with (pc (vm s)) by lia. auto. }
  assert (Hop : i_op i = OP_RET \/ i_op i = OP_YLD \/ (i_op i <> OP_RET /\ i_op i <> OP_YLD)).
  { destruct (i_op i); auto; right; right; split; discriminate. }
  destruct Hop as [Hop|[Hop|[Hn1 Hn2]]].
  - rewrite Hop in *. apply exec_RET in Hstep as ((_ & Hp & _) & Hpc & _ & Hx).
    destruct (Hx _ eq_refl) as [v [= ->]]. split; [eauto|]. left. apply Hat; auto.
  - rewrite Hop in *. apply exec_YLD in Hstep as (Hp & _ & _ & Hpc & _ & _ & Hx).
    destruct (Hx _ eq_refl) as [[v [= ->]] _]. split; [eauto|]. right. apply Hat; auto.
  - destruct (spec_exec _ (i_flg i) (Index i) Hn1 Hn2 _ _ _ Hstep) as [_ Hx].
    discriminate (Hx _ eq_refl).
Qed.

Lemma loop_returns fuel : forall (s : State H) vals s',
  loop fuel s = (Ok vals, s') ->
  (exists v, vals = [v]) /\ (at_op s' OP_RET \/ at_op s' OP_YLD).
Proof.
  induction fuel as [|fuel IH]; intros s vals s' Hl; simpl in Hl; [discriminate|].
  apply bind_Ok in Hl as ([vs|] & s1 & Hs & Hl).
  - inversion Hl; subst. eapply step_returns; eauto.
  - eapply IH; eauto.
Qed.

(** X6: a run never returns but through a RET or a YLD, and then it
    returns exactly one value. *)
Theorem run_returns_one_value fuel argv (s : State H) vals s' :
  run fuel argv s = (Ok vals, s') ->
  (exists v, vals = [v]) /\ (at_op s' OP_RET \/ at_op s' OP_YLD).
Proof.
  intros Hrun. unfold run in Hrun.
  destruct (run_body fuel argv s) as [r s1] eqn:Eb.
  destruct (teardown_frame _ _ _ _ Hrun) as (Hpc & Hp & _).
  assert (Hr : r = Ok vals).
  { unfold teardown in Hrun. destruct r; destruct (clearRange s1);
      try destruct (rng_clear s1) as [[[]|?|] ?]; inversion Hrun; reflexivity. }
  subst r. unfold run_body in Eb.
  apply bind_Ok in Eb as (? & s2 & _ & Eb). apply bind_Ok in Eb as (? & s3 & _ & Eb).
  apply loop_returns in Eb as [Hv Hat]. split; [exact Hv|].
  destruct Hat; [left|right]; eapply at_op_same; eauto.
Qed.

(** X7: RET and YLD hand back the value on top of the operand stack and
    remove it; RET leaves no suspended frame on the function value and
    YLD leaves this one, and only YLD unsets [clearRange]; neither moves
    the program counter again nor touches the range stack. *)
Theorem ret_yld_return_top flg ix (s : State H) base v :
  vs_wf (stk (vm s)) ->
  live (stk (vm s)) = base ++ [v] ->
  (exists s', exec OP_RET flg ix s = (Ok (Some [v]), s') /\
              live (stk (vm s')) = base /\ coroState (world s') = None /\
              clearRange s' = clearRange s /\ pc (vm s') = pc (vm s) /\
              rng (vm s') = rng (vm s)) /\
  (exists s', exec OP_YLD flg ix s = (Ok (Some [v]), s') /\
              live (stk (vm s')) = base /\
              coroState (world s') = Some (self (vm s)) /\
              clearRange s' = false /\ pc (vm s') = pc (vm s) /\
              rng (vm s') = rng (vm s)).
Proof.
  intros Hwf Hl. split.
  - set (s0 := set_world (set_coroState None (world s)) s).
    destruct (pop_ok s0 base v Hwf Hl) as (s' & Hp & Ho & Hl' & _).
    exists s'. unfold exec, bind, on_world, zoom, modify. fold s0. rewrite Hp.
    split; [reflexivity|]. split; [exact Hl'|]. rewrite Ho. simpl. auto.
  - set (s0 := set_clearRange false
                 (set_world (set_coroState (Some (self (vm s))) (world s)) s)).
    destruct (pop_ok s0 base v Hwf Hl) as (s' & Hp & Ho & Hl' & _).
    exists s'. unfold exec, bind, get_vm, on_world, zoom, modify. fold s0. rewrite Hp.
    split; [reflexivity|]. split; [exact Hl'|]. rewrite Ho. simpl. auto.
Qed.

Lemma getVal_frame flg ix (s : State H) r s' :
  getVal flg ix s = (r, s') -> vm s' = vm s /\ clearRange s' = clearRange s.
Proof.
  unfold getVal, bind, get_vm, at_index, getVar, on_world, zoom, ret, panic, index_panic.
  destruct flg; try (intros [= <- <-]; auto; fail).
  - destruct (index (kTable (proto (vm s))) ix); intros [= <- <-]; auto.
  - destruct (index (kTable (proto (vm s))) ix); [|intros [= <- <-]; auto].
    destruct (ctx_getVar _ _ _); intros [= <- <-]; auto.
  - destruct (index (mod_fns (proto (vm s))) ix); [|intros [= <- <-]; auto].
    unfold panic. destruct (newAgoraFuncVal _ _ _) as [r0 w]. intros [= <- <-]. auto.
Qed.

(** X8: a PUSH and the POP after it leave the operand stack as it was,
    and what POP writes to its variable is the value PUSH resolved. *)
Theorem push_then_pop flg ix flg' ix' (s s1 s2 : State H) :
  vs_wf (stk (vm s)) ->
  exec OP_PUSH flg ix s = (Ok None, s1) ->
  exec OP_POP flg' ix' s1 = (Ok None, s2) ->
  live (stk (vm s2)) = live (stk (vm s)) /\ sp (stk (vm s2)) = sp (stk (vm s)) /\
  exists v k sa sb,
    getVal flg ix s = (Ok v, sa) /\
    index (kTable (proto (vm s))) ix' = Some k /\
    setVar (Val_String k) v sb = (Ok tt, s2) /\ stk (vm sb) = stk (vm s2).
Proof.
  intros Hwf Hpush Hpop. unfold exec in Hpush, Hpop.
  apply bind_Ok in Hpush as (v & sa & Hg & Hpush).
  apply bind_Ok in Hpush as ([] & sa' & Hpu & Hr). inversion Hr; subst sa'. clear Hr.
  destruct (getVal_frame _ _ _ _ _ Hg) as [Hvm _].
  assert (Hwfa : vs_wf (stk (vm sa))) by (rewrite Hvm; exact Hwf).
  destruct (push_ok sa v Hwfa) as (s1' & Hpu' & Ho1 & Hl1 & Hw1 & Hs1).
  rewrite Hpu in Hpu'. inversion Hpu'; subst s1'. clear Hpu'.
  apply bind_Ok in Hpop as (f & s0 & Hf & Hpop). inversion Hf; subst f s0. clear Hf.
  apply bind_Ok in Hpop as (k & s0 & Hk & Hpop).
  unfold at_index in Hk. destruct (index (kTable (proto (vm s1))) ix') as [k0|] eqn:Ek;
    [|discriminate]. inversion Hk; subst k0 s0. clear Hk.
  apply bind_Ok in Hpop as (v' & sb & Hpo & Hpop).
  apply bind_Ok in Hpop as ([] & s2' & Hset & Hr). inversion Hr; subst s2'. clear Hr.
  destruct (pop_ok s1 (live (stk (vm sa))) v Hw1 Hl1) as (sb' & Hpo' & Hob & Hlb & Hwb & Hsb).
  rewrite Hpo in Hpo'. inversion Hpo'; subst v' sb'. clear Hpo'.
  assert (Hstk : stk (vm s2) = stk (vm sb)).
  { unfold setVar in Hset. destruct (ctx_setVar _ _ _ _) as [[vs w]|]; inversion Hset.
    reflexivity. }
  rewrite Hstk, Hlb, Hsb, Hs1, Hvm. split; [reflexivity|]. split; [lia|].
  exists v, k, sa, sb. split; [exact Hg|]. split; [|auto].
  rewrite <- Hvm. rewrite Ho1 in Ek. exact Ek.
Qed.

End Returns.


(** ** Operators and jumps *)

Lemma to_int_small z : - 2 ^ 63 <= z < 2 ^ 63 -> to_int z = z.
Proof. intros Hz. unfold to_int. rewrite Z.mod_small by lia. lia. Qed.

Section Operators.
Context {H : Type} `{!Host H}.

Lemma pop2_ok (s : State H) base x y :
  vs_wf (stk (vm s)) -> live (stk (vm s)) = base ++ [x; y] ->
  exists s1 s2,
    pop s = (Ok y, s1) /\ pop s1 = (Ok x, s2) /\ stk_only s s2 /\
    live (stk (vm s2)) = base /\ vs_wf (stk (vm s2)).
Proof.
  intros Hwf Hl.
  destruct (pop_ok s (base ++ [x]) y Hwf) as (s1 & Hp1 & Ho1 & Hl1 & Hw1 & _).
  { rewrite Hl, <- app_assoc. reflexivity. }
  destruct (pop_ok s1 base x Hw1 Hl1) as (s2 & Hp2 & Ho2 & Hl2 & Hw2 & _).
  exists s1, s2. split; [exact Hp1|]. split; [exact Hp2|].
  split; [eapply stk_only_trans; eauto|]. split; [exact Hl2|exact Hw2].
Qed.

(** X9: the binary arithmetic opcodes take the right operand from the
    top of the stack and the left one below it, hand them to the
    strategy in the order (left, right), and push its result in their
    place. *)
Theorem binary_operand_order op f flg ix (s : State H) base x y r w' :
  arith_of op = Some f ->
  vs_wf (stk (vm s)) ->
  live (stk (vm s)) = base ++ [x; y] ->
  f x y (world s) = (Ok r, w') ->
  exists s',
    exec op flg ix s = (Ok None, s') /\
    live (stk (vm s')) = base ++ [r] /\ world s' = w' /\
    pc (vm s') = pc (vm s) /\ vars (vm s') = vars (vm s).
Proof.
  intros Hop Hwf Hl Hf.
  destruct (pop2_ok s base x y Hwf Hl) as (s1 & s2 & Hp1 & Hp2 & Ho & Hl2 & Hw2).
  assert (Hw : world s2 = world s) by (rewrite Ho; reflexivity).
  destruct (push_ok (set_world w' s2) r Hw2) as (s3 & Hp3 & Ho3 & Hl3 & _).
  assert (Hb : binary f s = (Ok tt, s3)).
  { unfold binary, bind. rewrite Hp1, Hp2. unfold on_world, zoom. rewrite Hw, Hf.
    exact Hp3. }
  exists s3. split.
  - destruct op; try discriminate; inversion Hop; subst f;
      unfold exec, bind; rewrite Hb; reflexivity.
  - rewrite Hl3. simpl. rewrite Hl2. split; [reflexivity|].
    rewrite Ho3. simpl. rewrite Ho. simpl. auto.
Qed.

(** X10: a comparison opcode compares the value below the top (left)
    with the top (right) through the comparer and pushes, in their
    place, the boolean that says whether the result [c] stands in the
    relation of the opcode to 0. *)
Theorem compare_pushes_relation op flg ix (s : State H) base x y c w' :
  is_compare op = true ->
  vs_wf (stk (vm s)) ->
  live (stk (vm s)) = base ++ [x; y] ->
  cmp_Cmp x y (world s) = (Ok c, w') ->
  exists s' b,
    exec op flg ix s = (Ok None, s') /\
    live (stk (vm s')) = base ++ [VBool b] /\ (b = true <-> rel_holds op c) /\
    world s' = w'.
Proof.
  intros Hop Hwf Hl Hc.
  destruct (pop2_ok s base x y Hwf Hl) as (s1 & s2 & Hp1 & Hp2 & Ho & Hl2 & Hw2).
  assert (Hw : world s2 = world s) by (rewrite Ho; reflexivity).
  assert (Hcmp : forall rel, exists s3,
             compare rel s = (Ok tt, s3) /\
             live (stk (vm s3)) = base ++ [VBool (rel c)] /\ world s3 = w').
  { intros rel.
    destruct (push_ok (set_world w' s2) (VBool (rel c)) Hw2) as (s3 & Hp3 & Ho3 & Hl3 & _).
    exists s3. split; [|split].
    - unfold compare, bind. rewrite Hp1, Hp2. unfold on_world, zoom. rewrite Hw, Hc.
      exact Hp3.
    - rewrite Hl3. simpl. rewrite Hl2. reflexivity.
    - rewrite Ho3. reflexivity. }
  destruct op; try discriminate; unfold exec, rel_holds.
  - destruct (Hcmp (fun c => c =? 0)) as (s3 & He & Hl3 & Hw3). exists s3, (c =? 0).
    unfold bind. rewrite He. repeat split; auto; [apply Z.eqb_eq|apply Z.eqb_eq].
  - destruct (Hcmp (fun c => negb (c =? 0))) as (s3 & He & Hl3 & Hw3).
    exists s3, (negb (c =? 0)). unfold bind. rewrite He. repeat split; auto.
    + intros Hb. apply negb_true_iff in Hb. apply Z.eqb_neq. exact Hb.
    + intros Hn. apply negb_true_iff. apply Z.eqb_neq. exact Hn.
  - destruct (Hcmp (fun c => c <? 0)) as (s3 & He & Hl3 & Hw3). exists s3, (c <? 0).
    unfold bind. rewrite He. repeat split; auto; apply Z.ltb_lt.
  - destruct (Hcmp (fun c => c <=? 0)) as (s3 & He & Hl3 & Hw3). exists s3, (c <=? 0).
    unfold bind. rewrite He. repeat split; auto; apply Z.leb_le.
  - destruct (Hcmp (fun c => c >? 0)) as (s3 & He & Hl3 & Hw3). exists s3, (c >? 0).
    unfold bind. rewrite He. repeat split; auto; rewrite Z.gtb_ltb, Z.ltb_lt; lia.
  - destruct (Hcmp (fun c => c >=? 0)) as (s3 & He & Hl3 & Hw3). exists s3, (c >=? 0).
    unfold bind. rewrite He. repeat split; auto; rewrite Z.geb_leb, Z.leb_le; lia.
Qed.

(** X11: TEST pops a value and, when it is falsy, skips [ix]
    instructions past the one after the TEST; when it is truthy the
    program counter stays on the next instruction. *)
Theorem test_skips_on_falsy flg ix (s : State H) base x b w' :
  vs_wf (stk (vm s)) ->
  live (stk (vm s)) = base ++ [x] ->
  Val_Bool x (world s) = (Ok b, w') ->
  0 <= ix < 2 ^ 63 -> is_int (pc (vm s) + ix) ->
  exists s',
    exec OP_TEST flg ix s = (Ok None, s') /\
    live (stk (vm s')) = base /\ world s' = w' /\
    pc (vm s') = (if b then pc (vm s) else pc (vm s) + ix).
Proof.
  intros Hwf Hl Hb Hix Hpc. unfold is_int in Hpc.
  destruct (pop_ok s base x Hwf Hl) as (s1 & Hp & Ho & Hl1 & _).
  assert (Hw : world s1 = world s) by (rewrite Ho; reflexivity).
  assert (Hpc1 : pc (vm s1) = pc (vm s)) by (rewrite Ho; reflexivity).
  unfold exec, bind. rewrite Hp. unfold on_world, zoom. rewrite Hw, Hb.
  destruct b; unfold ret, add_pc, on_vm, zoom, modify; eexists; (split; [reflexivity|]); simpl.
  - auto.
  - rewrite Hpc1. rewrite (to_int_small ix) by lia. rewrite to_int_small by lia. auto.
Qed.

(** X12: a JMP at the index [p] goes to [p + 1 + ix] when its flag is
    the forward one and to [p - ix] otherwise, and changes nothing else
    in the frame. *)
Theorem jmp_target (s : State H) i :
  index (code (proto (vm s))) (pc (vm s)) = Some i ->
  i_op i = OP_JMP ->
  0 <= i_ix i < 2 ^ 62 -> pc (vm s) < 2 ^ 62 ->
  step s =
    (Ok None,
     set_vm (set_pc (if decide (i_flg i = FLG_Jf) then pc (vm s) + 1 + i_ix i
                     else pc (vm s) - i_ix i) (vm s)) s).
Proof.
  intros Hi Hop Hix Hpc. apply index_Some in Hi as Hr. destruct Hr as [Hr _].
  unfold step. unfold bind at 1, get_vm at 1. unfold bind at 1, at_index. rewrite Hi.
  unfold ret at 1. unfold bind at 1. unfold on_vm at 1, zoom, modify. rewrite Hop.
  unfold exec, Index. rewrite to_uint64_small by lia.
  rewrite (to_int_small (i_ix i)) by lia.
  destruct (decide (i_flg i = FLG_Jf)); unfold bind, add_pc, on_vm, zoom, modify, ret; simpl.
  - rewrite to_int_small by lia. reflexivity.
  - rewrite (to_int_small (i_ix i + 1)) by lia. rewrite to_int_small by lia.
    replace (pc (vm s) + 1 + - (i_ix i + 1)) with (pc (vm s) - i_ix i) by lia.
    reflexivity.
Qed.

Lemma jmp_step_back (s : State H) i :
  index (code (proto (vm s))) (pc (vm s)) = Some i ->
  i_op i = OP_JMP -> i_flg i <> FLG_Jf -> i_ix i = 0 ->
  pc (vm s) < 2 ^ 62 ->
  step s = (Ok None, set_vm (set_pc (pc (vm s)) (vm s)) s).
Proof.
  intros Hi Hop Hflg Hix Hpc. apply index_Some in Hi as Hr. destruct Hr as [Hr _].
  unfold step. unfold bind at 1, get_vm at 1. unfold bind at 1, at_index. rewrite Hi.
  unfold ret at 1. unfold bind at 1. unfold on_vm at 1, zoom, modify. rewrite Hop.
  unfold exec, Index. rewrite Hix.
  destruct (decide (i_flg i = FLG_Jf)); [contradiction|].
  unfold bind, add_pc, on_vm, zoom, modify, ret. simpl.
  change (to_int (to_int (to_uint64 0) + 1)) with 1.
  rewrite to_int_small by lia.
  replace (pc (vm s) + 1 + - (1)) with (pc (vm s)) by lia. reflexivity.
Qed.

(** X13: a backward JMP of magnitude 0 jumps to itself: the dispatch
    loop never leaves it, whatever the number of instructions it is
    allowed. *)
Theorem jmp_to_itself_never_ends (s : State H) i :
  index (code (proto (vm s))) (pc (vm s)) = Some i ->
  i_op i = OP_JMP -> i_flg i <> FLG_Jf -> i_ix i = 0 ->
  pc (vm s) < 2 ^ 62 ->
  forall fuel, exists s', loop fuel s = (OutOfFuel, s') /\ pc (vm s') = pc (vm s).
Proof.
  intros Hi Hop Hflg Hix Hpc fuel. revert s Hi Hpc.
  induction fuel as [|fuel IH]; intros s Hi Hpc; simpl.
  - eauto.
  - unfold bind. rewrite (jmp_step_back s i) by auto.
    destruct (IH (set_vm (set_pc (pc (vm s)) (vm s)) s)) as (s' & Hl & Hp); auto.
    exists s'. split; [exact Hl|exact Hp].
Qed.

End Operators.


(** ** Arguments, calls and fields *)

Section Calls.
Context {H : Type} `{!Host H}.

Lemma pop_args_loop_ok j : forall acc (s : State H) base argv,
  length acc = length argv -> (j <= length argv)%nat ->
  drop j acc = drop j argv ->
  vs_wf (stk (vm s)) -> live (stk (vm s)) = base ++ take j argv ->
  exists s', pop_args_loop j acc s = (Ok argv, s') /\ stk_only s s' /\
             live (stk (vm s')) = base /\ vs_wf (stk (vm s')).
Proof.
  induction j as [|j IH]; intros acc s base argv Hlen Hj Hd Hwf Hl; simpl.
  - exists s. rewrite !drop_0 in Hd. subst acc. rewrite take_0, app_nil_r in Hl.
    split; [reflexivity|]. split; [apply stk_only_refl|auto].
  - destruct (lookup_lt_is_Some_2 argv j) as [a Ha]; [lia|].
    destruct (pop_ok s (base ++ take j argv) a Hwf) as (s1 & Hp & Ho & Hl1 & Hw1 & _).
    { rewrite Hl. erewrite take_S_r by exact Ha. rewrite app_assoc. reflexivity. }
    destruct (IH (<[j := a]> acc) s1 base argv) as (s' & Hr & Ho' & Hl' & Hw'); auto.
    + rewrite length_insert. exact Hlen.
    + lia.
    + rewrite (drop_S argv a j Ha).
      rewrite (drop_S (<[j := a]> acc) a j) by (apply list_lookup_insert_eq; lia).
      f_equal. rewrite drop_insert_lt by lia. exact Hd.
    + exists s'. unfold bind. rewrite Hp. split; [exact Hr|].
      split; [eapply stk_only_trans; eauto|auto].
Qed.

Lemma pop_args_ok ix (s : State H) base argv :
  Z.of_nat (length argv) = ix -> ix < 2 ^ 63 ->
  vs_wf (stk (vm s)) -> live (stk (vm s)) = base ++ argv ->
  exists s', pop_args ix s = (Ok argv, s') /\ stk_only s s' /\
             live (stk (vm s')) = base /\ vs_wf (stk (vm s')).
Proof.
  intros Hix Hlt Hwf Hl. unfold pop_args.
  replace (2 ^ 63 <=? ix) with false by (symmetry; apply Z.leb_gt; lia).
  replace (Z.to_nat ix) with (length argv) by lia.
  apply pop_args_loop_ok; auto.
  - apply length_replicate.
  - rewrite !drop_ge by (rewrite ?length_replicate; lia). reflexivity.
  - rewrite take_ge by lia. exact Hl.
Qed.



(** X15: CALL, for any number [ix] of arguments: with a function on top
    of the stack and [ix] values below it, the function is called,
    without [this], on these values in the order they were pushed; its
    results replace them and it on the stack, and a panic of the
    function is the panic of the instruction. *)
Theorem call_any_arity flg ix (s : State H) base argv fn :
  Z.of_nat (length argv) = ix -> ix < 2 ^ 63 ->
  vs_wf (stk (vm s)) ->
  live (stk (vm s)) = base ++ argv ++ [VFunc fn] ->
  (forall vals w', Func_Call fn argv (world s) = (Ok vals, w') ->
     exists s', exec OP_CALL flg ix s = (Ok None, s') /\
                live (stk (vm s')) = base ++ vals /\ world s' = w') /\
  (forall p w', Func_Call fn argv (world s) = (Panicked p, w') ->
     exists s', exec OP_CALL flg ix s = (Panicked p, s') /\
                live (stk (vm s')) = base /\ world s' = w').
Proof.
  intros Hix Hlt Hwf Hl.
  destruct (pop_ok s (base ++ argv) (VFunc fn) Hwf) as (s1 & Hp1 & Ho1 & Hl1 & Hw1 & _).
  { rewrite Hl, app_assoc. reflexivity. }
  destruct (pop_args_ok ix s1 base argv Hix Hlt Hw1 Hl1) as (s2 & Hp2 & Ho2 & Hl2 & Hw2).
  assert (Hw : world s2 = world s) by (rewrite Ho2; simpl; rewrite Ho1; reflexivity).
  split.
  - intros vals w' Hcall.
    destruct (push_all_ok vals (set_world w' s2) Hw2) as (s3 & Hp3 & Ho3 & Hl3 & _).
    exists s3. unfold exec, bind. rewrite Hp1, Hp2. unfold on_world, zoom.
    rewrite Hw, Hcall, Hp3. split; [reflexivity|]. split.
    + rewrite Hl3. simpl. rewrite Hl2. reflexivity.
    + rewrite Ho3. reflexivity.
  - intros p w' Hcall. exists (set_world w' s2).
    unfold exec, bind. rewrite Hp1, Hp2. unfold on_world, zoom. rewrite Hw, Hcall.
    split; [reflexivity|]. simpl. auto.
Qed.

(** X16: CFLD, for any number [ix] of arguments: the target is on top,
    the key below it and the [ix] arguments below the key; on an Object
    the method named by the key is called on the arguments in the order
    they were pushed and its results replace all of them; on any other
    target the instruction panics with a type mismatch, after the
    arguments were popped. *)
Theorem cfld_any_arity flg ix (s : State H) base argv k vr :
  Z.of_nat (length argv) = ix -> ix < 2 ^ 63 ->
  vs_wf (stk (vm s)) ->
  live (stk (vm s)) = base ++ argv ++ [k; vr] ->
  (forall ob vals w',
     vr = VObject ob -> Object_callMethod ob k argv (world s) = (Ok vals, w') ->
     exists s', exec OP_CFLD flg ix s = (Ok None, s') /\
                live (stk (vm s')) = base ++ vals /\ world s' = w') /\
  ((forall ob, vr <> VObject ob) ->
   exists s', exec OP_CFLD flg ix s = (Panicked (TypeError (Type_ vr) "" "object"), s') /\
              live (stk (vm s')) = base /\ world s' = world s).
Proof.
  intros Hix Hlt Hwf Hl.
  destruct (pop2_ok s (base ++ argv) k vr Hwf) as (s1 & s2 & Hp1 & Hp2 & Ho & Hl2 & Hw2).
  { rewrite Hl, app_assoc. reflexivity. }
  destruct (pop_args_ok ix s2 base argv Hix Hlt Hw2 Hl2) as (s3 & Hp3 & Ho3 & Hl3 & Hw3).
  assert (Hw : world s3 = world s) by (rewrite Ho3; simpl; rewrite Ho; reflexivity).
  split.
  - intros ob vals w' -> Hcall.
    destruct (push_all_ok vals (set_world w' s3) Hw3) as (s4 & Hp4 & Ho4 & Hl4 & _).
    exists s4. unfold exec, bind. rewrite Hp1, Hp2, Hp3. unfold on_world, zoom.
    rewrite Hw, Hcall, Hp4. split; [reflexivity|]. split.
    + rewrite Hl4. simpl. rewrite Hl3. reflexivity.
    + rewrite Ho4. reflexivity.
  - intros Hno. exists s3. unfold exec, bind. rewrite Hp1, Hp2, Hp3.
    destruct vr; try (split; [reflexivity|auto]). exfalso. exact (Hno o eq_refl).
Qed.

(** X17: a field access on a target that is no Object, and a call of a
    value that is no function, panic with a type mismatch that names
    the type of the value and the type expected; GFLD and SFLD have
    popped their operands by then, CALL only the callee. *)
Theorem type_mismatch_panics flg ix (s : State H) base :
  vs_wf (stk (vm s)) ->
  (forall k vr, live (stk (vm s)) = base ++ [k; vr] -> (forall ob, vr <> VObject ob) ->
     exists s', exec OP_GFLD flg ix s = (Panicked (TypeError (Type_ vr) "" "object"), s') /\
                live (stk (vm s')) = base) /\
  (forall vl k vr, live (stk (vm s)) = base ++ [vl; k; vr] -> (forall ob, vr <> VObject ob) ->
     exists s', exec OP_SFLD flg ix s = (Panicked (TypeError (Type_ vr) "" "object"), s') /\
                live (stk (vm s')) = base /\ world s' = world s) /\
  (forall x, live (stk (vm s)) = base ++ [x] -> (forall fn, x <> VFunc fn) ->
     exists s', exec OP_CALL flg ix s = (Panicked (TypeError (Type_ x) "" "func"), s') /\
                live (stk (vm s')) = base).
Proof.
  intros Hwf. split; [|split].
  - intros k vr Hl Hno.
    destruct (pop2_ok s base k vr Hwf Hl) as (s1 & s2 & Hp1 & Hp2 & Ho & Hl2 & Hw2).
    exists s2. unfold exec, bind. rewrite Hp1, Hp2.
    destruct vr; try (split; [reflexivity|auto]). exfalso. exact (Hno o eq_refl).
  - intros vl k vr Hl Hno.
    destruct (pop2_ok s (base ++ [vl]) k vr Hwf) as (s1 & s2 & Hp1 & Hp2 & Ho & Hl2 & Hw2).
    { rewrite Hl, <- app_assoc. reflexivity. }
    destruct (pop_ok s2 base vl Hw2 Hl2) as (s3 & Hp3 & Ho3 & Hl3 & _).
    assert (Hw : world s3 = world s) by (rewrite Ho3; simpl; rewrite Ho; reflexivity).
    exists s3. unfold exec, bind. rewrite Hp1, Hp2, Hp3.
    destruct vr; try (split; [reflexivity|auto]). exfalso. exact (Hno o eq_refl).
  - intros x Hl Hno.
    destruct (pop_ok s base x Hwf Hl) as (s1 & Hp1 & Ho1 & Hl1 & _).
    exists s1. unfold exec, bind. rewrite Hp1.
    destruct x; try (split; [reflexivity|auto]). exfalso. exact (Hno fn eq_refl).
Qed.

(** X18: SFLD takes, from the top, the target, the key and the value,
    and pushes nothing; a GFLD of the same key on the same Object, on
    any stack and before any other write to the Object, then pushes
    that value. *)
Theorem sfld_then_gfld flg ix flg' ix' (s : State H) base vl k o :
  vs_wf (stk (vm s)) ->
  live (stk (vm s)) = base ++ [vl; k; VObject o] ->
  exists s1,
    exec OP_SFLD flg ix s = (Ok None, s1) /\ live (stk (vm s1)) = base /\
    forall (s2 : State H) base2,
      heap (world s2) !! o = heap (world s1) !! o ->
      vs_wf (stk (vm s2)) -> live (stk (vm s2)) = base2 ++ [k; VObject o] ->
      exists s3, exec OP_GFLD flg' ix' s2 = (Ok None, s3) /\
                 live (stk (vm s3)) = base2 ++ [vl] /\ world s3 = world s2.
Proof.
  intros Hwf Hl.
  destruct (pop2_ok s (base ++ [vl]) k (VObject o) Hwf) as (s1 & s2 & Hp1 & Hp2 & Ho & Hl2 & Hw2).
  { rewrite Hl, <- app_assoc. reflexivity. }
  destruct (pop_ok s2 base vl Hw2 Hl2) as (s3 & Hp3 & Ho3 & Hl3 & _).
  eexists. split; [|split].
  - unfold exec, bind. rewrite Hp1, Hp2, Hp3, Object_Set_ok. reflexivity.
  - simpl. exact Hl3.
  - intros t base2 Hh Hwt Hlt.
    destruct (pop2_ok t base2 k (VObject o) Hwt Hlt) as (t1 & t2 & Hq1 & Hq2 & Hot & Hlt2 & Hwt2).
    destruct (push_ok t2 vl Hwt2) as (t3 & Hq3 & Hot3 & Hlt3 & _).
    assert (Hget : on_world (Object_Get o k) t2 = (Ok vl, t2)).
    { unfold on_world, zoom, Object_Get.
      assert (Hwd : world t2 = world t) by (rewrite Hot; reflexivity).
      rewrite Hwd, Hh. simpl. rewrite lookup_insert_eq. simpl. rewrite lookup_insert_eq.
      simpl. rewrite <- Hwd. destruct t2. reflexivity. }
    exists t3. unfold exec, bind. rewrite Hq1, Hq2, Hget, Hq3.
    split; [reflexivity|]. split; [rewrite Hlt3, Hlt2; reflexivity|].
    rewrite Hot3. simpl. rewrite Hot. reflexivity.
Qed.

End Calls.


(** ** Range loops and bookmarks *)

Lemma take_app_replicate_S {A} n (l : list A) x :
  take n (l ++ replicate (S n) x) = take n (l ++ replicate n x).
Proof.
  rewrite replicate_S_end, app_assoc.
  rewrite take_app_le by (rewrite length_app, length_replicate; lia). reflexivity.
Qed.

Section Ranges.
Context {H : Type} `{!Host H}.

Lemma rngp_loop_ok n : forall j0 vs (s : State H),
  vs_wf (stk (vm s)) ->
  exists s', rngp_loop n (Z.of_nat j0) (Some <$> vs) s = (Ok tt, s') /\ stk_only s s' /\
             live (stk (vm s')) =
               live (stk (vm s)) ++ take n (drop j0 vs ++ replicate n VNil) /\
             vs_wf (stk (vm s')).
Proof.
  induction n as [|n IH]; intros j0 vs s Hwf; simpl.
  - exists s. rewrite take_0, app_nil_r. split; [reflexivity|].
    split; [apply stk_only_refl|auto].
  - rewrite length_fmap.
    destruct (Z.of_nat j0 <? Z.of_nat (length vs)) eqn:Ej.
    + apply Z.ltb_lt in Ej.
      destruct (lookup_lt_is_Some_2 vs j0) as [v Hv]; [lia|].
      assert (Hi : index (Some <$> vs) (Z.of_nat j0) = Some (Some v)).
      { apply index_Some. rewrite length_fmap. split; [lia|].
        rewrite Nat2Z.id, list_lookup_fmap, Hv. reflexivity. }
      destruct (push_ok s v Hwf) as (s1 & Hp & Ho & Hl & Hw & _).
      destruct (IH (S j0) vs s1 Hw) as (s' & Hr & Ho' & Hl' & Hw').
      exists s'. unfold bind at 1. unfold bind at 1, at_index. rewrite Hi. unfold ret at 1.
      rewrite Hp. replace (Z.of_nat j0 + 1) with (Z.of_nat (S j0)) by lia.
      split; [exact Hr|]. split; [eapply stk_only_trans; eauto|]. split; [|exact Hw'].
      rewrite Hl', Hl, <- app_assoc. f_equal.
      rewrite (drop_S vs v j0 Hv). simpl. f_equal. symmetry. apply take_app_replicate_S.
    + apply Z.ltb_ge in Ej.
      destruct (push_ok s VNil Hwf) as (s1 & Hp & Ho & Hl & Hw & _).
      destruct (IH (S j0) vs s1 Hw) as (s' & Hr & Ho' & Hl' & Hw').
      exists s'. unfold bind at 1. rewrite Hp.
      replace (Z.of_nat j0 + 1) with (Z.of_nat (S j0)) by lia.
      split; [exact Hr|]. split; [eapply stk_only_trans; eauto|]. split; [|exact Hw'].
      rewrite Hl', Hl, <- app_assoc. f_equal.
      rewrite !drop_ge by lia. reflexivity.
Qed.

(** X19: when the resume of the coroutine on top of the range stack
    succeeds, RNGP pushes exactly [ix] values, the values of the resume
    in their order (all of a slice, or the single value), cut at [ix] or
    followed by [Nil]s up to [ix], and then [true]. *)
Theorem rngp_pads_to_ix flg ix (s : State H) c v vs w' :
  index (rst (rng (vm s))) (rsp (rng (vm s)) - 1) = Some c ->
  vs_wf (stk (vm s)) ->
  0 <= ix ->
  (v = I_slice (Some <$> vs) \/ exists x, v = I_val x /\ vs = [x]) ->
  coro_Resume c (world s) = (Ok (v, None), w') ->
  exists s',
    exec OP_RNGP flg ix s = (Ok None, s') /\
    live (stk (vm s')) =
      live (stk (vm s)) ++ take (Z.to_nat ix) (vs ++ replicate (Z.to_nat ix) VNil)
                        ++ [VBool true] /\
    world s' = w'.
Proof.
  intros Hc Hwf Hix Hv Hres.
  destruct (rngp_loop_ok (Z.to_nat ix) 0 vs (set_world w' s) Hwf)
    as (s1 & Hr & Ho & Hl & Hw).
  destruct (push_ok s1 (VBool true) Hw) as (s2 & Hp & Ho2 & Hl2 & _).
  exists s2. split; [|split].
  - unfold exec, bind, get_vm, at_index. rewrite Hc. unfold ret, on_world, zoom.
    rewrite Hres.
    assert (Hvals : match v with
                    | I_val x => [Some x]
                    | I_slice sl => sl
                    | I_other => [None]
                    end = Some <$> vs).
    { destruct Hv as [->|(x & -> & ->)]; reflexivity. }
    rewrite Hvals. change 0 with (Z.of_nat 0). rewrite Hr, Hp. reflexivity.
  - rewrite Hl2, Hl. simpl. rewrite <- app_assoc. reflexivity.
  - rewrite Ho2. simpl. rewrite Ho. reflexivity.
Qed.

Lemma bs_push_ok i bs :
  bs_wf bs ->
  exists bs1, bs_push i bs = (Ok tt, bs1) /\ bsp bs1 = bsp bs + 1 /\
              index (bst bs1) (bsp bs) = Some i.
Proof.
  unfold bs_wf, bs_push. intros Hwf.
  destruct (bsp bs =? Z.of_nat (length (bst bs))) eqn:E.
  - apply Z.eqb_eq in E. eexists. split; [reflexivity|]. simpl. split; [reflexivity|].
    apply index_Some. rewrite length_app. simpl. split; [lia|].
    rewrite lookup_app_r by lia.
    replace (Z.to_nat (bsp bs) - length (bst bs))%nat with O by lia. reflexivity.
  - apply Z.eqb_neq in E. unfold in_range.
    destruct (0 <=? bsp bs) eqn:E0; [|apply Z.leb_gt in E0; lia].
    destruct (bsp bs <? Z.of_nat (length (bst bs))) eqn:E1; [|apply Z.ltb_ge in E1; lia].
    simpl. eexists. split; [reflexivity|]. simpl. split; [reflexivity|].
    apply index_insert_eq. lia.
Qed.

(** X20: BKMS records the depth of the operand stack, and the BKME that
    closes it, whatever was pushed in between, leaves exactly [ix]
    values above that depth: the first [ix] of those pushed, followed by
    [Nil]s when fewer were; the bookmark stack is back where it was. *)
Theorem bkms_bkme_normalises flg ix0 flg' ix (s : State H) :
  bs_wf (bkm (vm s)) -> vs_wf (stk (vm s)) -> 0 <= ix < 2 ^ 64 ->
  exists s1,
    exec OP_BKMS flg ix0 s = (Ok None, s1) /\
    stk (vm s1) = stk (vm s) /\
    forall (s2 : State H) vals,
      bkm (vm s2) = bkm (vm s1) ->
      vs_wf (stk (vm s2)) -> sp (stk (vm s2)) < 2 ^ 63 ->
      live (stk (vm s2)) = live (stk (vm s)) ++ vals ->
      exists s3,
        exec OP_BKME flg' ix s2 = (Ok None, s3) /\
        live (stk (vm s3)) =
          live (stk (vm s)) ++ take (Z.to_nat ix) (vals ++ replicate (Z.to_nat ix) VNil) /\
        bsp (bkm (vm s3)) = bsp (bkm (vm s)).
Proof.
  intros Hbw Hwf Hix.
  destruct (bs_push_ok (sp (stk (vm s))) _ Hbw) as (bs1 & Hpush & Hbsp & Htop).
  exists (set_vm (set_bkm bs1 (vm s)) s). split; [|split; [reflexivity|]].
  { unfold exec, bind, get_vm, on_bkm, on_vm, zoom. rewrite Hpush. reflexivity. }
  intros s2 vals Hbkm Hwf2 Hint Hl. simpl in Hbkm.
  assert (Hlen : forall t : State H, vs_wf (stk (vm t)) ->
                   length (live (stk (vm t))) = Z.to_nat (sp (stk (vm t)))).
  { intros t Ht. unfold live. rewrite length_take. unfold vs_wf in Ht. lia. }
  assert (Hsp : sp (stk (vm s2)) = sp (stk (vm s)) + Z.of_nat (length vals)).
  { pose proof (Hlen s2 Hwf2) as H2. pose proof (Hlen s Hwf) as H1.
    rewrite Hl, length_app, H1 in H2. unfold vs_wf in Hwf, Hwf2. lia. }
  set (b := sp (stk (vm s))) in *.
  set (t := set_vm (set_bkm {| bst := bst bs1; bsp := bsp bs1 - 1 |} (vm s2)) s2).
  assert (Hpop : on_bkm bs_pop s2 = (Ok b, t)).
  { assert (Hidx : index (bst bs1) (bsp bs1 - 1) = Some b).
    { replace (bsp bs1 - 1) with (bsp (bkm (vm s))) by lia. exact Htop. }
    unfold on_bkm, on_vm, zoom, bs_pop. rewrite Hbkm. simpl. rewrite Hidx. reflexivity. }
  unfold vs_wf in Hwf.
  unfold exec. unfold bind at 1. rewrite Hpop. unfold bind at 1. unfold bkme.
  unfold bind at 1, get_vm at 1. unfold bkme_got. change (stk (vm t)) with (stk (vm s2)).
  rewrite to_uint64_small by lia.
  destruct (Z_le_gt_dec (sp (stk (vm s2)) - b) ix) as [Hle|Hgt].
  - destruct (bkme_loop_push (Z.to_nat (Z.abs (sp (stk (vm s2)) - b - ix))) t b ix)
      as (s3 & Hr & Ho & Hl3 & Hw3 & Hs3); simpl; try lia; auto.
    rewrite Hr. exists s3. split; [reflexivity|]. split.
    + rewrite Hl3. simpl. rewrite Hl, <- app_assoc. f_equal.
      replace (Z.to_nat (Z.abs (sp (stk (vm s2)) - b - ix)))
        with (Z.to_nat ix - length vals)%nat by lia.
      rewrite take_app_ge by lia. f_equal.
      rewrite take_replicate. f_equal. lia.
    + rewrite Ho. simpl. lia.
  - destruct (bkme_loop_pop (Z.to_nat (Z.abs (sp (stk (vm s2)) - b - ix))) t b ix)
      as (s3 & Hr & Ho & Hl3 & Hw3 & Hs3); simpl; try lia; auto.
    rewrite Hr. exists s3. split; [reflexivity|]. split.
    + rewrite Hl3. simpl. rewrite Hl.
      pose proof (Hlen s (conj (proj1 Hwf) (proj2 Hwf))) as H1. fold b in H1.
      rewrite take_app_ge by lia.
      f_equal. rewrite take_app_le by lia. f_equal. lia.
    + rewrite Ho. simpl. lia.
Qed.

End Ranges.


(** ** More on a first run *)

Lemma locals_lookup (l : list string) : forall (m : gmap string Val) x,
  foldl (fun m s => <[s := VNil]> m) m l !! x = if decide (x ∈ l) then Some VNil else m !! x.
Proof.
  induction l as [|y l IH]; intros m x; simpl.
  - destruct (decide (x ∈ [])) as [Hin|_]; [inversion Hin|reflexivity].
  - rewrite IH. destruct (decide (x ∈ l)) as [Hin|Hnin].
    + rewrite decide_True by (right; exact Hin). reflexivity.
    + destruct (decide (x = y)) as [->|Hne].
      * rewrite decide_True by left. apply lookup_insert_eq.
      * rewrite decide_False by (intros Hc; inversion Hc; subst; contradiction).
        apply lookup_insert_ne. congruence.
Qed.

Section FreshRunMore.
Context {H : Type} `{!Host H}.

Lemma enter_fresh_vars (s : State H) argv :
  pc (vm s) = 0 ->
  expArgs (proto (vm s)) <= Z.of_nat (length (kTable (proto (vm s)))) ->
  exists s',
    enter argv s = (Ok tt, s') /\
    vars (vm s') =
      bound_vars (Z.to_nat (expArgs (proto (vm s)))) 0 (kTable (proto (vm s))) argv
        (foldl (fun m x => <[x := VNil]> m) (vars (vm s)) (lTable (proto (vm s)))) /\
    stk (vm s') = stk (vm s) /\ pc (vm s') = 0 /\ rng (vm s') = rng (vm s) /\
    bkm (vm s') = bkm (vm s) /\ clearRange s' = clearRange s.
Proof.
  intros Hpc Hexp.
  set (l0 := foldl (fun m x => <[x := VNil]> m) (vars (vm s)) (lTable (proto (vm s)))).
  set (s1 := set_vm (set_vars l0 (vm s)) s).
  set (n := Z.to_nat (expArgs (proto (vm s)))).
  assert (Hloc : createLocals s = (Ok tt, s1)) by reflexivity.
  assert (Hbind : bind_args n 0 argv s1 =
            (Ok tt, set_vm (set_vars (bound_vars n 0 (kTable (proto (vm s))) argv l0)
                                     (vm s1)) s1)).
  { apply (bind_args_ok n 0 argv s1); [lia|]. subst s1 n. simpl. lia. }
  destruct (createArgsVal argv (world s)) as [[a| |] w] eqn:Ec.
  - eexists. split.
    + unfold enter. unfold bind at 1, get_vm at 1. rewrite Hpc. simpl (0 =? 0). cbv iota.
      unfold bind at 1. rewrite Hloc. unfold bind at 1. fold n. rewrite Hbind.
      unfold bind at 1. unfold on_world at 1, zoom. simpl. rewrite Ec. reflexivity.
    + simpl. repeat split; auto.
  - exfalso. destruct argv; [discriminate|]. rewrite createArgsVal_cons in Ec. discriminate.
  - exfalso. destruct argv; [discriminate|]. rewrite createArgsVal_cons in Ec. discriminate.
Qed.

(** X21: a first run gives every name of the local table the value
    [Nil], a parameter apart; a name that is neither in the local table
    nor a parameter keeps the binding it had; the stacks are not
    touched. *)
Theorem fresh_locals_are_nil (s : State H) argv :
  pc (vm s) = 0 ->
  expArgs (proto (vm s)) <= Z.of_nat (length (kTable (proto (vm s)))) ->
  exists s',
    enter argv s = (Ok tt, s') /\
    (forall x,
       (forall j c, 0 <= j < expArgs (proto (vm s)) ->
                    index (kTable (proto (vm s))) j = Some c -> Val_String c <> x) ->
       vars (vm s') !! x =
         if decide (x ∈ lTable (proto (vm s))) then Some VNil else vars (vm s) !! x) /\
    stk (vm s') = stk (vm s) /\ rng (vm s') = rng (vm s) /\ bkm (vm s') = bkm (vm s).
Proof.
  intros Hpc Hexp.
  destruct (enter_fresh_vars s argv Hpc Hexp) as (s' & He & Hv & Hs & _ & Hr & Hb & _).
  exists s'. split; [exact He|]. split; [|auto].
  intros x Hx. rewrite Hv. rewrite bound_vars_other.
  - apply locals_lookup.
  - intros j c Hj. apply Hx. lia.
Qed.

Lemma bind_args_overrun n : forall j argv (s : State H),
  0 <= j <= Z.of_nat (length (kTable (proto (vm s)))) ->
  Z.of_nat (length (kTable (proto (vm s)))) < j + Z.of_nat n ->
  exists V, bind_args n j argv s =
              (Panicked (RuntimeError "index out of range"),
               set_vm (set_vars V (vm s)) s).
Proof.
  induction n as [|n IH]; intros j argv s Hj Hn; [lia|]. simpl.
  unfold bind at 1, get_vm at 1. unfold bind at 1, at_index.
  destruct (index (kTable (proto (vm s))) j) as [c|] eqn:Ec.
  - apply index_Some in Ec as Hr. destruct Hr as [Hr _].
    unfold ret at 1. unfold bind at 1.
    assert (Hnext : forall a, exists V,
              bind_args n (j + 1) argv
                (set_vm (set_vars (<[Val_String c := a]> (vars (vm s))) (vm s)) s) =
              (Panicked (RuntimeError "index out of range"), set_vm (set_vars V (vm s)) s)).
    { intros a.
      destruct (IH (j + 1) argv
                  (set_vm (set_vars (<[Val_String c := a]> (vars (vm s))) (vm s)) s))
        as (V & HV); simpl; try lia.
      exists V. rewrite HV. reflexivity. }
    destruct (j <? Z.of_nat (length argv)) eqn:Ej.
    + apply Z.ltb_lt in Ej. destruct (index_in_range argv j) as [a Ha]; [lia|].
      unfold bind at 1. rewrite Ha. unfold ret at 1.
      unfold on_vm, zoom, modify. exact (Hnext a).
    + unfold on_vm, zoom, modify. exact (Hnext VNil).
  - exists (vars (vm s)). destruct s as [[] ? ?]. reflexivity.
Qed.

Lemma rng_clear_loop_res n : forall (s : State H) r s',
  rng_clear_loop n s = (r, s') ->
  (r = Ok tt \/ r = Panicked (RuntimeError "index out of range")) /\
  stk (vm s') = stk (vm s) /\ args (vm s') = args (vm s) /\
  vars (vm s') = vars (vm s) /\ heap (world s') = heap (world s) /\
  pc (vm s') = pc (vm s).
Proof.
  induction n as [|n IH]; intros s r s'; simpl.
  - intros [= <- <-]. auto 7.
  - unfold bind at 1. unfold rng_pop, bind, on_vm, on_world, zoom, rs_take, modify.
    destruct (index (rst (rng (vm s))) (rsp (rng (vm s)) - 1)); simpl.
    + intros Hr. apply IH in Hr. simpl in Hr. exact Hr.
    + intros [= <- <-]. simpl. auto 7.
Qed.

(** X22: a prototype that expects more arguments than it has constants
    cannot start: the first run panics on the index of the constant
    table before any instruction is executed; the operand stack, [args]
    and the Objects are as they were. *)
Theorem fresh_run_needs_names fuel (s : State H) argv :
  pc (vm s) = 0 ->
  Z.of_nat (length (kTable (proto (vm s)))) < expArgs (proto (vm s)) ->
  exists s',
    run fuel argv s = (Panicked (RuntimeError "index out of range"), s') /\
    pc (vm s') = 0 /\ stk (vm s') = stk (vm s) /\ args (vm s') = args (vm s) /\
    heap (world s') = heap (world s).
Proof.
  intros Hpc Hexp.
  set (t := set_clearRange true s).
  set (l0 := foldl (fun m x => <[x := VNil]> m) (vars (vm t)) (lTable (proto (vm t)))).
  destruct (bind_args_overrun (Z.to_nat (expArgs (proto (vm t)))) 0 argv
              (set_vm (set_vars l0 (vm t)) t)) as (V & Hb);
    [simpl; lia|simpl; lia|].
  assert (Hbody : run_body fuel argv s =
            (Panicked (RuntimeError "index out of range"), set_vm (set_vars V (vm s)) t)).
  { unfold run_body. unfold bind at 1, modify at 1. fold t. unfold bind at 1.
    unfold enter. unfold bind at 1, get_vm at 1. change (pc (vm t)) with (pc (vm s)).
    rewrite Hpc. simpl (0 =? 0). cbv iota. unfold bind at 1.
    change (createLocals t) with (Ok tt, set_vm (set_vars l0 (vm t)) t).
    cbv iota. unfold bind at 1. rewrite Hb. reflexivity. }
  unfold run. rewrite Hbody. unfold teardown. simpl.
  unfold rng_clear, bind, get_vm.
  destruct (rng_clear_loop _ _) as [r s'] eqn:Ec.
  apply rng_clear_loop_res in Ec as (Hr & Hk & Ha & _ & Hh & Hp). simpl in *.
  exists s'. destruct Hr as [->| ->]; (split; [reflexivity|]); repeat split; congruence.
Qed.

Lemma rs_store_live c rs :
  0 <= rsp rs <= Z.of_nat (length (rst rs)) ->
  exists rs1, rs_store c rs = (Ok tt, rs1) /\ rsp rs1 = rsp rs + 1 /\
              live_handles rs1 = live_handles rs ++ [c] /\
              index (rst rs1) (rsp rs) = Some c.
Proof.
  unfold rs_store, live_handles. intros Hwf.
  destruct (rsp rs =? Z.of_nat (length (rst rs))) eqn:E.
  - apply Z.eqb_eq in E. eexists. split; [reflexivity|]. simpl. split; [reflexivity|].
    split.
    + rewrite !take_ge by (rewrite ?length_app; simpl; lia). reflexivity.
    + apply index_Some. rewrite length_app. simpl. split; [lia|].
      rewrite lookup_app_r by lia.
      replace (Z.to_nat (rsp rs) - length (rst rs))%nat with O by lia. reflexivity.
  - apply Z.eqb_neq in E. unfold in_range.
    destruct (0 <=? rsp rs) eqn:E0; [|apply Z.leb_gt in E0; lia].
    destruct (rsp rs <? Z.of_nat (length (rst rs))) eqn:E1; [|apply Z.ltb_ge in E1; lia].
    simpl. eexists. split; [reflexivity|]. simpl. split; [reflexivity|]. split.
    + replace (Z.to_nat (rsp rs + 1)) with (S (Z.to_nat (rsp rs))) by lia.
      unfold store. erewrite take_S_r by (apply list_lookup_insert_eq; lia).
      rewrite take_insert_ge by lia. reflexivity.
    + apply index_insert_eq. lia.
Qed.

(** X23: RNGS pops its [ix] seed values, starts a coroutine over them
    in the order they were pushed and puts its handle on top of the
    range stack; the RNGE that follows releases that handle and leaves
    the range stack with the handles it held before. *)
Theorem rngs_then_rnge flg ix flg' ix' (s : State H) base argv c w1 :
  Z.of_nat (length argv) = ix -> ix < 2 ^ 63 ->
  vs_wf (stk (vm s)) -> live (stk (vm s)) = base ++ argv ->
  0 <= rsp (rng (vm s)) <= Z.of_nat (length (rst (rng (vm s)))) ->
  coro_New argv (world s) = (Ok c, w1) ->
  exists s1 s2,
    exec OP_RNGS flg ix s = (Ok None, s1) /\
    live (stk (vm s1)) = base /\ world s1 = w1 /\
    live_handles (rng (vm s1)) = live_handles (rng (vm s)) ++ [c] /\
    exec OP_RNGE flg' ix' s1 = (Ok None, s2) /\
    live_handles (rng (vm s2)) = live_handles (rng (vm s)) /\
    rsp (rng (vm s2)) = rsp (rng (vm s)) /\
    host (world s2) = coro_Release c (host w1) /\
    stk (vm s2) = stk (vm s1).
Proof.
  intros Hix Hlt Hwf Hl Hrs Hnew.
  destruct (pop_args_ok ix s base argv Hix Hlt Hwf Hl) as (s0 & Hp & Ho & Hl0 & Hw0).
  assert (Hw : world s0 = world s) by (rewrite Ho; reflexivity).
  assert (Hr0 : rng (vm s0) = rng (vm s)) by (rewrite Ho; reflexivity).
  destruct (rs_store_live c (rng (vm s)) Hrs) as (rs1 & Hst & Hsp & Hlive & Htop).
  set (s1 := set_vm (set_rng rs1 (vm s0)) (set_world w1 s0)).
  assert (Hpush : rng_push argv s0 = (Ok tt, s1)).
  { unfold rng_push, bind, on_world, zoom. rewrite Hw, Hnew.
    unfold on_vm, zoom. simpl. rewrite Hr0, Hst. reflexivity. }
  assert (Hidx : index (rst (rng (vm s1))) (rsp (rng (vm s1)) - 1) = Some c).
  { simpl. rewrite Hsp. replace (rsp (rng (vm s)) + 1 - 1) with (rsp (rng (vm s))) by lia.
    exact Htop. }
  eexists s1, _. split; [|split; [|split; [|split; [|split]]]].
  - unfold exec, bind. rewrite Hp, Hpush. reflexivity.
  - exact Hl0.
  - reflexivity.
  - exact Hlive.
  - unfold exec, bind. rewrite (rng_pop_ok s1 c Hidx). reflexivity.
  - simpl. unfold live_handles in *. simpl. rewrite Hsp.
    replace (rsp (rng (vm s)) + 1 - 1) with (rsp (rng (vm s))) by lia.
    split; [|auto].
    apply (f_equal (take (Z.to_nat (rsp (rng (vm s)))))) in Hlive.
    rewrite take_take in Hlive. rewrite Hsp in Hlive.
    replace (Z.to_nat (rsp (rng (vm s))) `min` Z.to_nat (rsp (rng (vm s)) + 1))%nat
      with (Z.to_nat (rsp (rng (vm s)))) in Hlive by lia.
    rewrite Hlive. rewrite take_app_le by (rewrite length_take; lia).
    rewrite take_take. f_equal. lia.
Qed.

End FreshRunMore.


(** ** More on the assembler *)

Section AsmMore.
Import Asm.

Lemma f_loop_nil_panics fuel s :
  exists s', f_loop (S fuel) None 0 s =
             (Panicked (RuntimeError "invalid memory address or nil pointer dereference"), s').
Proof.
  simpl. unfold bind at 1. unfold Scan. destruct (rest s) as [|l rs].
  - unfold bind, deref, nil_panic, panic. eauto.
  - unfold bind at 1, Text at 1. simpl. unfold bind at 1.
    destruct (String.eqb l "true");
      unfold bind, update, bind, deref, nil_panic, panic; eauto.
Qed.

(** A line of a section, handed a nil prototype, ends in a panic. *)
Lemma k_line_nil t s : exists e, k_line None t s = (Panicked e, s).
Proof.
  unfold k_line, index_panic, panic. destruct t as [|c body]; [eauto|].
  repeat match goal with
         | |- context [if ?b then _ else _] => destruct b
         | |- context [match ?x with EmptyString => _ | String _ _ => _ end] => destruct x
         end; unfold update, bind, deref, nil_panic, panic; eauto.
Qed.

Lemma i_line_nil t s : exists e, i_line None t s = (Panicked e, s).
Proof.
  unfold i_line, index_panic, panic. destruct (Fields t) as [|op [|flg [|ix l]]];
    unfold update, bind, deref, nil_panic, panic; eauto.
Qed.

(** A handler called on a nil prototype panics, or returns at the end
    of the text with [Protos] as it was. *)
Definition nil_outcome (x : Res unit * CState) (s : CState) : Prop :=
  (exists e, fst x = Panicked e) \/
  (fst x = Ok tt /\ rest (snd x) = [] /\ Protos (snd x) = Protos s).

Lemma loops_nil fuel :
  (forall h s, (2 * length (rest s) + 2 <= fuel)%nat ->
               nil_outcome (invoke fuel h None s) s) /\
  (forall s, (2 * length (rest s) + 1 <= fuel)%nat -> nil_outcome (k_loop fuel None s) s) /\
  (forall s, (2 * length (rest s) + 1 <= fuel)%nat -> nil_outcome (i_loop fuel None s) s).
Proof.
  induction fuel as [|fuel (IHv & IHk & IHi)].
  - repeat split; intros; lia.
  - split; [|split].
    + intros h s Hf. simpl. destruct h.
      * destruct fuel as [|fuel]; [lia|].
        destruct (f_loop_nil_panics fuel s) as (s' & Hp). rewrite Hp. left. simpl. eauto.
      * apply IHk. lia.
      * apply IHi. lia.
    + intros s Hf. simpl. unfold bind at 1, Scan. destruct (rest s) as [|l rs] eqn:Er.
      * left. simpl. eauto.
      * unfold bind at 1, Text at 1. simpl.
        destruct (m (TrimSpace l)) as [h|].
        -- assert (Hfuel : (2 * length (rest (set_scan rs l s)) + 2 <= fuel)%nat)
             by (simpl in *; lia).
           destruct (IHv h (set_scan rs l s) Hfuel) as [He|(He & Hr & Hp)].
           ++ left. exact He.
           ++ right. simpl in Hp. auto.
        -- destruct (k_line_nil l (set_scan rs l s)) as (e & He).
           unfold bind. rewrite He. left. simpl. eauto.
    + intros s Hf. simpl. unfold bind at 1, Scan. destruct (rest s) as [|l rs] eqn:Er.
      * right. simpl. auto.
      * unfold bind at 1, Text at 1. simpl.
        destruct (m (TrimSpace l)) as [h|].
        -- assert (Hfuel : (2 * length (rest (set_scan rs l s)) + 2 <= fuel)%nat)
             by (simpl in *; lia).
           destruct (IHv h (set_scan rs l s) Hfuel) as [He|(He & Hr & Hp)].
           ++ left. exact He.
           ++ right. simpl in Hp. auto.
        -- destruct (i_line_nil (TrimSpace l) (set_scan rs l s)) as (e & He).
           unfold bind. rewrite He. left. simpl. eauto.
Qed.

Lemma top_loop_S fuel s :
  top_loop (S fuel) s =
  match rest s with
  | [] => (Ok tt, s)
  | l :: rs =>
      match m (TrimSpace l) with
      | Some h => (invoke fuel h None ;; top_loop fuel) (set_scan rs l s)
      | None => top_loop fuel (set_scan rs l s)
      end
  end.
Proof.
  simpl. unfold bind at 1, Scan. destruct (rest s) as [|l rs]; [reflexivity|].
  unfold bind at 1, Text at 1. simpl. destruct (m (TrimSpace l)); reflexivity.
Qed.

Lemma top_loop_nil fuel : forall s,
  (2 * length (rest s) + 1 <= fuel)%nat ->
  (exists e, fst (top_loop fuel s) = Panicked e) \/
  (fst (top_loop fuel s) = Ok tt /\ Protos (snd (top_loop fuel s)) = Protos s).
Proof.
  induction fuel as [|fuel IH]; intros s Hf; [lia|]. rewrite top_loop_S.
  destruct (rest s) as [|l rs] eqn:Er.
  - right. simpl. auto.
  - destruct (m (TrimSpace l)) as [h|].
    + assert (Hfuel : (2 * length (rest (set_scan rs l s)) + 2 <= fuel)%nat)
        by (simpl in *; lia).
      unfold bind.
      destruct (proj1 (loops_nil fuel) h (set_scan rs l s) Hfuel) as [(e & He)|(He & Hr & Hp)];
        destruct (invoke fuel h None (set_scan rs l s)) as [r s1];
        simpl in He; subst r.
      * left. simpl. eauto.
      * simpl in Hr, Hp.
        assert (Hfuel1 : (2 * length (rest s1) + 1 <= fuel)%nat) by (rewrite Hr; simpl; lia).
        destruct (IH s1 Hfuel1) as [He'|(He' & Hp')]; [left; exact He'|].
        right. split; [exact He'|]. rewrite Hp'. exact Hp.
    + assert (Hfuel : (2 * length (rest (set_scan rs l s)) + 1 <= fuel)%nat)
        by (simpl in *; lia).
      destruct (IH (set_scan rs l s) Hfuel) as [He'|(He' & Hp')]; [left; exact He'|].
      right. split; [exact He'|exact Hp'].
Qed.

(** X24: whatever the text, [Compile] ends in a panic or returns the
    empty list of prototypes: it builds none, and the steps it is given
    always suffice. *)
Theorem Compile_panics_or_empty lines :
  Compile lines = Ok [] \/ exists e, Compile lines = Panicked e.
Proof.
  unfold Compile.
  set (s0 := {| rest := lines; text := ""; objs := ∅; Protos := [] |}).
  assert (Hfuel : (2 * length (rest s0) + 1 <= 2 * length lines + 2)%nat) by (simpl; lia).
  destruct (top_loop_nil (2 * length lines + 2) s0 Hfuel) as [(e & He)|(He & Hp)];
    destruct (top_loop (2 * length lines + 2) s0) as [r s1]; simpl in *; subst r.
  - right. eauto.
  - left. rewrite Hp. reflexivity.
Qed.





End AsmMore.


(** ** The further theorems at work *)

(** A stack whose pointer is at the end of its backing slice is in
    order. *)
Lemma tidy_full l : tidy {| st := l; sp := Z.of_nat (length l) |}.
Proof.
  split; [unfold vs_wf; simpl; lia|]. intros i Hi. simpl in Hi. lia.
Qed.

Lemma push_pop_roundtrip_witness :
  exists vs1 vs2,
    vs_push (VString "a") {| st := [VNumber 1; VNil]; sp := 1 |} = (Ok tt, vs1) /\
    vs_pop vs1 = (Ok (VString "a"), vs2) /\ sp vs2 = 1 /\ live vs2 = [VNumber 1].
Proof.
  destruct (push_pop_roundtrip {| st := [VNumber 1; VNil]; sp := 1 |} (VString "a"))
    as (vs1 & vs2 & Hp & Hq & Hsp & Hl & _).
  - split; [unfold vs_wf; simpl; lia|].
    intros i Hi. simpl in Hi. assert (i = 1) by lia. subst i. reflexivity.
  - exists vs1, vs2. split; [exact Hp|]. split; [exact Hq|]. split; [exact Hsp|exact Hl].
Defined.

Lemma pop_empty_panics_witness :
  vs_pop {| st := [VNil]; sp := 0 |} =
    (Panicked (RuntimeError "index out of range"), {| st := [VNil]; sp := -1 |}) /\
  vs_push (VNumber 1) {| st := [VNil]; sp := -1 |} =
    (Panicked (RuntimeError "index out of range"), {| st := [VNil]; sp := -1 |}).
Proof.
  destruct (pop_empty_panics {| st := [VNil]; sp := 0 |}) as [Hp Hq]; [simpl; lia|].
  split; [exact Hp|exact (Hq (VNumber 1))].
Defined.

Lemma stack_stays_tidy_witness :
  tidy (snd (vs_push (VNumber 2) {| st := [VNumber 1]; sp := 1 |})) /\
  length (st (snd (vs_push (VNumber 2) {| st := [VNumber 1]; sp := 1 |}))) = 2%nat.
Proof.
  destruct (stack_stays_tidy {| st := [VNumber 1]; sp := 1 |} (tidy_full [VNumber 1]))
    as [Hpush _].
  destruct (Hpush (VNumber 2) _ _ eq_refl) as (_ & Ht & Hlen).
  split; [exact Ht|exact Hlen].
Defined.

Lemma bkm_push_pop_witness :
  exists bs1 bs2,
    bs_push 7 {| bst := [3]; bsp := 1 |} = (Ok tt, bs1) /\
    bs_pop bs1 = (Ok 7, bs2) /\ bsp bs2 = 1 /\ index (bst bs2) 1 = Some 7.
Proof.
  destruct (bkm_push_pop {| bst := [3]; bsp := 1 |} 7)
    as (bs1 & bs2 & Hp & Hq & Hsp & _ & _ & Hi); [unfold bs_wf; simpl; lia|].
  exists bs1, bs2. split; [exact Hp|]. split; [exact Hq|]. split; [exact Hsp|exact Hi].
Defined.

Lemma run_keeps_stack_tidy_witness :
  tidy (stk (vm (snd (run 5 [] (Example.state0 Example.ret_prog))))).
Proof.
  apply (run_keeps_stack_tidy 5 [] (Example.state0 Example.ret_prog) [VNil]).
  - exact (tidy_full []).
  - vm_compute. reflexivity.
Defined.

Lemma run_returns_one_value_witness :
  at_op Example.suspended OP_RET \/ at_op Example.suspended OP_YLD.
Proof.
  assert (Hrun : run 5 [] (Example.state0 Example.gen_prog) = (Ok [VNil], Example.suspended))
    by (vm_compute; reflexivity).
  exact (proj2 (run_returns_one_value 5 [] _ _ _ Hrun)).
Defined.

Lemma ret_yld_return_top_witness :
  (exists s', exec OP_RET (FLG_other 0) 0
                (Example.on_stack [VNumber 1; VNumber 2] (Example.state0 Example.ret_prog)) =
                (Ok (Some [VNumber 2]), s') /\
              live (stk (vm s')) = [VNumber 1] /\ coroState (world s') = None) /\
  (exists s', exec OP_YLD (FLG_other 0) 0
                (Example.on_stack [VNumber 1; VNumber 2] (Example.state0 Example.ret_prog)) =
                (Ok (Some [VNumber 2]), s') /\
              live (stk (vm s')) = [VNumber 1] /\ coroState (world s') = Some 1%positive).
Proof.
  destruct (ret_yld_return_top (FLG_other 0) 0
              (Example.on_stack [VNumber 1; VNumber 2] (Example.state0 Example.ret_prog))
              [VNumber 1] (VNumber 2))
    as [(s1 & He1 & Hl1 & Hc1 & _) (s2 & He2 & Hl2 & Hc2 & _)].
  - unfold vs_wf. simpl. lia.
  - reflexivity.
  - split; [exists s1|exists s2]; (split; [assumption|]); (split; assumption).
Defined.

Lemma push_then_pop_witness :
  live (stk (vm (snd (exec OP_POP (FLG_other 0) 1
                        (snd (exec OP_PUSH FLG_K 0 Example.entered)))))) = [] /\
  vars (vm (snd (exec OP_POP (FLG_other 0) 1
                   (snd (exec OP_PUSH FLG_K 0 Example.entered))))) !! "y" =
    Some (VString "x").
Proof.
  destruct (push_then_pop FLG_K 0 (FLG_other 0) 1 Example.entered
              (snd (exec OP_PUSH FLG_K 0 Example.entered))
              (snd (exec OP_POP (FLG_other 0) 1 (snd (exec OP_PUSH FLG_K 0 Example.entered)))))
    as (Hl & _).
  - unfold vs_wf. vm_compute. split; discriminate.
  - vm_compute. reflexivity.
  - vm_compute. reflexivity.
  - split; [exact Hl|]. vm_compute. reflexivity.
Defined.

Lemma binary_operand_order_witness :
  exists s',
    exec OP_SUB (FLG_other 0) 0
      (Example.on_stack [VNumber 5; VNumber 3] (Example.state0 Example.ret_prog)) =
      (Ok None, s') /\
    live (stk (vm s')) = [VNumber 2].
Proof.
  destruct (binary_operand_order OP_SUB arith_Sub (FLG_other 0) 0
              (Example.on_stack [VNumber 5; VNumber 3] (Example.state0 Example.ret_prog))
              [] (VNumber 5) (VNumber 3) (VNumber 2) Example.world0)
    as (s' & He & Hl & _).
  - reflexivity.
  - unfold vs_wf. simpl. lia.
  - reflexivity.
  - reflexivity.
  - exists s'. split; [exact He|exact Hl].
Defined.

Lemma compare_pushes_relation_witness :
  exists s',
    exec OP_LT (FLG_other 0) 0
      (Example.on_stack [VNumber 1; VNumber 2] (Example.state0 Example.ret_prog)) =
      (Ok None, s') /\
    live (stk (vm s')) = [VBool true].
Proof.
  destruct (compare_pushes_relation OP_LT (FLG_other 0) 0
              (Example.on_stack [VNumber 1; VNumber 2] (Example.state0 Example.ret_prog))
              [] (VNumber 1) (VNumber 2) (-1) Example.world0)
    as (s' & b & He & Hl & Hb & _).
  - reflexivity.
  - unfold vs_wf. simpl. lia.
  - reflexivity.
  - reflexivity.
  - exists s'. split; [exact He|]. rewrite Hl.
    rewrite (proj2 Hb); [reflexivity|]. simpl. lia.
Defined.

Lemma test_skips_on_falsy_witness :
  exists s',
    exec OP_TEST (FLG_other 0) 3
      (Example.on_stack [VNil] (Example.state0 Example.ret_prog)) = (Ok None, s') /\
    live (stk (vm s')) = [] /\ pc (vm s') = 3.
Proof.
  destruct (test_skips_on_falsy (FLG_other 0) 3
              (Example.on_stack [VNil] (Example.state0 Example.ret_prog))
              [] VNil false Example.world0)
    as (s' & He & Hl & _ & Hpc).
  - unfold vs_wf. simpl. lia.
  - reflexivity.
  - reflexivity.
  - lia.
  - unfold is_int. simpl. lia.
  - exists s'. split; [exact He|]. split; [exact Hl|exact Hpc].
Defined.

Lemma jmp_target_witness :
  pc (vm (snd (step (Example.state0 Example.jump_prog)))) = 3.
Proof.
  rewrite (jmp_target (Example.state0 Example.jump_prog)
             (Example.ins OP_JMP FLG_Jf 2)).
  - reflexivity.
  - reflexivity.
  - reflexivity.
  - simpl. lia.
  - simpl. lia.
Defined.

Lemma jmp_to_itself_never_ends_witness :
  exists s',
    loop 1000 (Example.state0 Example.spin_prog) = (OutOfFuel, s') /\ pc (vm s') = 0.
Proof.
  refine (jmp_to_itself_never_ends (Example.state0 Example.spin_prog)
            (Example.ins OP_JMP (FLG_other 1) 0) _ _ _ _ _ 1000%nat).
  - reflexivity.
  - reflexivity.
  - discriminate.
  - reflexivity.
  - simpl. lia.
Defined.


Lemma call_any_arity_witness :
  exists s',
    exec OP_CALL (FLG_other 0) 3
      (Example.on_stack [VNil; VNumber 1; VNumber 2; VNumber 3; VFunc 5%positive]
         (Example.state0 Example.ret_prog)) = (Ok None, s') /\
    live (stk (vm s')) = [VNil; VNumber 1; VNumber 2; VNumber 3].
Proof.
  destruct (call_any_arity (FLG_other 0) 3
              (Example.on_stack [VNil; VNumber 1; VNumber 2; VNumber 3; VFunc 5%positive]
                 (Example.state0 Example.ret_prog))
              [VNil] [VNumber 1; VNumber 2; VNumber 3] 5%positive) as [Hok _].
  - reflexivity.
  - lia.
  - unfold vs_wf. simpl. lia.
  - reflexivity.
  - destruct (Hok [VNumber 1; VNumber 2; VNumber 3] Example.world0 eq_refl)
      as (s' & He & Hl & _).
    exists s'. split; [exact He|exact Hl].
Defined.

Lemma cfld_any_arity_witness :
  (exists s',
     exec OP_CFLD (FLG_other 0) 1
       (Example.on_stack [VNumber 1; VString "m"; VObject 9%positive]
          (Example.state0 Example.ret_prog)) = (Ok None, s') /\
     live (stk (vm s')) = []) /\
  (exists s',
     exec OP_CFLD (FLG_other 0) 1
       (Example.on_stack [VNumber 1; VString "m"; VNumber 9]
          (Example.state0 Example.ret_prog)) =
       (Panicked (TypeError (Type_ (VNumber 9)) "" "object"), s') /\
     live (stk (vm s')) = []).
Proof.
  split.
  - destruct (cfld_any_arity (FLG_other 0) 1
                (Example.on_stack [VNumber 1; VString "m"; VObject 9%positive]
                   (Example.state0 Example.ret_prog))
                [] [VNumber 1] (VString "m") (VObject 9%positive)) as [Hok _].
    + reflexivity.
    + lia.
    + unfold vs_wf. simpl. lia.
    + reflexivity.
    + destruct (Hok 9%positive [] Example.world0 eq_refl eq_refl) as (s' & He & Hl & _).
      exists s'. split; [exact He|exact Hl].
  - destruct (cfld_any_arity (FLG_other 0) 1
                (Example.on_stack [VNumber 1; VString "m"; VNumber 9]
                   (Example.state0 Example.ret_prog))
                [] [VNumber 1] (VString "m") (VNumber 9)) as [_ Hno].
    + reflexivity.
    + lia.
    + unfold vs_wf. simpl. lia.
    + reflexivity.
    + destruct Hno as (s' & He & Hl & _); [discriminate|].
      exists s'. split; [exact He|exact Hl].
Defined.

Lemma type_mismatch_panics_witness :
  (exists s',
     exec OP_GFLD (FLG_other 0) 0
       (Example.on_stack [VString "k"; VNumber 3] (Example.state0 Example.ret_prog)) =
       (Panicked (TypeError (Type_ (VNumber 3)) "" "object"), s') /\
     live (stk (vm s')) = []) /\
  (exists s',
     exec OP_CALL (FLG_other 0) 0
       (Example.on_stack [VString "k"; VNumber 3] (Example.state0 Example.ret_prog)) =
       (Panicked (TypeError (Type_ (VNumber 3)) "" "func"), s') /\
     live (stk (vm s')) = [VString "k"]).
Proof.
  split.
  - destruct (type_mismatch_panics (FLG_other 0) 0
                (Example.on_stack [VString "k"; VNumber 3] (Example.state0 Example.ret_prog))
                []) as (Hg & _ & _); [unfold vs_wf; simpl; lia|].
    apply (Hg (VString "k") (VNumber 3)); [reflexivity|discriminate].
  - destruct (type_mismatch_panics (FLG_other 0) 0
                (Example.on_stack [VString "k"; VNumber 3] (Example.state0 Example.ret_prog))
                [VString "k"]) as (_ & _ & Hc); [unfold vs_wf; simpl; lia|].
    apply (Hc (VNumber 3)); [reflexivity|discriminate].
Defined.

Lemma sfld_then_gfld_witness :
  exists s1 s3,
    exec OP_SFLD (FLG_other 0) 0
      (Example.on_stack [VNumber 7; VString "k"; VObject 9%positive]
         (Example.state0 Example.ret_prog)) = (Ok None, s1) /\
    exec OP_GFLD (FLG_other 0) 0
      (Example.on_stack [VBool true; VString "k"; VObject 9%positive] s1) = (Ok None, s3) /\
    live (stk (vm s3)) = [VBool true; VNumber 7].
Proof.
  destruct (sfld_then_gfld (FLG_other 0) 0 (FLG_other 0) 0
              (Example.on_stack [VNumber 7; VString "k"; VObject 9%positive]
                 (Example.state0 Example.ret_prog))
              [] (VNumber 7) (VString "k") 9%positive)
    as (s1 & He & _ & Hnext).
  - unfold vs_wf. simpl. lia.
  - reflexivity.
  - destruct (Hnext (Example.on_stack [VBool true; VString "k"; VObject 9%positive] s1)
                [VBool true]) as (s3 & He3 & Hl3 & _).
    + reflexivity.
    + unfold vs_wf. simpl. lia.
    + reflexivity.
    + exists s1, s3. split; [exact He|]. split; [exact He3|exact Hl3].
Defined.

Lemma rngp_pads_to_ix_witness :
  (exists s',
     @exec Example.H Example.pairs_host OP_RNGP (FLG_other 0) 3 Example.ranging =
       (Ok None, s') /\
     live (stk (vm s')) = [VNumber 1; VNumber 2; VNil; VBool true]) /\
  (exists s',
     @exec Example.H Example.pairs_host OP_RNGP (FLG_other 0) 1 Example.ranging =
       (Ok None, s') /\
     live (stk (vm s')) = [VNumber 1; VBool true]).
Proof.
  split.
  - destruct (@rngp_pads_to_ix Example.H Example.pairs_host (FLG_other 0) 3 Example.ranging
                5%positive (I_slice [Some (VNumber 1); Some (VNumber 2)])
                [VNumber 1; VNumber 2] Example.world0) as (s' & He & Hl & _).
    + reflexivity.
    + unfold vs_wf. simpl. lia.
    + lia.
    + left. reflexivity.
    + reflexivity.
    + exists s'. split; [exact He|exact Hl].
  - destruct (@rngp_pads_to_ix Example.H Example.pairs_host (FLG_other 0) 1 Example.ranging
                5%positive (I_slice [Some (VNumber 1); Some (VNumber 2)])
                [VNumber 1; VNumber 2] Example.world0) as (s' & He & Hl & _).
    + reflexivity.
    + unfold vs_wf. simpl. lia.
    + lia.
    + left. reflexivity.
    + reflexivity.
    + exists s'. split; [exact He|exact Hl].
Defined.

Lemma bkms_bkme_normalises_witness :
  exists s1 s3,
    exec OP_BKMS (FLG_other 0) 0
      (Example.on_stack [VNumber 1] (Example.state0 Example.ret_prog)) = (Ok None, s1) /\
    exec OP_BKME (FLG_other 0) 2 (Example.on_stack [VNumber 1; VNumber 5] s1) =
      (Ok None, s3) /\
    live (stk (vm s3)) = [VNumber 1; VNumber 5; VNil].
Proof.
  destruct (bkms_bkme_normalises (FLG_other 0) 0 (FLG_other 0) 2
              (Example.on_stack [VNumber 1] (Example.state0 Example.ret_prog)))
    as (s1 & He & _ & Hnext).
  - unfold bs_wf. simpl. lia.
  - unfold vs_wf. simpl. lia.
  - lia.
  - destruct (Hnext (Example.on_stack [VNumber 1; VNumber 5] s1) [VNumber 5])
      as (s3 & He3 & Hl3 & _).
    + reflexivity.
    + unfold vs_wf. simpl. lia.
    + simpl. lia.
    + reflexivity.
    + exists s1, s3. split; [exact He|]. split; [exact He3|exact Hl3].
Defined.

Lemma fresh_locals_are_nil_witness :
  exists s',
    enter [VNumber 10] (Example.state0 Example.one_local) = (Ok tt, s') /\
    vars (vm s') !! "t" = Some VNil /\ vars (vm s') !! "u" = None.
Proof.
  destruct (fresh_locals_are_nil (Example.state0 Example.one_local) [VNumber 10])
    as (s' & He & Hv & _).
  - reflexivity.
  - simpl. lia.
  - assert (Hfree : forall x, x <> "x" ->
              forall j c, 0 <= j < expArgs (proto (vm (Example.state0 Example.one_local))) ->
                index (kTable (proto (vm (Example.state0 Example.one_local)))) j = Some c ->
                Val_String c <> x).
    { intros x Hx j c Hj Hc. simpl in Hj. assert (j = 0) by lia. subst j.
      vm_compute in Hc. injection Hc as <-. intros E. apply Hx. symmetry. exact E. }
    exists s'. split; [exact He|]. split.
    + rewrite (Hv "t" (Hfree "t" ltac:(discriminate))). reflexivity.
    + rewrite (Hv "u" (Hfree "u" ltac:(discriminate))). reflexivity.
Defined.

Lemma fresh_run_needs_names_witness :
  exists s',
    run 5 [VNumber 1] (Example.state0 Example.no_names) =
      (Panicked (RuntimeError "index out of range"), s') /\
    pc (vm s') = 0.
Proof.
  destruct (fresh_run_needs_names 5 (Example.state0 Example.no_names) [VNumber 1])
    as (s' & He & Hpc & _).
  - reflexivity.
  - simpl. lia.
  - exists s'. split; [exact He|exact Hpc].
Defined.

Lemma rngs_then_rnge_witness :
  exists s1 s2,
    exec OP_RNGS (FLG_other 0) 1
      (Example.on_stack [VNumber 4] (Example.state0 Example.ret_prog)) = (Ok None, s1) /\
    live_handles (rng (vm s1)) = [1%positive] /\
    exec OP_RNGE (FLG_other 0) 0 s1 = (Ok None, s2) /\
    live_handles (rng (vm s2)) = [] /\
    host (world s2) = (2%positive, [1%positive]).
Proof.
  destruct (rngs_then_rnge (FLG_other 0) 1 (FLG_other 0) 0
              (Example.on_stack [VNumber 4] (Example.state0 Example.ret_prog))
              [] [VNumber 4] 1%positive
              (set_host (2%positive, []) Example.world0))
    as (s1 & s2 & He1 & _ & _ & Hh1 & He2 & Hh2 & _ & Hhost & _).
  - reflexivity.
  - lia.
  - unfold vs_wf. simpl. lia.
  - reflexivity.
  - simpl. lia.
  - reflexivity.
  - exists s1, s2. split; [exact He1|]. split; [exact Hh1|]. split; [exact He2|].
    split; [exact Hh2|exact Hhost].
Defined.



